(** * picraft.turtle: the batching block cache and the turtle's undo history

    A shallow embedding of [picraft/turtle.py]: the class [TurtleCache]
    (a write-through cache of world blocks with thread-local, re-entrant
    batches), [TurtleScreen.draw], and the [Turtle] state machine with its
    undo history; and of [World.say] of [picraft/world.py], which
    [TurtleScreen.chat] calls.

    Conventions of the embedding.
    - Python dictionaries are [gmap]s and Python sets are [gset]s.
    - Methods are state transformers in a state-and-exception monad: a call
      either returns ([Done]) or raises ([Raised]); in both cases the
      mutated object is handed on, as in Python.
    - One calling thread is modelled, so the thread-local batch is an
      optional field and the lock is not represented.
    - The undo history is a list whose head is the most recent entry:
      [_history[-1]] is the head, [_history[0]] is the [last] element,
      [append] is [cons] and [pop()] removes the head. *)

From Stdlib Require Import Ascii.
From stdpp Require Import gmap strings list.

Local Open Scope Z_scope.

(** ** Blocks *)

(** [picraft.block.Block]: a named block with a data nibble, compared by
    value.  [Block('stone')] has data 0. *)
Record Block := mkBlock { block_name : string; block_data : Z }.

#[global] Instance Block_eq_dec : EqDecision Block.
Proof. solve_decision. Defined.

Definition stone : Block := mkBlock "stone" 0.
Definition wool15 : Block := mkBlock "wool" 15.

(** ** Python arguments *)

(** The values a caller may pass where a point is expected: [None], a
    number, a sequence of numbers (a tuple, a list or a [Vector], which
    unpacks to its components), or another turtle, given by what its
    [pos()] returns. *)
Inductive PyVal (V N : Type) :=
  | PyNone
  | PyNum (n : N)
  | PySeq (l : list N)
  | PyTurtle (p : V).
Arguments PyNone {V N}.
Arguments PyNum {V N} n.
Arguments PySeq {V N} l.
Arguments PyTurtle {V N} p.

(** ** Exceptions *)

Inductive Exn :=
  | KeyError
  | AttributeError
  | IndexError
  | TypeError
  | ValueError
  | ConnectionError.

#[global] Instance Exn_eq_dec : EqDecision Exn.
Proof. solve_decision. Defined.

(** ** The vector collaborator *)

(** The operations of [picraft.vector] that [turtle.py] calls.  The module
    is an external collaborator of the turtle; the development is
    parametric in it.  [Num] stands for Python's numbers (angles and
    distances).  [Vector_new x y z] is the constructor call
    [Vector(x, y, z)]; [towards_angle p other] is
    [math.degrees(math.atan2(-v.x, v.z))] for
    [v = (other - p).replace(y=0).unit], and [distance_to p other] is
    [p.distance_to(other)]; the two raise where the arithmetic on the
    components does. *)
Class Geometry := {
  Vector : Type;
  Num : Type;
  Vector_eq_dec :: EqDecision Vector;
  Vector_countable :: Countable Vector;
  vO : Vector;
  vX : Vector;
  vY : Vector;
  vZ : Vector;
  vadd : Vector → Vector → Vector;
  vsub : Vector → Vector → Vector;
  vmul : Num → Vector → Vector;
  cross : Vector → Vector → Vector;
  vunit : Vector → Vector;
  vrotate : Vector → Num → Vector → Vector;
  vround : Vector → Vector;
  line : Vector → Vector → list Vector;
  Vector_new : PyVal Vector Num → PyVal Vector Num → PyVal Vector Num →
               Exn + Vector;
  towards_angle : Vector → Vector → Exn + Num;
  distance_to : Vector → Vector → Exn + Num;
  num : Z → Num;
  nadd : Num → Num → Num;
  nsub : Num → Num → Num;
  nopp : Num → Num;
  nmin : Num → Num → Num;
  nmax : Num → Num → Num
}.

(** ** The state-and-exception monad *)

Inductive Outcome (S A : Type) :=
  | Done (a : A) (s : S)
  | Raised (e : Exn) (s : S).
Arguments Done {S A} a s.
Arguments Raised {S A} e s.

Definition M (S A : Type) : Type := S → Outcome S A.

#[global] Instance M_ret {S} : MRet (M S) := fun A a s => Done a s.

#[global] Instance M_bind {S} : MBind (M S) := fun A B k m s =>
  match m s with
  | Done a s' => k a s'
  | Raised e s' => Raised e s'
  end.

Definition raise {S A} (e : Exn) : M S A := fun s => Raised e s.

Definition gets {S A} (f : S → A) : M S A := fun s => Done (f s) s.

Definition modify {S} (f : S → S) : M S unit := fun s => Done tt (f s).

(** The state an outcome ends in, whether it returned or raised. *)
Definition final {S A} (o : Outcome S A) : S :=
  match o with Done _ s => s | Raised _ s => s end.

(** The exception an outcome raised, if any. *)
Definition error {S A} (o : Outcome S A) : option Exn :=
  match o with Done _ _ => None | Raised e _ => Some e end.

Section Picraft.
Context `{G : Geometry}.

(** ** The remote store *)

(** One request per bulk read, and one per [batch_start] bracket holding
    the block writes issued inside it. *)
Inductive Request :=
  | Fetch (ps : gset Vector)
  | Send (d : gmap Vector Block).

(** Modelled from the spec: the remote store behind [World.blocks] and
    [World.connection] ([picraft/block.py] and [picraft/connection.py] are
    not part of the sources).  It holds a block at every coordinate, serves
    bulk reads, and applies the block writes issued inside one batch
    bracket; a request through a dead connection raises and changes
    nothing.  [w_log] records the requests in order. *)
Record World := mkWorld {
  w_blocks : Vector → Block;
  w_online : bool;
  w_log : list Request
}.

Definition world_get (ps : gset Vector) : M World (gmap Vector Block) :=
  fun w =>
    if w_online w
    then Done (set_to_map (fun v => (v, w_blocks w v)) ps)
              (mkWorld (w_blocks w) (w_online w) (w_log w ++ [Fetch ps]))
    else Raised ConnectionError w.

Definition world_set (d : gmap Vector Block) : M World unit :=
  fun w =>
    if w_online w
    then Done tt (mkWorld (fun v => default (w_blocks w v) (d !! v))
                          (w_online w) (w_log w ++ [Send d]))
    else Raised ConnectionError w.


(** The batch brackets sent to the remote store. *)
Definition sends (l : list Request) : list (gmap Vector Block) :=
  omap (fun r => match r with Fetch _ => None | Send d => Some d end) l.


(** ** TurtleCache *)

(** The thread-local [_batch] object carries the attributes [level] and
    [state] together or not at all. *)
Record Batch := mkBatch {
  level : Z;
  state : gmap Vector Block
}.

Record TurtleCache := mkCache {
  _world : World;
  _cache : gmap Vector Block;
  _batch : option Batch
}.

Definition TurtleCache_init (w : World) : TurtleCache :=
  mkCache w ∅ None.

Definition set_world (w : World) (c : TurtleCache) : TurtleCache :=
  mkCache w (_cache c) (_batch c).
Definition set_cache (m : gmap Vector Block) (c : TurtleCache) : TurtleCache :=
  mkCache (_world c) m (_batch c).
Definition set_batch (b : option Batch) (c : TurtleCache) : TurtleCache :=
  mkCache (_world c) (_cache c) b.

(** Run a remote request on the cache's world. *)
Definition on_world {A} (m : M World A) : M TurtleCache A :=
  fun c => match m (_world c) with
           | Done a w => Done a (set_world w c)
           | Raised e w => Raised e (set_world w c)
           end.

(** [dict(zip(positions, blocks))]: later pairs overwrite earlier ones. *)
Definition zip_dict (ps : list Vector) (bs : list Block) : gmap Vector Block :=
  foldl (fun m vb => <[vb.1 := vb.2]> m) ∅ (zip ps bs).

Definition __enter__ : M TurtleCache unit :=
  fun c => match _batch c with
           | Some b => Done tt (set_batch (Some (mkBatch (level b + 1) (state b))) c)
           | None => Done tt (set_batch (Some (mkBatch 1 ∅)) c)
           end.

(** The dictionary comprehension of [__setitem__]: the pairs whose block
    differs from the cached one, looked up with [self._cache[v]]. *)
Fixpoint diff_pairs (cache : gmap Vector Block) (l : list (Vector * Block))
    (acc : gmap Vector Block) : Exn + gmap Vector Block :=
  match l with
  | [] => inr acc
  | (v, b) :: l' =>
      match cache !! v with
      | None => inl KeyError
      | Some b' =>
          diff_pairs cache l' (if decide (b = b') then acc else <[v := b]> acc)
      end
  end.

Definition __setitem__ (ps : list Vector) (bs : list Block) : M TurtleCache unit :=
  fun c => match _batch c with
           | Some b =>
               Done tt (set_batch (Some (mkBatch (level b) (zip_dict ps bs ∪ state b))) c)
           | None =>
               match diff_pairs (_cache c) (zip ps bs) ∅ with
               | inl e => Raised e c
               | inr d =>
                   (on_world (world_set d) ;;
                    modify (fun c' => set_cache (d ∪ _cache c') c')) c
               end
           end.

Definition __exit__ (failed : bool) : M TurtleCache unit :=
  fun c => match _batch c with
           | None => Raised AttributeError c
           | Some b =>
               if decide (level b - 1 = 0)
               then
                 let c' := set_batch None c in
                 if failed then Done tt c'
                 else __setitem__ (map_to_list (state b)).*1
                                  (map_to_list (state b)).*2 c'
               else Done tt (set_batch (Some (mkBatch (level b - 1) (state b))) c)
           end.

(** The dictionary comprehension of [__getitem__]; the default argument
    [self._cache[v]] of [batch.get] is evaluated for every position. *)
Fixpoint read_all (cache batch : gmap Vector Block) (ps : list Vector)
    (acc : gmap Vector Block) : Exn + gmap Vector Block :=
  match ps with
  | [] => inr acc
  | v :: ps' =>
      match cache !! v with
      | None => inl KeyError
      | Some b => read_all cache batch ps' (<[v := default b (batch !! v)]> acc)
      end
  end.

Definition __getitem__ (ps : list Vector) : M TurtleCache (gmap Vector Block) :=
  fun c =>
    let batch := match _batch c with Some b => state b | None => ∅ end in
    let unknown : gset Vector := list_to_set ps ∖ dom (_cache c) ∖ dom batch in
    (fetched ← (if decide (unknown = ∅) then mret ∅
                else on_world (world_get unknown));
     modify (fun c' => set_cache (fetched ∪ _cache c') c');;
     (fun c' => match read_all (_cache c') batch ps ∅ with
                | inl e => Raised e c'
                | inr m => Done m c'
                end) : M TurtleCache _) c.

(** ** TurtleScreen *)

(** [TurtleScreen.draw(state)] is [self.blocks[state.keys()] = state.values()]. *)
Definition draw (st : gmap Vector Block) : M TurtleCache unit :=
  __setitem__ (map_to_list st).*1 (map_to_list st).*2.

(** ** TurtleState *)

Record TurtleState := mkState {
  position : Vector;
  heading : Vector;
  elevation : Num;
  visible : bool;
  pendown : bool;
  penblock : Block;
  fillblock : Block;
  changed : gmap Vector Block;
  action : string
}.

(** [clamp = lambda value, min_value, max_value:
             min(max_value, max(min_value, value))] *)
Definition clamp (value min_value max_value : Num) : Num :=
  nmin max_value (nmax min_value value).

(** [_replace] for the fields the turtle replaces. *)
Definition replace_position (v : Vector) (s : TurtleState) : TurtleState :=
  mkState v (heading s) (elevation s) (visible s) (pendown s)
          (penblock s) (fillblock s) (changed s) (action s).
Definition replace_heading (v : Vector) (s : TurtleState) : TurtleState :=
  mkState (position s) v (elevation s) (visible s) (pendown s)
          (penblock s) (fillblock s) (changed s) (action s).
Definition replace_elevation (a : Num) (s : TurtleState) : TurtleState :=
  mkState (position s) (heading s) a (visible s) (pendown s)
          (penblock s) (fillblock s) (changed s) (action s).
Definition replace_visible (b : bool) (s : TurtleState) : TurtleState :=
  mkState (position s) (heading s) (elevation s) b (pendown s)
          (penblock s) (fillblock s) (changed s) (action s).
Definition replace_pendown (b : bool) (s : TurtleState) : TurtleState :=
  mkState (position s) (heading s) (elevation s) (visible s) b
          (penblock s) (fillblock s) (changed s) (action s).
Definition replace_penblock (b : Block) (s : TurtleState) : TurtleState :=
  mkState (position s) (heading s) (elevation s) (visible s) (pendown s)
          b (fillblock s) (changed s) (action s).
Definition replace_fillblock (b : Block) (s : TurtleState) : TurtleState :=
  mkState (position s) (heading s) (elevation s) (visible s) (pendown s)
          (penblock s) b (changed s) (action s).
Definition replace_changed_action (m : gmap Vector Block) (a : string)
    (s : TurtleState) : TurtleState :=
  mkState (position s) (heading s) (elevation s) (visible s) (pendown s)
          (penblock s) (fillblock s) m a.

(** ** Turtle *)

Record Turtle := mkTurtle {
  _screen : TurtleCache;
  _state : TurtleState;
  _last_position : Vector;
  _history : list TurtleState
}.

Definition set_screen (c : TurtleCache) (t : Turtle) : Turtle :=
  mkTurtle c (_state t) (_last_position t) (_history t).
Definition set_state (s : TurtleState) (t : Turtle) : Turtle :=
  mkTurtle (_screen t) s (_last_position t) (_history t).
Definition set_last_position (v : Vector) (t : Turtle) : Turtle :=
  mkTurtle (_screen t) (_state t) v (_history t).
Definition set_history (h : list TurtleState) (t : Turtle) : Turtle :=
  mkTurtle (_screen t) (_state t) (_last_position t) h.

(** Run a cache method on [self._screen.blocks]. *)
Definition on_screen {A} (m : M TurtleCache A) : M Turtle A :=
  fun t => match m (_screen t) with
           | Done a c => Done a (set_screen c t)
           | Raised e c => Raised e (set_screen c t)
           end.

(** [with self._screen.blocks: body].  [__exit__] runs whether the body
    returned or raised; it returns [None], so an exception of the body
    propagates, unless [__exit__] itself raises. *)
Definition with_blocks {A} (body : M Turtle A) : M Turtle A :=
  fun t =>
    match on_screen __enter__ t with
    | Raised e t1 => Raised e t1
    | Done _ t1 =>
        match body t1 with
        | Done a t2 =>
            match on_screen (__exit__ false) t2 with
            | Done _ t3 => Done a t3
            | Raised e t3 => Raised e t3
            end
        | Raised e t2 =>
            match on_screen (__exit__ true) t2 with
            | Done _ t3 => Raised e t3
            | Raised e' t3 => Raised e' t3
            end
        end
    end.

Definition _commit (changes : gmap Vector Block) (act : string) : M Turtle unit :=
  reverse_diff ← on_screen (__getitem__ (map_to_list changes).*1);
  modify (fun t =>
    set_history (replace_changed_action reverse_diff act (_state t) :: _history t) t);;
  if decide (changes = ∅) then mret tt else on_screen (draw changes).

Definition _draw_vectors (s : TurtleState) : Vector * Vector :=
  let arm_v := vunit (cross (heading s) vY) in
  let arm_v := if decide (arm_v = vO) then vX else arm_v in
  let head_v := vrotate (heading s) (elevation s) arm_v in
  (arm_v, head_v).

(** The dictionary built by [_draw_turtle]; the pen block is stored last. *)
Definition marker (s : TurtleState) : gmap Vector Block :=
  let '(arm_v, head_v) := _draw_vectors s in
  let head := vround (vadd (position s) head_v) in
  let left_arm := vround (vadd (position s) arm_v) in
  let right_arm := vround (vsub (position s) arm_v) in
  let st := <[right_arm := wool15]> (<[left_arm := wool15]> (<[head := wool15]> ∅)) in
  if pendown s then <[position s := penblock s]> st else st.

Definition _draw_turtle : M Turtle unit :=
  s ← gets _state;
  _commit (marker s) "turtle".

(** The loop of [_undraw_turtle].  Drawing leaves the history alone, so
    the list the loop still has to look at is the tail of the one it
    tested. *)
Fixpoint undraw_loop (h : list TurtleState) : M Turtle unit :=
  match h with
  | [] => mret tt
  | e :: h' =>
      if decide (action e = "turtle")
      then modify (set_history h');;
           on_screen (draw (changed e));;
           undraw_loop h'
      else mret tt
  end.

Definition _undraw_turtle : M Turtle unit :=
  with_blocks (h ← gets _history; undraw_loop h).

(** [{v: self._state.penblock for v in line(last, position)}] *)
Definition line_changes (s : TurtleState) (last : Vector) : gmap Vector Block :=
  list_to_map ((fun v => (v, penblock s)) <$> line last (position s)).

Definition _update : M Turtle unit :=
  with_blocks (
    _undraw_turtle;;
    t ← gets id;
    (if decide (pendown (_state t) = true ∧ position (_state t) ≠ _last_position t)
     then _commit (line_changes (_state t) (_last_position t)) "line"
     else _commit ∅ "move");;
    (if visible (_state t) then _draw_turtle else mret tt);;
    modify (fun t' => set_last_position (position (_state t')) t')).

Definition undo : M Turtle unit :=
  with_blocks (
    _undraw_turtle;;
    h ← gets _history;
    match h with
    | [] => raise IndexError
    | e :: h' =>
        if decide (action e ≠ "home")
        then modify (set_history h');;
             on_screen (draw (changed e));;
             match h' with
             | [] => raise IndexError
             | e' :: _ => modify (set_state e')
             end;;
             modify (fun t => set_last_position (position (_state t)) t)
        else mret tt
    end;;
    s ← gets _state;
    if visible s then _draw_turtle else mret tt).

Definition home : M Turtle unit :=
  h ← gets _history;
  match last h with
  | None => raise IndexError
  | Some e0 =>
      modify (fun t => set_state
        (replace_elevation (num 0)
          (replace_heading vZ (replace_position (position e0) (_state t)))) t);;
      _update
  end.

(** The loop of [clear]: [self._history[-1]] raises on an empty list. *)
Fixpoint clear_loop (h : list TurtleState) : M Turtle unit :=
  match h with
  | [] => raise IndexError
  | e :: h' =>
      if decide (action e ≠ "home")
      then modify (set_history h');;
           on_screen (draw (changed e));;
           clear_loop h'
      else mret tt
  end.

Definition clear : M Turtle unit :=
  with_blocks ((h ← gets _history; clear_loop h);; _update).

Definition reset : M Turtle unit :=
  with_blocks (
    clear;;
    h ← gets _history;
    match last h with
    | None => raise IndexError
    | Some e0 => modify (set_last_position (position e0))
    end;;
    home).

(** [x, y, z = x]: a sequence of three items unpacks, another sequence
    raises [ValueError], anything else is not iterable. *)
Definition unpack3 (x : PyVal Vector Num)
    : Exn + (PyVal Vector Num * PyVal Vector Num * PyVal Vector Num) :=
  match x with
  | PySeq [a; b; c] => inr (PyNum a, PyNum b, PyNum c)
  | PySeq _ => inl ValueError
  | _ => inl TypeError
  end.

(** [try: x, y, z = x / except (TypeError, ValueError): pass]: the names
    [x], [y], [z] after the statement. *)
Definition try_unpack (x y z : PyVal Vector Num)
    : PyVal Vector Num * PyVal Vector Num * PyVal Vector Num :=
  match unpack3 x with
  | inr xyz => xyz
  | inl _ => (x, y, z)
  end.

(** The opening lines shared by [goto], [towards], [distance] and
    [teleport]: the point named by the arguments. *)
Definition point_of {S} (x y z : PyVal Vector Num) : M S Vector :=
  match x with
  | PyTurtle p => mret p
  | _ =>
      let '(x', y', z') := try_unpack x y z in
      match Vector_new x' y' z' with
      | inl e => raise e
      | inr other => mret other
      end
  end.

Definition towards (x y z : PyVal Vector Num) : M Turtle Num :=
  other ← point_of x y z;
  s ← gets _state;
  match towards_angle (position s) other with
  | inl e => raise e
  | inr angle => mret angle
  end.

Definition goto (x y z : PyVal Vector Num) : M Turtle unit :=
  other ← point_of x y z;
  modify (fun t => set_state (replace_position other (_state t)) t);;
  _update.

Definition distance (x y z : PyVal Vector Num) : M Turtle Num :=
  other ← point_of x y z;
  s ← gets _state;
  match distance_to (position s) other with
  | inl e => raise e
  | inr d => mret d
  end.

(** An operation that replaces [_state] and calls [_update]. *)
Definition step (f : TurtleState → TurtleState) : M Turtle unit :=
  modify (fun t => set_state (f (_state t)) t);;
  _update.

Definition setelevation (to_angle : Num) : M Turtle unit :=
  step (replace_elevation (clamp to_angle (num (-90)) (num 90))).

Definition setheading (to_angle : Num) : M Turtle unit :=
  step (replace_heading (vrotate vZ to_angle vY)).

Definition forward (d : Num) : M Turtle unit :=
  step (fun s => replace_position
          (vround (vadd (position s) (vmul d (_draw_vectors s).2))) s).

Definition backward (d : Num) : M Turtle unit :=
  step (fun s => replace_position
          (vround (vsub (position s) (vmul d (_draw_vectors s).2))) s).

Definition right (angle : Num) : M Turtle unit :=
  step (fun s => replace_heading (vrotate (heading s) (nopp angle) vY) s).

Definition left (angle : Num) : M Turtle unit :=
  step (fun s => replace_heading (vrotate (heading s) angle vY) s).

Definition down (angle : Num) : M Turtle unit :=
  step (fun s => replace_elevation
          (clamp (nsub (elevation s) angle) (num (-90)) (num 90)) s).

Definition up (angle : Num) : M Turtle unit :=
  step (fun s => replace_elevation
          (clamp (nadd (elevation s) angle) (num (-90)) (num 90)) s).

(** [Turtle.pendown()]; the name [pendown] is the field of [TurtleState],
    so the method goes by its alias [pd]. *)
Definition pd : M Turtle unit := step (replace_pendown true).
Definition penup : M Turtle unit := step (replace_pendown false).
Definition showturtle : M Turtle unit := step (replace_visible true).
Definition hideturtle : M Turtle unit := step (replace_visible false).

(** [penblock(block)] and [fillblock(block)] called with a [Block]. *)
Definition set_penblock (b : Block) : M Turtle unit := step (replace_penblock b).
Definition set_fillblock (b : Block) : M Turtle unit := step (replace_fillblock b).

(** [Turtle.__init__(screen, pos)] with both arguments given. *)
Definition Turtle_init (screen : TurtleCache) (pos : Vector) : Outcome Turtle unit :=
  let s := mkState pos vZ (num 0) true true stone stone ∅ "home" in
  _draw_turtle (mkTurtle screen s pos [s]).

(** ** TurtlePlayer *)

(** [TurtlePlayer.teleport] assigns the point to the player's [pos]; the
    player is a collaborator, kept as its position. *)
Definition teleport (x y z : PyVal Vector Num) : M Vector unit :=
  other ← match x with
          | PyTurtle p => mret (vadd p vY)
          | _ => point_of x y z
          end;
  modify (fun _ => other).

(** ** Operations as data *)

(** The state-changing operations of a turtle, for statements that range
    over all of them. *)
Inductive Op :=
  | OForward (d : Num)
  | OBackward (d : Num)
  | OLeft (a : Num)
  | ORight (a : Num)
  | OUp (a : Num)
  | ODown (a : Num)
  | OGoto (x y z : PyVal Vector Num)
  | OSetheading (a : Num)
  | OSetelevation (a : Num)
  | OPenup
  | OPendown
  | OPenblock (b : Block)
  | OFillblock (b : Block)
  | OShowturtle
  | OHideturtle.

Definition run_op (o : Op) : M Turtle unit :=
  match o with
  | OForward d => forward d
  | OBackward d => backward d
  | OLeft a => left a
  | ORight a => right a
  | OUp a => up a
  | ODown a => down a
  | OGoto x y z => goto x y z
  | OSetheading a => setheading a
  | OSetelevation a => setelevation a
  | OPenup => penup
  | OPendown => pd
  | OPenblock b => set_penblock b
  | OFillblock b => set_fillblock b
  | OShowturtle => showturtle
  | OHideturtle => hideturtle
  end.

(** Every public method that touches the history. *)
Inductive Call :=
  | CStep (o : Op)
  | CUndo
  | CHome
  | CClear
  | CReset.

Definition run_call (c : Call) : M Turtle unit :=
  match c with
  | CStep o => run_op o
  | CUndo => undo
  | CHome => home
  | CClear => clear
  | CReset => reset
  end.

End Picraft.

(** ** A vector collaborator on the integer grid *)

(** Modelled from the spec: [picraft/vector.py] is not part of the sources.
    Coordinates are triples of integers; numbers are integers (whole
    distances, angles in whole degrees).  The orientation operations are
    the ones the spec lists (cross product, rotation about an axis,
    normalisation, rounding); they are exact for headings along an axis
    and angles that are multiples of 90 degrees, where the results are
    integer vectors, and the instance is only evaluated there.  [grid_line]
    is the line rasterisation of the spec: the inclusive sequence of
    integer coordinates on the straight path between two coordinates.  The
    constructor builds a coordinate from three numbers; a triple of
    integers can hold nothing else, so it refuses any other arguments,
    where a constructor that stores what it is given returns (the instance
    [Loose] below).  The instance is used with numbers only. *)
Definition V3 : Type := Z * Z * Z.

Definition grid_add (a b : V3) : V3 :=
  (a.1.1 + b.1.1, a.1.2 + b.1.2, a.2 + b.2).
Definition grid_sub (a b : V3) : V3 :=
  (a.1.1 - b.1.1, a.1.2 - b.1.2, a.2 - b.2).
Definition grid_mul (n : Z) (a : V3) : V3 :=
  (n * a.1.1, n * a.1.2, n * a.2).
Definition grid_dot (a b : V3) : Z :=
  a.1.1 * b.1.1 + a.1.2 * b.1.2 + a.2 * b.2.
Definition grid_cross (a b : V3) : V3 :=
  (a.1.2 * b.2 - a.2 * b.1.2,
   a.2 * b.1.1 - a.1.1 * b.2,
   a.1.1 * b.1.2 - a.1.2 * b.1.1).
Definition grid_unit (a : V3) : V3 :=
  (Z.sgn a.1.1, Z.sgn a.1.2, Z.sgn a.2).

(** Cosine and sine of a whole number of quarter turns. *)
Definition quarter (angle : Z) : Z := (angle `div` 90) `mod` 4.
Definition grid_cos (angle : Z) : Z :=
  match quarter angle with 0 => 1 | 2 => -1 | _ => 0 end.
Definition grid_sin (angle : Z) : Z :=
  match quarter angle with 1 => 1 | 3 => -1 | _ => 0 end.

(** Rodrigues' formula for [v.rotate(angle, about=k)], [k] a unit vector. *)
Definition grid_rotate (v : V3) (angle : Z) (k : V3) : V3 :=
  grid_add (grid_add (grid_mul (grid_cos angle) v)
                     (grid_mul (grid_sin angle) (grid_cross k v)))
           (grid_mul (grid_dot k v * (1 - grid_cos angle)) k).

(** Point [i] of [n] on the segment from [a]: each component moves by
    [i * d / n], rounded to the nearest integer. *)
Definition grid_step (n i : Z) (a d : V3) : V3 :=
  (a.1.1 + (2 * i * d.1.1 + n) `div` (2 * n),
   a.1.2 + (2 * i * d.1.2 + n) `div` (2 * n),
   a.2 + (2 * i * d.2 + n) `div` (2 * n)).

Definition grid_line (a b : V3) : list V3 :=
  let d := grid_sub b a in
  let n := Z.max (Z.max (Z.abs d.1.1) (Z.abs d.1.2)) (Z.abs d.2) in
  if decide (n = 0) then [a]
  else (fun i => grid_step n (Z.of_nat i) a d) <$> seq 0 (S (Z.to_nat n)).

Definition grid_new (x y z : PyVal V3 Z) : Exn + V3 :=
  match x, y, z with
  | PyNum a, PyNum b, PyNum c => inr (a, b, c)
  | _, _, _ => inl TypeError
  end.

(** The straight-line distance, rounded down to a whole number. *)
Definition grid_distance (a b : V3) : Z :=
  let d := grid_sub b a in Z.sqrt (grid_dot d d).

(** The direction of [b] seen from [a] in the X-Z plane, in degrees, for
    the four directions along the axes. *)
Definition grid_towards (a b : V3) : Z :=
  let v := grid_unit (grid_sub b a) in
  match v.1.1, v.2 with
  | 0, -1 => 180
  | 1, _ => -90
  | -1, _ => 90
  | _, _ => 0
  end.

#[global] Instance Grid : Geometry := {|
  Vector := V3;
  Num := Z;
  vO := (0, 0, 0);
  vX := (1, 0, 0);
  vY := (0, 1, 0);
  vZ := (0, 0, 1);
  vadd := grid_add;
  vsub := grid_sub;
  vmul := grid_mul;
  cross := grid_cross;
  vunit := grid_unit;
  vrotate := grid_rotate;
  vround := fun v => v;
  line := grid_line;
  Vector_new := grid_new;
  towards_angle := fun a b => inr (grid_towards a b);
  distance_to := fun a b => inr (grid_distance a b);
  num := fun z => z;
  nadd := Z.add;
  nsub := Z.sub;
  nopp := Z.opp;
  nmin := Z.min;
  nmax := Z.max
|}.

(** A world of air with a live connection, and a fresh cache on it. *)
Definition air : Block := mkBlock "air" 0.
Definition air_world : World := mkWorld (fun _ => air) true [].
Definition offline_world : World := mkWorld (fun _ => air) false [].
Definition fresh_cache : TurtleCache := TurtleCache_init air_world.

(** A turtle spawned at the origin of that world. *)
Definition spawn : Turtle := final (Turtle_init fresh_cache (0, 0, 0)).

(** [forward(5)] from the spawn, and [undo()] after it. *)
Definition forward_five : Turtle := final (forward 5 spawn).
Definition forward_five_undone : Turtle := final (undo forward_five).

(** [penup(); forward(3); pendown(); forward(2)] from the spawn. *)
Definition pen_scenario : Turtle :=
  final ((penup;; forward 3;; pd;; forward 2) spawn).

(** The same calls up to, not including, the last [forward(2)]. *)
Definition pen_scenario_before : Turtle :=
  final ((penup;; forward 3;; pd) spawn).

(** A batch that has written the origin, which was never read. *)
Definition overlay_only : TurtleCache :=
  final ((__enter__;; __setitem__ [(0, 0, 0)] [stone]) fresh_cache).

(** A cache that holds the origin, on a world whose connection is down. *)
Definition offline_cache : TurtleCache :=
  mkCache offline_world {[ (0, 0, 0) := air ]} None.

(** A cache that has read the origin. *)
Definition warm_cache : TurtleCache :=
  final (__getitem__ [(0, 0, 0)] fresh_cache).

(** ** A vector collaborator that stores what it is given *)

(** Modelled from the spec: [picraft/vector.py] is not part of the sources,
    and the spec describes a coordinate as a 3-tuple without naming any
    check in its constructor.  In this instance [Vector(x, y, z)] always
    returns: three numbers give a grid coordinate, anything else gives a
    vector some component of which is not a number, written [None].
    Arithmetic on such a vector raises [TypeError] in Python.  The angle
    and the distance, which [towards] and [distance] compute, do so here.
    The operations that [_update] and the marker use (sum, difference,
    product, rotation, rounding, line) yield such a vector, or no cell,
    where Python raises; the instance is used only where the code calls
    none of them on such a vector: on a hidden turtle with the pen up. *)
Definition loose_lift1 (f : V3 → V3) (a : option V3) : option V3 := f <$> a.

Definition loose_lift2 (f : V3 → V3 → V3) (a b : option V3) : option V3 :=
  match a, b with
  | Some a', Some b' => Some (f a' b')
  | _, _ => None
  end.

Definition loose_line (a b : option V3) : list (option V3) :=
  match a, b with
  | Some a', Some b' => Some <$> grid_line a' b'
  | _, _ => []
  end.

Definition loose_new (x y z : PyVal (option V3) Z) : Exn + option V3 :=
  match x, y, z with
  | PyNum a, PyNum b, PyNum c => inr (Some (a, b, c))
  | _, _, _ => inr None
  end.

Definition loose_measure (f : V3 → V3 → Z) (a b : option V3) : Exn + Z :=
  match b, a with
  | Some b', Some a' => inr (f a' b')
  | _, _ => inl TypeError
  end.

Definition Loose : Geometry := {|
  Vector := option V3;
  Num := Z;
  vO := Some (0, 0, 0);
  vX := Some (1, 0, 0);
  vY := Some (0, 1, 0);
  vZ := Some (0, 0, 1);
  vadd := loose_lift2 grid_add;
  vsub := loose_lift2 grid_sub;
  vmul := fun n => loose_lift1 (grid_mul n);
  cross := loose_lift2 grid_cross;
  vunit := loose_lift1 grid_unit;
  vrotate := fun v a k => loose_lift2 (fun v' k' => grid_rotate v' a k') v k;
  vround := fun v => v;
  line := loose_line;
  Vector_new := loose_new;
  towards_angle := loose_measure grid_towards;
  distance_to := loose_measure grid_distance;
  num := fun z => z;
  nadd := Z.add;
  nsub := Z.sub;
  nopp := Z.opp;
  nmin := Z.min;
  nmax := Z.max
|}.

(** A turtle of that collaborator, spawned at the origin of a world of
    air, with the pen up and hidden. *)
Definition loose_cache : @TurtleCache Loose :=
  @TurtleCache_init Loose (@mkWorld Loose (fun _ => air) true []).

Definition hidden_turtle : @Turtle Loose :=
  final ((@penup Loose;; @hideturtle Loose)
           (final (@Turtle_init Loose loose_cache (Some (0, 0, 0))))).

(** ** What a caller observes of the cache *)

Section Observations.
Context `{G : Geometry}.

(** The uncommitted writes of the open batch, if any. *)
Definition overlay (c : TurtleCache) : gmap Vector Block :=
  match _batch c with Some b => state b | None => ∅ end.

(** The block a read reports at [v]: the batch's, else the cached one,
    else the one the remote store holds. *)
Definition view (c : TurtleCache) (v : Vector) : Block :=
  default (default (w_blocks (_world c) v) (_cache c !! v)) (overlay c !! v).

(** The coordinates a read has to fetch. *)
Definition unknown (c : TurtleCache) (ps : list Vector) : gset Vector :=
  list_to_set ps ∖ dom (_cache c) ∖ dom (overlay c).

(** What a successful bulk read brings into the cache. *)
Definition fetched_blocks (c : TurtleCache) (ps : list Vector) : gmap Vector Block :=
  set_to_map (fun v => (v, w_blocks (_world c) v)) (unknown c ps).

(** The cache holds what the remote store holds. *)
Definition coherent (c : TurtleCache) : Prop :=
  ∀ v b, _cache c !! v = Some b → w_blocks (_world c) v = b.

(** The nesting level of the open batch, 0 when there is none. *)
Definition depth (c : TurtleCache) : Z :=
  match _batch c with Some b => level b | None => 0 end.

(** The connection is up, the cache is coherent, every coordinate
    written in the open batch has been read before, and an open batch has
    been entered at least once. *)
Definition healthy (c : TurtleCache) : Prop :=
  w_online (_world c) = true
  ∧ coherent c
  ∧ dom (overlay c) ⊆ dom (_cache c)
  ∧ match _batch c with Some b => 1 ≤ level b | None => True end.

(** What a thread may do with the cache between entering the outermost
    batch and leaving it without an exception. *)
Inductive Event :=
  | EEnter
  | EExit
  | ESet (ps : list Vector) (bs : list Block)
  | EGet (ps : list Vector).

Definition run_event (e : Event) : M TurtleCache unit :=
  match e with
  | EEnter => __enter__
  | EExit => __exit__ false
  | ESet ps bs => __setitem__ ps bs
  | EGet ps => __getitem__ ps;; mret tt
  end.

Fixpoint run_events (l : list Event) : M TurtleCache unit :=
  match l with
  | [] => mret tt
  | e :: l' => run_event e;; run_events l'
  end.

(** [scope d l]: the depth, counted from inside the outermost scope, at
    which the events [l] end when they start at depth [d]; [None] when they
    leave the outermost scope. *)
Fixpoint scope (d : nat) (l : list Event) : option nat :=
  match l with
  | [] => Some d
  | EEnter :: l' => scope (S d) l'
  | EExit :: l' => match d with O => None | S d' => scope d' l' end
  | _ :: l' => scope d l'
  end.

(** The pairs the events write, in the order they are written. *)
Definition written (l : list Event) : list (Vector * Block) :=
  flat_map (fun e => match e with ESet ps bs => zip ps bs | _ => [] end) l.

(** The net effect of writing pairs in order: the last write to a
    coordinate wins. *)
Definition net_effect (acc : gmap Vector Block) (l : list (Vector * Block))
    : gmap Vector Block :=
  foldl (fun m vb => <[vb.1 := vb.2]> m) acc l.

(** [P] holds wherever [m] ends, returning or raising. *)
Definition always {S A} (P : S → Prop) (m : M S A) : Prop :=
  ∀ s, P s → P (final (m s)).

End Observations.

(** ** The turtles a program can hold *)

Section Reachability.
Context `{G : Geometry}.

(** [e0] is the first entry of the history and is tagged "home". *)
Definition sentinel (e0 : TurtleState) (t : Turtle) : Prop :=
  last (_history t) = Some e0 ∧ action e0 = "home".

(** The turtles reached from a constructor call by public calls, whether
    the calls returned or raised. *)
Inductive reachable : Turtle → Prop :=
  | reachable_init screen pos :
      reachable (final (Turtle_init screen pos))
  | reachable_call t c :
      reachable t → reachable (final (run_call c t)).

(** The block the turtle's screen reports at [v]. *)
Definition tview (t : Turtle) (v : Vector) : Block := view (_screen t) v.

Definition tdepth (t : Turtle) : Z := depth (_screen t).

(** Every coordinate of a reverse diff in the history has been read
    through the cache. *)
Definition history_cached (t : Turtle) : Prop :=
  ∀ e, e ∈ _history t → dom (changed e) ⊆ dom (_cache (_screen t)).

Definition okay (t : Turtle) : Prop :=
  healthy (_screen t) ∧ history_cached t.

(** The two turtles differ at most in what the cache has fetched or
    flushed: same snapshot, same history, same reported blocks. *)
Definition quiet (t t' : Turtle) : Prop :=
  _state t' = _state t
  ∧ _last_position t' = _last_position t
  ∧ _history t' = _history t
  ∧ (∀ v, tview t' v = tview t v)
  ∧ dom (_cache (_screen t)) ⊆ dom (_cache (_screen t'))
  ∧ healthy (_screen t').

(** Position, heading, elevation, the two flags and the two blocks. *)
Definition same_fields (s s' : TurtleState) : Prop :=
  position s = position s'
  ∧ heading s = heading s'
  ∧ elevation s = elevation s'
  ∧ visible s = visible s'
  ∧ pendown s = pendown s'
  ∧ penblock s = penblock s'
  ∧ fillblock s = fillblock s'.

(** The "turtle" entries on top of a history, and what lies below them. *)
Fixpoint turtles (h : list TurtleState) : list TurtleState :=
  match h with
  | [] => []
  | e :: h' => if decide (action e = "turtle") then e :: turtles h' else []
  end.

Fixpoint below (h : list TurtleState) : list TurtleState :=
  match h with
  | [] => []
  | e :: h' => if decide (action e = "turtle") then below h' else h
  end.

(** What [clear] leaves of a history: the entries from the most recent
    "home" entry down. *)
Fixpoint home_suffix (h : list TurtleState) : list TurtleState :=
  match h with
  | [] => []
  | e :: h' => if decide (action e ≠ "home") then home_suffix h' else h
  end.

(** The blocks reported after the reverse diffs of [ts] have been drawn,
    the head of [ts] first. *)
Fixpoint reverted (ts : list TurtleState) (V : Vector → Block) : Vector → Block :=
  match ts with
  | [] => V
  | e :: ts' => reverted ts' (fun v => default (V v) (changed e !! v))
  end.

(** The reverse diff of the changes [ch] when the blocks reported are [V]. *)
Definition snapshot (V : Vector → Block) (ch : gmap Vector Block)
    : gmap Vector Block :=
  map_imap (fun v _ => Some (V v)) ch.

(** The changes [_update] commits for the move, and their tag. *)
Definition moves_with_pen (t : Turtle) : Prop :=
  pendown (_state t) = true ∧ position (_state t) ≠ _last_position t.

Definition update_changes (t : Turtle) : gmap Vector Block :=
  if decide (moves_with_pen t)
  then line_changes (_state t) (_last_position t) else ∅.

Definition update_action (t : Turtle) : string :=
  if decide (moves_with_pen t) then "line" else "move".

(** The blocks reported once the markers on top have been undrawn. *)
Definition base_view (t : Turtle) : Vector → Block :=
  reverted (turtles (_history t)) (tview t).

(** The blocks reported after [_update] has committed the move. *)
Definition moved_view (t : Turtle) (v : Vector) : Block :=
  default (base_view t v) (update_changes t !! v).

(** The entry [_update] pushes for the move. *)
Definition move_entry (t : Turtle) : TurtleState :=
  replace_changed_action (snapshot (base_view t) (update_changes t))
                         (update_action t) (_state t).

(** The entry [_draw_turtle] pushes when the blocks reported are [V]. *)
Definition marker_entry (V : Vector → Block) (s : TurtleState) : TurtleState :=
  replace_changed_action (snapshot V (marker s)) "turtle" s.

Definition marker_part (V : Vector → Block) (s : TurtleState)
    : list TurtleState :=
  if visible s then [marker_entry V s] else [].

(** The blocks reported once a visible turtle has drawn its marker. *)
Definition with_marker (V : Vector → Block) (s : TurtleState) (v : Vector)
    : Block :=
  if visible s then default (V v) (marker s !! v) else V v.

(** What [_update] makes of a turtle. *)
Definition updated (t t' : Turtle) : Prop :=
  _state t' = _state t
  ∧ _last_position t' = position (_state t)
  ∧ _history t' =
      marker_part (moved_view t) (_state t) ++ move_entry t :: below (_history t)
  ∧ (∀ v, tview t' v = with_marker (moved_view t) (_state t) v).

(** What [undo] makes of a turtle whose top entry under the markers is
    [e], which is popped, with [e2] under it. *)
Definition undone (e e2 : TurtleState) (h2 : list TurtleState)
    (t t' : Turtle) : Prop :=
  _state t' = e2
  ∧ _last_position t' = position e2
  ∧ _history t' =
      marker_part (fun v => default (base_view t v) (changed e !! v)) e2
      ++ e2 :: h2
  ∧ (∀ v, tview t' v =
          with_marker (fun v => default (base_view t v) (changed e !! v)) e2 v).

(** What [undo] makes of a turtle with nothing left to undo. *)
Definition redrawn (t t' : Turtle) : Prop :=
  _state t' = _state t
  ∧ _last_position t' = _last_position t
  ∧ _history t' = marker_part (base_view t) (_state t) ++ below (_history t)
  ∧ (∀ v, tview t' v = with_marker (base_view t) (_state t) v).

(** What the history and the screen of a turtle look like after a call:
    below the marker there is no "turtle" entry, the first entry is tagged
    "home", the entry under the marker carries the fields of the current
    snapshot, and a visible turtle has exactly its own marker on top of
    the history and on the screen. *)
Definition shaped (t : Turtle) : Prop :=
  okay t
  ∧ ∃ e h,
      Forall (fun e' => action e' ≠ "turtle") (e :: h)
      ∧ (∃ e0, last (e :: h) = Some e0 ∧ action e0 = "home")
      ∧ same_fields e (_state t)
      ∧ if visible (_state t)
        then ∃ tm, _history t = tm :: e :: h
                   ∧ action tm = "turtle"
                   ∧ dom (changed tm) = dom (marker (_state t))
                   ∧ ∀ v b, marker (_state t) !! v = Some b → tview t v = b
        else _history t = e :: h.

(** A turtle between two calls, in working order: no batch is open, the
    cache is healthy, and history and screen are as a call leaves them. *)
Definition settled (t : Turtle) : Prop :=
  _batch (_screen t) = None ∧ shaped t.

(** The turtles a program reaches, by calls that return, from a
    constructor call on a fresh cache of a world whose connection is up. *)
Inductive working : Turtle → Prop :=
  | working_init w pos t :
      w_online w = true →
      Turtle_init (TurtleCache_init w) pos = Done tt t →
      working t
  | working_call t c t' :
      working t → run_call c t = Done tt t' → working t'.

End Reachability.

(** ** Programs and what they can rely on *)

Section Programs.
Context `{G : Geometry}.

(** [block(b)] called with one [Block]: [penblock(b)], then
    [fillblock(b)]. *)
Definition set_block (b : Block) : M Turtle unit :=
  set_penblock b;; set_fillblock b.

(** A program: public calls one after the other, up to the first that
    raises. *)
Fixpoint run_calls (cs : list Call) : M Turtle unit :=
  match cs with
  | [] => mret tt
  | c :: cs' => run_call c;; run_calls cs'
  end.

(** [undo()] called [n] times. *)
Fixpoint undo_times (n : nat) : M Turtle unit :=
  match n with
  | O => mret tt
  | S n' => undo;; undo_times n'
  end.

(** The snapshot [home()] sets: the position of the first history entry,
    the start heading and no elevation. *)
Definition home_pose (e0 s : TurtleState) : TurtleState :=
  replace_elevation (num 0) (replace_heading vZ (replace_position (position e0) s)).

(** The history is [ms ++ [e0]]: the entry [e0], tagged "home", is the
    first one and the only one with that tag. *)
Definition grounded (e0 : TurtleState) (t : Turtle) : Prop :=
  ∃ ms, _history t = ms ++ [e0]
        ∧ Forall (fun e => action e ≠ "home") ms
        ∧ action e0 = "home".

(** The snapshot and every entry of the history satisfy [Q]. *)
Definition throughout (Q : TurtleState → Prop) (t : Turtle) : Prop :=
  Q (_state t) ∧ Forall Q (_history t).

(** The blocks reported once every reverse diff of the history has been
    drawn back, the most recent first. *)
Definition origin (t : Turtle) (v : Vector) : Block :=
  reverted (_history t) (tview t) v.

(** What a program can rely on between two calls: the turtle is in
    working order, [e0] is the only "home" entry and has no reverse diff,
    the last recorded position is the position, and the history leads
    back to the blocks [V0]. *)
Definition traced (V0 : Vector → Block) (e0 : TurtleState) (t : Turtle) : Prop :=
  shaped t
  ∧ grounded e0 t
  ∧ changed e0 = ∅
  ∧ _last_position t = position (_state t)
  ∧ ∀ v, origin t v = V0 v.

(** [v] is no cell of the marker of [s], if [s] is visible. *)
Definition off_marker (s : TurtleState) (v : Vector) : Prop :=
  visible s = true → marker s !! v = None.

End Programs.

(** An elevation between -90 and 90, with whole numbers for angles. *)
Definition in_range (s : @TurtleState Grid) : Prop :=
  -90 ≤ elevation s ≤ 90.

(** ** picraft.world: the chat console *)










(** A body that reads the origin and writes it three times, once in a
    nested scope. *)
Definition nested_body : list (@Event Grid) :=
  [EGet [(0, 0, 0)]; EEnter; ESet [(0, 0, 0)] [stone]; EExit;
   ESet [(0, 0, 0); (0, 0, 0)] [air; wool15]].

(** A short program: two cells forward, a quarter turn to the left, the
    pen up, one cell forward. *)
Definition sketch : list (@Call Grid) :=
  [CStep (OForward 2); CStep (OLeft 90); CStep OPenup; CStep (OForward 1)].

Definition sketched : Turtle := final (run_calls sketch spawn).

(** The cache that has read the origin, with a batch open. *)
Definition open_batch : TurtleCache := final (__enter__ warm_cache).


(** * Properties of the cache *)

(** Split a conjunction into its parts, without unfolding definitions. *)
Ltac splits := repeat match goal with |- _ ∧ _ => split end.

Section CacheProperties.
Context `{G : Geometry}.
Implicit Types (c : TurtleCache) (w : World) (v : Vector) (b : Block).
Implicit Types (m d acc cache : gmap Vector Block).

(** ** The two dictionary comprehensions *)

Lemma diff_pairs_raises cache l acc :
  (∃ v, v ∈ l.*1 ∧ cache !! v = None) →
  diff_pairs cache l acc = inl KeyError.
Proof.
  revert acc. induction l as [|[v b] l IH]; intros acc [u [Hu Hn]]; simpl in *.
  - by apply elem_of_nil in Hu.
  - destruct (cache !! v) as [b'|] eqn:Hv; [|done].
    apply IH. exists u. split; [|done].
    apply elem_of_cons in Hu as [->|Hu]; [congruence|done].
Qed.

Lemma diff_pairs_returns cache l acc :
  (∀ v, v ∈ l.*1 → is_Some (cache !! v)) →
  ∃ d, diff_pairs cache l acc = inr d.
Proof.
  revert acc. induction l as [|[v b] l IH]; intros acc Hall; simpl in *.
  - eauto.
  - destruct (Hall v) as [b' ->]; [left|].
    apply IH. intros u Hu. apply Hall. by right.
Qed.

Lemma diff_pairs_cached cache l acc d :
  diff_pairs cache l acc = inr d →
  ∀ v, v ∈ l.*1 → is_Some (cache !! v).
Proof.
  revert acc. induction l as [|[v b] l IH]; intros acc Hd u Hu; simpl in *.
  - by apply elem_of_nil in Hu.
  - destruct (cache !! v) as [b'|] eqn:Hv; [|done].
    apply elem_of_cons in Hu as [->|Hu]; [by rewrite Hv|by eapply IH].
Qed.



(** The diff of a dictionary (distinct keys) against the cache. *)
Lemma diff_pairs_nodup cache l acc d :
  NoDup l.*1 →
  (∀ v, v ∈ l.*1 → acc !! v = None) →
  diff_pairs cache l acc = inr d →
  ∀ v, d !! v =
       match acc !! v with
       | Some b => Some b
       | None =>
           match list_to_map (M := gmap Vector Block) l !! v with
           | Some b => if decide (cache !! v = Some b) then None else Some b
           | None => None
           end
       end.
Proof.
  revert acc. induction l as [|[u bu] l IH]; intros acc Hnd Hacc Hd v; simpl in *.
  - injection Hd as <-. rewrite lookup_empty. by destruct (acc !! v).
  - apply NoDup_cons in Hnd as [Hu Hnd].
    destruct (cache !! u) as [b'|] eqn:Hcu; [|done].
    assert (Hlu : list_to_map (M := gmap Vector Block) l !! u = None).
    { by apply not_elem_of_list_to_map_1. }
    assert (Hacc' : ∀ x, x ∈ l.*1 →
              (if decide (bu = b') then acc else <[u:=bu]> acc) !! x = None).
    { intros x Hx. case_decide; [apply Hacc; by right|].
      rewrite lookup_insert_ne; [apply Hacc; by right|]. by intros ->. }
    rewrite (IH _ Hnd Hacc' Hd v).
    destruct (decide (u = v)) as [->|Hne].
    + rewrite lookup_insert_eq, (Hacc v) by left. rewrite Hlu.
      case_decide as Hb.
      * subst. rewrite (Hacc v) by left. by rewrite decide_True.
      * rewrite lookup_insert_eq. rewrite decide_False; [done|]. congruence.
    + rewrite lookup_insert_ne by done.
      case_decide; [done|]. by rewrite lookup_insert_ne.
Qed.

(** ** The monad *)

Lemma bind_done {S A B} (m : M S A) (k : A → M S B) s a s' :
  m s = Done a s' → (m ≫= k) s = k a s'.
Proof. intros H. unfold mbind, M_bind. by rewrite H. Qed.

Lemma bind_raised {S A B} (m : M S A) (k : A → M S B) s e s' :
  m s = Raised e s' → (m ≫= k) s = Raised e s'.
Proof. intros H. unfold mbind, M_bind. by rewrite H. Qed.

Lemma bind_modify {S B} (f : S → S) (k : unit → M S B) x :
  (modify f ≫= k) x = k tt (f x).
Proof. done. Qed.

Lemma bind_gets {S A B} (f : S → A) (k : A → M S B) x :
  (gets f ≫= k) x = k (f x) x.
Proof. done. Qed.

Lemma bind_ret {S A B} (a : A) (k : A → M S B) x :
  (mret a ≫= k) x = k a x.
Proof. done. Qed.

Lemma done_final {S} (o : Outcome S unit) :
  error o = None → o = Done tt (final o).
Proof. by destruct o as [[] x|e x]. Qed.

Lemma raised_final {S A} (o : Outcome S A) e :
  error o = Some e → o = Raised e (final o).
Proof. destruct o; simpl; congruence. Qed.

Lemma always_bind {S A B} (P : S → Prop) (m : M S A) (k : A → M S B) :
  always P m → (∀ a, always P (k a)) → always P (m ≫= k).
Proof.
  intros Hm Hk s Hs. unfold mbind, M_bind.
  specialize (Hm s Hs). destruct (m s) as [a s'|e s']; simpl in *; [|done].
  by apply Hk.
Qed.

Lemma always_ret {S A} (P : S → Prop) (a : A) : always P (mret a : M S A).
Proof. by intros s Hs. Qed.

Lemma always_raise {S A} (P : S → Prop) e : always P (raise e : M S A).
Proof. by intros s Hs. Qed.

Lemma always_gets {S A} (P : S → Prop) (f : S → A) : always P (gets f).
Proof. by intros s Hs. Qed.

Lemma always_modify {S} (P : S → Prop) (f : S → S) :
  (∀ s, P s → P (f s)) → always P (modify f).
Proof. intros Hf s Hs. by apply Hf. Qed.

(** ** Reading *)

Lemma read_all_raises cache batch ps acc :
  (∃ v, v ∈ ps ∧ cache !! v = None) →
  read_all cache batch ps acc = inl KeyError.
Proof.
  revert acc. induction ps as [|u ps IH]; intros acc [v [Hv Hn]]; simpl.
  - by apply elem_of_nil in Hv.
  - destruct (cache !! u) eqn:Hu; [|done].
    apply IH. exists v. split; [|done].
    apply elem_of_cons in Hv as [->|Hv]; [congruence|done].
Qed.

Lemma read_all_returns cache batch ps acc :
  (∀ v, v ∈ ps → is_Some (cache !! v)) →
  ∃ m, read_all cache batch ps acc = inr m ∧
       ∀ v, m !! v =
            if decide (v ∈ ps)
            then (fun b => default b (batch !! v)) <$> cache !! v
            else acc !! v.
Proof.
  revert acc. induction ps as [|u ps IH]; intros acc Hall; cbn [read_all].
  - exists acc. split; [done|]. intros v. case_decide as Hv; [|done].
    by apply elem_of_nil in Hv.
  - destruct (Hall u) as [b Hb]; [left|]. rewrite Hb.
    destruct (IH (<[u:=default b (batch !! u)]> acc)) as [m [Hm Hlook]].
    { intros v Hv. apply Hall. by right. }
    exists m. split; [done|]. intros v. rewrite Hlook.
    destruct (decide (v ∈ ps)) as [Hin|Hnin].
    + case_decide as Hc; [done|]. exfalso. apply Hc. by right.
    + destruct (decide (v = u)) as [->|Hne].
      * case_decide as Hc; [|exfalso; apply Hc; left].
        by rewrite lookup_insert_eq, Hb.
      * rewrite lookup_insert_ne by done. case_decide as Hc; [|done].
        apply elem_of_cons in Hc as [?|?]; done.
Qed.


Lemma getitem_unfold c ps :
  __getitem__ ps c =
  match (if decide (unknown c ps = ∅) then Done ∅ c
         else on_world (world_get (unknown c ps)) c) with
  | Done fetched c1 =>
      match read_all (fetched ∪ _cache c1) (overlay c) ps ∅ with
      | inl e => Raised e (set_cache (fetched ∪ _cache c1) c1)
      | inr m => Done m (set_cache (fetched ∪ _cache c1) c1)
      end
  | Raised e c1 => Raised e c1
  end.
Proof.
  unfold __getitem__, unknown, overlay, mbind, M_bind, modify, mret, M_ret.
  destruct (decide _); [done|].
  by destruct (on_world _ c).
Qed.

Lemma lookup_fetched_blocks c ps v :
  fetched_blocks c ps !! v =
  if decide (v ∈ unknown c ps) then Some (w_blocks (_world c) v) else None.
Proof.
  unfold fetched_blocks. case_decide as Hv.
  - apply lookup_set_to_map; [naive_solver|]. eauto.
  - apply eq_None_not_Some. intros [b Hb].
    apply lookup_set_to_map in Hb as [u [Hu Heq]]; [|naive_solver].
    simplify_eq. done.
Qed.

Lemma unknown_spec c ps v :
  v ∈ unknown c ps ↔ v ∈ ps ∧ _cache c !! v = None ∧ overlay c !! v = None.
Proof.
  unfold unknown. rewrite !elem_of_difference, elem_of_list_to_set.
  rewrite !not_elem_of_dom. tauto.
Qed.


Lemma getitem_spec c ps :
  healthy c →
  ∃ m c',
    __getitem__ ps c = Done m c'
    ∧ _batch c' = _batch c
    ∧ healthy c'
    ∧ w_blocks (_world c') = w_blocks (_world c)
    ∧ w_log (_world c') =
        w_log (_world c) ++
        (if decide (unknown c ps = ∅) then [] else [Fetch (unknown c ps)])
    ∧ _cache c' = fetched_blocks c ps ∪ _cache c
    ∧ (∀ v, view c' v = view c v)
    ∧ (∀ v, m !! v = if decide (v ∈ ps) then Some (view c v) else None)
    ∧ (∀ v, v ∈ ps → v ∈ dom (_cache c')).
Proof.
  intros (Hon & Hcoh & Hov & Hlvl).
  assert (Hlook : ∀ v, (fetched_blocks c ps ∪ _cache c) !! v =
            if decide (v ∈ unknown c ps) then Some (w_blocks (_world c) v)
            else _cache c !! v).
  { intros v. rewrite lookup_union, lookup_fetched_blocks.
    case_decide as Hv.
    - apply unknown_spec in Hv as (_ & -> & _). done.
    - by destruct (_cache c !! v). }
  assert (Hcached : ∀ v, v ∈ ps →
            is_Some ((fetched_blocks c ps ∪ _cache c) !! v)).
  { intros v Hv. rewrite Hlook. case_decide as Hu; [eauto|].
    rewrite unknown_spec in Hu.
    destruct (_cache c !! v) eqn:Hc; [eauto|].
    destruct (overlay c !! v) eqn:Ho; [|tauto].
    assert (v ∈ dom (_cache c)) as Hd by (apply Hov; by apply elem_of_dom).
    apply elem_of_dom in Hd. by rewrite Hc in Hd. }
  destruct (read_all_returns _ (overlay c) ps ∅ Hcached) as [m [Hm Hmv]].
  assert (Hview : ∀ v,
            default (default (w_blocks (_world c) v)
                       ((fetched_blocks c ps ∪ _cache c) !! v)) (overlay c !! v)
            = view c v).
  { intros v. unfold view. rewrite Hlook. case_decide as Hu; [|done].
    apply unknown_spec in Hu as (_ & -> & _). done. }
  assert (Hget : ∀ v, m !! v = if decide (v ∈ ps) then Some (view c v) else None).
  { intros v. rewrite Hmv. case_decide as Hv; [|done].
    rewrite <- Hview. destruct (Hcached v Hv) as [b ->]. simpl.
    by destruct (overlay c !! v). }
  assert (Hcoh' : ∀ v b, (fetched_blocks c ps ∪ _cache c) !! v = Some b →
            w_blocks (_world c) v = b).
  { intros v b. rewrite Hlook. case_decide; [congruence|apply Hcoh]. }
  assert (Hdom : dom (overlay c) ⊆ dom (fetched_blocks c ps ∪ _cache c)).
  { rewrite dom_union. set_solver. }
  rewrite getitem_unfold. case_decide as Hu.
  - assert (Hf : fetched_blocks c ps = ∅).
    { apply map_eq. intros v. rewrite lookup_fetched_blocks, lookup_empty.
      case_decide as Hv; [|done]. rewrite Hu in Hv. set_solver. }
    rewrite Hf in *. rewrite Hm.
    eexists _, _. split; [done|]. simpl.
    rewrite app_nil_r. repeat split; try done.
    intros v Hv. by apply elem_of_dom, Hcached.
  - unfold on_world, world_get. rewrite Hon.
    change (set_to_map _ (unknown c ps)) with (fetched_blocks c ps).
    simpl. rewrite Hm.
    eexists _, _. split; [done|]. simpl. repeat split; try done.
    intros v Hv. by apply elem_of_dom, Hcached.
Qed.


(** ** Writing *)

Lemma foldl_insert_pairs (l : list (Vector * Block)) acc :
  foldl (fun m vb => <[vb.1 := vb.2]> m) acc l = list_to_map (reverse l) ∪ acc.
Proof.
  revert acc. induction l as [|[v b] l IH]; intros acc; simpl.
  - by rewrite (left_id_L ∅ (∪)).
  - rewrite IH, reverse_cons, list_to_map_app. simpl.
    rewrite <- (assoc_L (∪)). f_equal.
    rewrite insert_empty. by rewrite <- insert_union_singleton_l.
Qed.

(** Drawing a dictionary writes the dictionary. *)
Lemma zip_dict_map_to_list m :
  zip_dict (map_to_list m).*1 (map_to_list m).*2 = m.
Proof.
  unfold zip_dict. rewrite zip_fst_snd, foldl_insert_pairs.
  rewrite (right_id_L ∅ (∪)).
  rewrite <- (list_to_map_to_list m) at 2.
  apply list_to_map_proper; [|apply reverse_Permutation].
  rewrite fmap_reverse, reverse_Permutation. apply NoDup_fst_map_to_list.
Qed.

Lemma setitem_batched c (bt : Batch) ps bs :
  _batch c = Some bt →
  __setitem__ ps bs c =
  Done tt (set_batch (Some (mkBatch (level bt) (zip_dict ps bs ∪ state bt))) c).
Proof. intros Hb. unfold __setitem__. by rewrite Hb. Qed.

Lemma setitem_unbatched c ps bs :
  _batch c = None →
  __setitem__ ps bs c =
  match diff_pairs (_cache c) (zip ps bs) ∅ with
  | inl e => Raised e c
  | inr d =>
      if w_online (_world c)
      then Done tt (mkCache
                      (mkWorld (fun v => default (w_blocks (_world c) v) (d !! v))
                               true (w_log (_world c) ++ [Send d]))
                      (d ∪ _cache c) None)
      else Raised ConnectionError c
  end.
Proof.
  intros Hb. unfold __setitem__. rewrite Hb.
  destruct (diff_pairs _ _ _) as [e|d]; [done|].
  unfold mbind, M_bind, on_world, world_set, modify, set_cache, set_world.
  destruct c as [[wb [] wl] ca ba]; simpl in *; by subst.
Qed.

Lemma draw_batched c (bt : Batch) m :
  _batch c = Some bt →
  draw m c = Done tt (set_batch (Some (mkBatch (level bt) (m ∪ state bt))) c).
Proof.
  intros Hb. unfold draw. rewrite (setitem_batched _ _ _ _ Hb).
  by rewrite zip_dict_map_to_list.
Qed.

(** The diff that flushing the dictionary [m] sends. *)
Lemma diff_pairs_dict cache m d :
  diff_pairs cache (zip (map_to_list m).*1 (map_to_list m).*2) ∅ = inr d →
  ∀ v, d !! v =
       match m !! v with
       | Some b => if decide (cache !! v = Some b) then None else Some b
       | None => None
       end.
Proof.
  rewrite zip_fst_snd. intros Hd v.
  rewrite (diff_pairs_nodup _ _ _ _ (NoDup_fst_map_to_list m) (fun _ _ => lookup_empty _) Hd v).
  by rewrite lookup_empty, list_to_map_to_list.
Qed.


Lemma exit_outermost c (bt : Batch) failed :
  _batch c = None → level bt = 1 →
  __exit__ failed (set_batch (Some bt) c) =
  if failed then Done tt c
  else __setitem__ (map_to_list (state bt)).*1 (map_to_list (state bt)).*2 c.
Proof.
  intros Hb Hl. unfold __exit__. simpl. rewrite Hl. simpl.
  destruct c as [w ca ba]; simpl in *; subst. done.
Qed.

Lemma exit_inner c (bt : Batch) failed :
  _batch c = Some bt → level bt ≠ 1 →
  __exit__ failed c = Done tt (set_batch (Some (mkBatch (level bt - 1) (state bt))) c).
Proof.
  intros Hb Hl. unfold __exit__. rewrite Hb.
  rewrite decide_False by lia. done.
Qed.


Lemma sends_app l1 l2 : sends (l1 ++ l2) = sends l1 ++ sends l2.
Proof. unfold sends. apply omap_app. Qed.


(** C10.  A set outside a batch looks every written coordinate up in the
    shared cache: if one of them is not cached the call raises [KeyError]
    and stores nothing; a call that returns had every written coordinate
    cached, and with all of them cached and the connection up it does
    return.  The flush of the outermost [__exit__] is such a set, of the
    batch's keys and values. *)
Theorem setitem_requires_cached c ps bs :
  _batch c = None →
  ((∃ v, v ∈ (zip ps bs).*1 ∧ _cache c !! v = None) →
     __setitem__ ps bs c = Raised KeyError c)
  ∧ (∀ c', __setitem__ ps bs c = Done tt c' →
       ∀ v, v ∈ (zip ps bs).*1 → is_Some (_cache c !! v))
  ∧ ((∀ v, v ∈ (zip ps bs).*1 → is_Some (_cache c !! v)) →
       w_online (_world c) = true →
       ∃ c', __setitem__ ps bs c = Done tt c')
  ∧ (∀ bt : Batch, level bt = 1 →
       __exit__ false (set_batch (Some bt) c) =
       __setitem__ (map_to_list (state bt)).*1 (map_to_list (state bt)).*2 c).
Proof.
  intros Hb. rewrite (setitem_unbatched _ _ _ Hb). repeat split.
  - intros Hex. by rewrite (diff_pairs_raises _ _ _ Hex).
  - intros c' Hdone v Hv.
    destruct (diff_pairs _ _ _) as [e|d] eqn:Hd; [done|].
    by eapply diff_pairs_cached.
  - intros Hall Hon.
    destruct (diff_pairs_returns (_cache c) (zip ps bs) ∅ Hall) as [d ->].
    rewrite Hon. eauto.
  - intros bt Hl. by rewrite (exit_outermost _ _ false Hb Hl).
Qed.



(** ** Batches *)

(** A read changes neither the batch nor what has been sent. *)
Lemma getitem_frame c ps o :
  __getitem__ ps c = o →
  _batch (final o) = _batch c
  ∧ sends (w_log (_world (final o))) = sends (w_log (_world c)).
Proof.
  intros <-. rewrite getitem_unfold. case_decide.
  - destruct (read_all _ _ _ _); simpl; auto.
  - unfold on_world, world_get. destruct (w_online (_world c)); simpl; [|auto].
    destruct (read_all _ _ _ _); simpl; rewrite sends_app, app_nil_r; auto.
Qed.

Lemma zip_dict_net acc ps bs :
  zip_dict ps bs ∪ acc = net_effect acc (zip ps bs).
Proof.
  unfold zip_dict, net_effect. rewrite !foldl_insert_pairs.
  by rewrite (right_id_L ∅ (∪)).
Qed.

Lemma net_effect_app acc l1 l2 :
  net_effect acc (l1 ++ l2) = net_effect (net_effect acc l1) l2.
Proof. apply foldl_app. Qed.

(** Inside the outermost scope nothing is sent, and the batch collects
    the net effect of the writes. *)
Lemma run_events_inside body : ∀ (d d' : nat) c ov c',
  _batch c = Some (mkBatch (1 + Z.of_nat d) ov) →
  scope d body = Some d' →
  run_events body c = Done tt c' →
  _batch c' = Some (mkBatch (1 + Z.of_nat d') (net_effect ov (written body)))
  ∧ sends (w_log (_world c')) = sends (w_log (_world c)).
Proof.
  induction body as [|e body IH]; intros d d' c ov c' Hb Hs Hrun.
  - cbv [run_events mret M_ret] in Hrun. simpl in Hs. by simplify_eq.
  - cbn [run_events] in Hrun. unfold mbind, M_bind in Hrun.
    destruct (run_event e c) as [[] c1|] eqn:He; [|done].
    destruct e as [| |ps bs|ps]; simpl in Hs, He.
    + unfold __enter__ in He. rewrite Hb in He. simplify_eq.
      match type of Hrun with run_events _ ?c1 = _ =>
        assert (Hb' : _batch c1 = Some (mkBatch (1 + Z.of_nat (S d)) ov))
          by (simpl; do 2 f_equal; lia)
      end.
      by destruct (IH _ _ _ _ _ Hb' Hs Hrun) as [-> ->].
    + destruct d as [|d]; [done|].
      rewrite (exit_inner _ _ _ Hb) in He by (simpl; lia). simplify_eq.
      match type of Hrun with run_events _ ?c1 = _ =>
        assert (Hb' : _batch c1 = Some (mkBatch (1 + Z.of_nat d) ov))
          by (simpl; do 2 f_equal; lia)
      end.
      by destruct (IH _ _ _ _ _ Hb' Hs Hrun) as [-> ->].
    + rewrite (setitem_batched _ _ _ _ Hb) in He. simplify_eq.
      match type of Hrun with run_events _ ?c1 = _ =>
        assert (Hb' : _batch c1 =
                  Some (mkBatch (1 + Z.of_nat d) (zip_dict ps bs ∪ ov))) by done
      end.
      destruct (IH _ _ _ _ _ Hb' Hs Hrun) as [-> ->].
      split; [|done]. unfold written. simpl.
      fold (written body). by rewrite net_effect_app, zip_dict_net.
    + unfold mbind, M_bind in He.
      destruct (__getitem__ ps c) as [m c2|] eqn:Hg; [|done].
      apply getitem_frame in Hg as (Hb2 & Hs2). simpl in *.
      cbv [mret M_ret] in He. simplify_eq.
      rewrite <- Hb2 in Hb.
      destruct (IH _ _ _ _ _ Hb Hs Hrun) as [-> ->]. done.
Qed.


(** C3.  A thread that enters the batch scope, runs a well-nested body of
    further entries, exits, writes and reads (so the scope is entered and
    left N times, N - 1 of them in the body), and leaves without an
    exception, sends at most one batch bracket; nothing is sent before the
    outermost exit.  When that exit returns, the one bracket sent is the
    net effect of the writes (the last write to a coordinate wins) less the
    pairs the shared cache already holds, and the shared cache then holds
    the net effect.  A write inside an open batch and an inner exit never
    touch the remote store. *)
Theorem nested_batch_flushes_once c body c1 :
  _batch c = None →
  scope 0 body = Some 0%nat →
  run_events (EEnter :: body) c = Done tt c1 →
  let net := net_effect ∅ (written body) in
  let o := __exit__ false c1 in
  _batch c1 = Some (mkBatch 1 net)
  ∧ sends (w_log (_world c1)) = sends (w_log (_world c))
  ∧ (sends (w_log (_world (final o))) = sends (w_log (_world c))
     ∨ ∃ d, sends (w_log (_world (final o))) = sends (w_log (_world c)) ++ [d])
  ∧ (∀ c2, o = Done tt c2 →
       _batch c2 = None
       ∧ (∃ d, sends (w_log (_world c2)) = sends (w_log (_world c)) ++ [d]
             ∧ ∀ v, d !! v =
                    match net !! v with
                    | Some b =>
                        if decide (_cache c1 !! v = Some b) then None else Some b
                    | None => None
                    end)
       ∧ ∀ v b, net !! v = Some b → _cache c2 !! v = Some b)
  ∧ (∀ c' (bt : Batch) ps bs, _batch c' = Some bt →
       _world (final (__setitem__ ps bs c')) = _world c')
  ∧ (∀ c' (bt : Batch), _batch c' = Some bt → level bt ≠ 1 →
       _world (final (__exit__ false c')) = _world c').
Proof.
  intros Hb Hs Hrun net o.
  cbn [run_events run_event] in Hrun. unfold mbind, M_bind, __enter__ in Hrun.
  rewrite Hb in Hrun.
  match type of Hrun with run_events _ ?c0 = _ =>
    assert (Hb0 : _batch c0 = Some (mkBatch (1 + Z.of_nat 0) ∅)) by done
  end.
  destruct (run_events_inside _ _ _ _ _ _ Hb0 Hs Hrun) as [Hb1 Hs1].
  simpl in Hb1, Hs1. fold net in Hb1.
  split; [done|]. split; [done|].
  assert (Ho : o = __setitem__ (map_to_list net).*1 (map_to_list net).*2
                     (set_batch None c1)).
  { unfold o, __exit__. rewrite Hb1. simpl. done. }
  rewrite Ho, setitem_unbatched by done. simpl.
  destruct (diff_pairs _ _ _) as [e|d] eqn:Hd; simpl.
  { repeat split; try by auto.
    - intros c' bt ps bs Hbt. by rewrite (setitem_batched _ _ _ _ Hbt).
    - intros c' bt Hbt Hl. by rewrite (exit_inner _ _ _ Hbt Hl). }
  destruct (w_online (_world c1)) eqn:Hon; simpl.
  2:{ repeat split; try by auto.
    - intros c' bt ps bs Hbt. by rewrite (setitem_batched _ _ _ _ Hbt).
    - intros c' bt Hbt Hl. by rewrite (exit_inner _ _ _ Hbt Hl). }
  pose proof (diff_pairs_dict _ _ _ Hd) as Hdv.
  rewrite sends_app, Hs1. simpl.
  split; [right; by exists d|]. split.
  - intros c2 Hc2. simplify_eq. simpl. split; [reflexivity|]. split.
    + exists d. rewrite sends_app, Hs1. split; [reflexivity|exact Hdv].
    + intros v b Hv. rewrite lookup_union, Hdv, Hv.
      case_decide as Hc; [by rewrite Hc|by destruct (_cache c1 !! v)].
  - split.
    + intros c' bt ps bs Hbt. by rewrite (setitem_batched _ _ _ _ Hbt).
    + intros c' bt Hbt Hl. by rewrite (exit_inner _ _ _ Hbt Hl).
Qed.

(** C4.  When the outermost scope is left with an exception the batch is
    discarded and neither the shared cache nor the world is touched; when
    a set outside a batch raises, the cache is exactly as before the call;
    and when the flush of the outermost exit raises, the shared cache and
    the world are as they were and the batch is gone. *)
Theorem cache_error_atomicity c :
  (∀ bt : Batch, _batch c = Some bt → level bt = 1 →
     ∃ c', __exit__ true c = Done tt c'
           ∧ _batch c' = None ∧ _cache c' = _cache c ∧ _world c' = _world c)
  ∧ (∀ ps bs e c', _batch c = None →
       __setitem__ ps bs c = Raised e c' → c' = c)
  ∧ (∀ (bt : Batch) e c', _batch c = Some bt →
       __exit__ false c = Raised e c' →
       _batch c' = None ∧ _cache c' = _cache c ∧ _world c' = _world c).
Proof.
  splits.
  - intros bt Hb Hl. unfold __exit__. rewrite Hb, Hl. simpl. eauto.
  - intros ps bs e c' Hb. rewrite (setitem_unbatched _ _ _ Hb).
    destruct (diff_pairs _ _ _); [congruence|].
    destruct (w_online _); congruence.
  - intros bt e c' Hb. unfold __exit__. rewrite Hb. case_decide; [|done].
    rewrite setitem_unbatched by done. simpl.
    destruct (diff_pairs _ _ _); [by intros [= _ <-]|].
    destruct (w_online _); [done|by intros [= _ <-]].
Qed.

(** A coordinate that only the open batch knows makes a read raise: it is
    not fetched, and the default [self._cache[v]] of [batch.get] is still
    looked up. *)
Lemma getitem_overlay_uncached c ps v :
  v ∈ ps → is_Some (overlay c !! v) → _cache c !! v = None →
  w_online (_world c) = true →
  ∃ c', __getitem__ ps c = Raised KeyError c'.
Proof.
  intros Hv Hov Hc Hon.
  assert (Hnone : (fetched_blocks c ps ∪ _cache c) !! v = None).
  { rewrite lookup_union, lookup_fetched_blocks, Hc.
    rewrite decide_False; [done|].
    rewrite unknown_spec. intros (_ & _ & Hn). rewrite Hn in Hov.
    by destruct Hov. }
  rewrite getitem_unfold. case_decide as Hu.
  - assert (Hf : fetched_blocks c ps = ∅).
    { apply map_eq. intros u. rewrite lookup_fetched_blocks, lookup_empty.
      case_decide as Hin; [|done]. rewrite Hu in Hin. set_solver. }
    rewrite Hf in Hnone.
    rewrite (read_all_raises _ _ _ _ (ex_intro _ v (conj Hv Hnone))). eauto.
  - unfold on_world, world_get. rewrite Hon. simpl.
    change (set_to_map _ (unknown c ps)) with (fetched_blocks c ps).
    rewrite (read_all_raises _ _ _ _ (ex_intro _ v (conj Hv Hnone))). eauto.
Qed.


(** ** Healthy caches *)

Lemma view_unbatched c v :
  _batch c = None →
  view c v = default (w_blocks (_world c) v) (_cache c !! v).
Proof. intros Hb. unfold view, overlay. rewrite Hb. by rewrite lookup_empty. Qed.

(** Outside a batch a healthy cache reports what the world holds. *)
Lemma view_world c v :
  healthy c → _batch c = None → view c v = w_blocks (_world c) v.
Proof.
  intros (_ & Hcoh & _) Hb. rewrite view_unbatched by done.
  destruct (_cache c !! v) as [b|] eqn:Hv; [|done]. simpl.
  symmetry. by apply Hcoh.
Qed.

Lemma lookup_union_match m d v :
  (d ∪ m) !! v = match d !! v with Some b => Some b | None => m !! v end.
Proof.
  destruct (d !! v) as [b|] eqn:Hd.
  - apply lookup_union_Some_raw. by left.
  - by apply lookup_union_r.
Qed.

Lemma elem_of_keys m v : v ∈ (map_to_list m).*1 ↔ v ∈ dom m.
Proof.
  rewrite list_elem_of_fmap, elem_of_dom. split.
  - intros [[u b] [-> Hv]]. apply elem_of_map_to_list in Hv. simpl. eauto.
  - intros [b Hb]. exists (v, b). split; [done|]. by apply elem_of_map_to_list.
Qed.

(** A set outside a batch of a dictionary of cached coordinates. *)
Lemma draw_unbatched_spec c m :
  healthy c → _batch c = None → dom m ⊆ dom (_cache c) →
  ∃ c' d,
    draw m c = Done tt c'
    ∧ _batch c' = None
    ∧ healthy c'
    ∧ (∀ v, view c' v = default (view c v) (m !! v))
    ∧ dom (_cache c') = dom (_cache c)
    ∧ w_log (_world c') = w_log (_world c) ++ [Send d].
Proof.
  intros (Hon & Hcoh & Hov & _) Hb Hdom.
  unfold draw. rewrite setitem_unbatched by done.
  destruct (diff_pairs_returns (_cache c)
              (zip (map_to_list m).*1 (map_to_list m).*2) ∅) as [d Hd].
  { rewrite zip_fst_snd. intros v Hv. apply elem_of_dom, Hdom.
    by apply elem_of_keys. }
  rewrite Hd, Hon. pose proof (diff_pairs_dict _ _ _ Hd) as Hdv.
  assert (Hd_dom : dom d ⊆ dom (_cache c)).
  { intros v Hv. apply Hdom. apply elem_of_dom in Hv as [b Hv].
    rewrite Hdv in Hv. apply elem_of_dom. destruct (m !! v); [eauto|done]. }
  eexists _, d. split; [done|]. simpl. split; [done|].
  split; [|split; [|split]].
  - split; [done|]. split; [|split; [|done]].
    + intros v b. simpl. rewrite lookup_union_match.
      destruct (d !! v) as [b'|] eqn:Hdv'; simpl; [congruence|apply Hcoh].
    + unfold overlay. simpl. rewrite dom_empty. apply empty_subseteq.
  - intros v. rewrite view_unbatched by done. rewrite view_unbatched by done.
    simpl. rewrite lookup_union_match, Hdv.
    destruct (m !! v) as [b|] eqn:Hm; simpl; [|done].
    case_decide as Hc; simpl; [by rewrite Hc|done].
  - simpl. rewrite dom_union_L. by apply subseteq_union_1_L.
  - done.
Qed.

(** A set inside a batch of a dictionary of cached coordinates. *)
Lemma draw_batched_spec c (bt : Batch) m :
  healthy c → _batch c = Some bt → dom m ⊆ dom (_cache c) →
  ∃ c',
    draw m c = Done tt c'
    ∧ _batch c' = Some (mkBatch (level bt) (m ∪ state bt))
    ∧ healthy c'
    ∧ (∀ v, view c' v = default (view c v) (m !! v))
    ∧ _cache c' = _cache c
    ∧ _world c' = _world c.
Proof.
  intros (Hon & Hcoh & Hov & Hlvl) Hb Hdom.
  rewrite (draw_batched _ _ _ Hb). eexists. split; [done|]. simpl.
  split; [done|]. split; [|split; [|done]].
  - split; [done|]. split; [done|]. unfold overlay in *. simpl.
    rewrite Hb in Hov, Hlvl. split; [|done].
    rewrite dom_union_L. by apply union_subseteq.
  - intros v. unfold view, overlay. simpl. rewrite Hb, lookup_union_match.
    by destruct (m !! v).
Qed.

Lemma draw_spec c m :
  healthy c → dom m ⊆ dom (_cache c) →
  ∃ c',
    draw m c = Done tt c'
    ∧ depth c' = depth c
    ∧ healthy c'
    ∧ (∀ v, view c' v = default (view c v) (m !! v))
    ∧ dom (_cache c') = dom (_cache c)
    ∧ w_online (_world c') = true.
Proof.
  intros Hh Hdom. destruct (_batch c) as [bt|] eqn:Hb.
  - destruct (draw_batched_spec c bt m Hh Hb Hdom)
      as (c' & Hrun & Hb' & Hh' & Hv & Hc & Hw).
    exists c'. unfold depth. rewrite Hb, Hb', Hc.
    do 5 (split; [done|]). apply Hh'.
  - destruct (draw_unbatched_spec c m Hh Hb Hdom)
      as (c' & d & Hrun & Hb' & Hh' & Hv & Hc & Hw).
    exists c'. unfold depth. rewrite Hb, Hb'.
    do 5 (split; [done|]). apply Hh'.
Qed.

Lemma enter_spec c :
  healthy c →
  ∃ c',
    __enter__ c = Done tt c'
    ∧ depth c' = depth c + 1
    ∧ healthy c'
    ∧ (∀ v, view c' v = view c v)
    ∧ _cache c' = _cache c
    ∧ _world c' = _world c.
Proof.
  intros (Hon & Hcoh & Hov & Hlvl). unfold __enter__, depth.
  destruct (_batch c) as [bt|] eqn:Hb; eexists; (split; [done|]); simpl.
  - split; [done|]. split; [|split; [|done]].
    + unfold healthy, coherent, overlay in *. simpl. rewrite Hb in Hov.
      split; [done|]. split; [done|]. split; [done|]. lia.
    + intros v. unfold view, overlay. simpl. by rewrite Hb.
  - split; [done|]. split; [|split; [|done]].
    + unfold healthy, coherent, overlay. simpl.
      split; [done|]. split; [done|]. split; [|done].
      rewrite dom_empty. apply empty_subseteq.
    + intros v. unfold view, overlay. simpl. by rewrite Hb.
Qed.

Lemma exit_spec c :
  healthy c → 1 ≤ depth c →
  ∃ c',
    __exit__ false c = Done tt c'
    ∧ depth c' = depth c - 1
    ∧ healthy c'
    ∧ (∀ v, view c' v = view c v)
    ∧ dom (_cache c') = dom (_cache c).
Proof.
  intros Hh Hd. pose proof Hh as (Hon & Hcoh & Hov & Hlvl).
  unfold depth in Hd. destruct (_batch c) as [bt|] eqn:Hb; [|lia].
  destruct (decide (level bt = 1)) as [Hl|Hl].
  - set (c0 := set_batch None c).
    assert (Hh0 : healthy c0).
    { unfold healthy, coherent, overlay. simpl.
      split; [done|]. split; [done|]. split; [|done].
      rewrite dom_empty. apply empty_subseteq. }
    assert (Hdom : dom (state bt) ⊆ dom (_cache c0)).
    { unfold overlay in Hov. by rewrite Hb in Hov. }
    destruct (draw_unbatched_spec c0 (state bt) Hh0 eq_refl Hdom)
      as (c' & d & Hrun & Hb' & Hh' & Hv & Hc & Hw).
    exists c'. unfold __exit__. rewrite Hb, Hl. simpl.
    split; [exact Hrun|]. unfold depth. rewrite Hb, Hb', Hl.
    split; [done|]. split; [done|]. split; [|done].
    intros v. rewrite Hv. unfold view at 2. unfold overlay. rewrite Hb.
    rewrite view_unbatched by done. simpl. done.
  - rewrite (exit_inner _ _ _ Hb Hl). eexists. split; [done|].
    unfold depth. rewrite Hb. simpl. split; [done|].
    split; [|split; [|done]].
    + unfold healthy, coherent, overlay in *. simpl. rewrite Hb in Hov.
      split; [done|]. split; [done|]. split; [done|]. lia.
    + intros v. unfold view, overlay. simpl. by rewrite Hb.
Qed.

End CacheProperties.

(** * Properties of the turtle *)

Section TurtleProperties.
Context `{G : Geometry}.
Implicit Types (c : TurtleCache) (t : Turtle) (s e : TurtleState).
Implicit Types (h : list TurtleState) (v : Vector) (b : Block).
Implicit Types (m ch : gmap Vector Block).


(** ** Running on a healthy screen *)

Lemma on_screen_done {A} (m : M TurtleCache A) t a c' :
  m (_screen t) = Done a c' → on_screen m t = Done a (set_screen c' t).
Proof. intros H. unfold on_screen. by rewrite H. Qed.

Lemma quiet_trans t1 t2 t3 : quiet t1 t2 → quiet t2 t3 → quiet t1 t3.
Proof.
  intros (Hs & Hl & Hh & Hv & Hd & _) (Hs' & Hl' & Hh' & Hv' & Hd' & Hok).
  split; [congruence|]. split; [congruence|]. split; [congruence|].
  split; [intros v; by rewrite Hv', Hv|]. split; [by etrans|done].
Qed.

Lemma quiet_history_cached t t' :
  quiet t t' → history_cached t → history_cached t'.
Proof.
  intros (_ & _ & Hh & _ & Hd & _) Hc e He. rewrite Hh in He.
  etrans; [by apply Hc|done].
Qed.

Lemma quiet_okay t t' : quiet t t' → okay t → okay t'.
Proof.
  intros Hq [_ Hc]. split; [apply Hq|by eapply quiet_history_cached].
Qed.

Lemma lookup_snapshot V ch v :
  snapshot V ch !! v = if decide (v ∈ dom ch) then Some (V v) else None.
Proof.
  unfold snapshot. rewrite map_lookup_imap. case_decide as Hv.
  - apply elem_of_dom in Hv as [b ->]. done.
  - apply not_elem_of_dom in Hv. by rewrite Hv.
Qed.

Lemma dom_snapshot V ch : dom (snapshot V ch) = dom ch.
Proof.
  apply set_eq. intros v. rewrite !elem_of_dom, lookup_snapshot.
  case_decide as Hv.
  - apply elem_of_dom in Hv. split; eauto.
  - split; [by intros []|]. intros Hs. by apply elem_of_dom in Hs.
Qed.

Lemma snapshot_ext V V' ch :
  (∀ v, V v = V' v) → snapshot V ch = snapshot V' ch.
Proof.
  intros HV. apply map_eq. intros v. rewrite !lookup_snapshot.
  by rewrite HV.
Qed.

Lemma reverted_ext ts : ∀ V V',
  (∀ v, V v = V' v) → ∀ v, reverted ts V v = reverted ts V' v.
Proof.
  induction ts as [|e ts IH]; intros V V' HV v; simpl; [done|].
  apply IH. intros u. by rewrite HV.
Qed.

(** Drawing a reverse diff undoes the changes it was taken for. *)
Lemma revert_snapshot V ch v :
  default (default (V v) (ch !! v)) (snapshot V ch !! v) = V v.
Proof.
  rewrite lookup_snapshot. case_decide as Hv; [done|].
  apply not_elem_of_dom in Hv. by rewrite Hv.
Qed.

Lemma commit_spec t ch act :
  okay t →
  ∃ t',
    _commit ch act t = Done tt t'
    ∧ _state t' = _state t
    ∧ _last_position t' = _last_position t
    ∧ _history t' =
        replace_changed_action (snapshot (tview t) ch) act (_state t) :: _history t
    ∧ okay t'
    ∧ tdepth t' = tdepth t
    ∧ (∀ v, tview t' v = default (tview t v) (ch !! v))
    ∧ dom (_cache (_screen t)) ⊆ dom (_cache (_screen t')).
Proof.
  intros [Hh Hc].
  destruct (getitem_spec (_screen t) (map_to_list ch).*1 Hh)
    as (m & c1 & Hget & Hb1 & Hh1 & _ & _ & Hc1 & Hv1 & Hm & Hps).
  assert (Hsnap : m = snapshot (tview t) ch).
  { apply map_eq. intros v. rewrite Hm, lookup_snapshot.
    case_decide as Hv.
    - apply elem_of_keys in Hv. by rewrite decide_True.
    - rewrite elem_of_keys in Hv. by rewrite decide_False. }
  assert (Hdom1 : dom (_cache (_screen t)) ⊆ dom (_cache c1)).
  { rewrite Hc1, dom_union_L. apply union_subseteq_r. }
  assert (Hch : dom ch ⊆ dom (_cache c1)).
  { intros v Hv. apply Hps. by apply elem_of_keys. }
  assert (Hd1 : depth c1 = tdepth t).
  { unfold tdepth, depth. by rewrite Hb1. }
  unfold _commit. rewrite (bind_done _ _ _ _ _ (on_screen_done _ _ _ _ Hget)).
  rewrite bind_modify. simpl. subst m.
  set (e := replace_changed_action _ _ _).
  case_decide as Hempty.
  - eexists. split; [done|]. simpl. splits; try done.
    + split; [done|]. intros e' [->|He']%elem_of_cons; simpl.
      * rewrite dom_snapshot. done.
      * etrans; [by apply Hc|done].
    + intros v. unfold tview. simpl. rewrite Hv1. subst ch.
      by rewrite lookup_empty.
  - destruct (draw_spec c1 ch Hh1 Hch) as (c2 & Hdraw & Hd2 & Hh2 & Hv2 & Hc2 & _).
    assert (Hdraw' : on_screen (draw ch)
              (set_history (e :: _history t) (set_screen c1 t)) =
            Done tt (set_screen c2 (set_history (e :: _history t) (set_screen c1 t)))).
    { by apply on_screen_done. }
    rewrite Hdraw'. eexists. split; [done|]. simpl. splits; try done.
    + split; [done|]. intros e' [->|He']%elem_of_cons; simpl; rewrite Hc2.
      * by rewrite dom_snapshot.
      * etrans; [by apply Hc|done].
    + unfold tdepth in *. simpl. congruence.
    + intros v. unfold tview. simpl. by rewrite Hv2, Hv1.
    + by rewrite Hc2.
Qed.


Lemma depth_nonneg c : healthy c → 0 ≤ depth c.
Proof.
  intros (_ & _ & _ & Hl). unfold depth. destruct (_batch c); lia.
Qed.

Lemma quiet_set_screen t c :
  healthy c →
  (∀ v, view c v = view (_screen t) v) →
  dom (_cache (_screen t)) ⊆ dom (_cache c) →
  quiet t (set_screen c t).
Proof. intros Hh Hv Hd. by splits. Qed.

(** A [with] block on a healthy screen: the body runs one level deeper,
    and entering and leaving change nothing that a caller can observe. *)
Lemma with_blocks_spec {A} (body : M Turtle A) t
    (R : Turtle → A → Turtle → Prop) :
  okay t →
  (∀ t1, quiet t t1 → tdepth t1 = tdepth t + 1 → okay t1 →
     ∃ a t2, body t1 = Done a t2
             ∧ okay t2 ∧ tdepth t2 = tdepth t1 ∧ R t1 a t2) →
  ∃ a t1 t2 t3,
    with_blocks body t = Done a t3
    ∧ quiet t t1 ∧ R t1 a t2 ∧ quiet t2 t3
    ∧ tdepth t3 = tdepth t ∧ okay t3.
Proof.
  intros [Hh Hc] Hbody.
  destruct (enter_spec _ Hh) as (c1 & Hent & Hd1 & Hh1 & Hv1 & Hc1 & _).
  assert (Hq1 : quiet t (set_screen c1 t)).
  { apply quiet_set_screen; [done..|]. by rewrite Hc1. }
  destruct (Hbody (set_screen c1 t) Hq1 Hd1)
    as (a & t2 & Hrun & [Hh2 Hc2] & Hd2 & HR).
  { by eapply quiet_okay. }
  destruct (exit_spec (_screen t2)) as (c3 & Hex & Hd3 & Hh3 & Hv3 & Hc3);
    [done| |].
  { pose proof (depth_nonneg _ Hh) as Hn. unfold tdepth in *. simpl in *. lia. }
  assert (Hq3 : quiet t2 (set_screen c3 t2)).
  { apply quiet_set_screen; [done..|]. by rewrite Hc3. }
  exists a, (set_screen c1 t), t2, (set_screen c3 t2).
  split.
  { unfold with_blocks. rewrite (on_screen_done _ _ _ _ Hent), Hrun.
    by rewrite (on_screen_done _ _ _ _ Hex). }
  splits; try done.
  - unfold tdepth in *. simpl in *. lia.
  - eapply quiet_okay; [exact Hq3|done].
Qed.

Lemma undraw_loop_spec h : ∀ t,
  _history t = h → okay t →
  ∃ t',
    undraw_loop h t = Done tt t'
    ∧ _state t' = _state t
    ∧ _last_position t' = _last_position t
    ∧ _history t' = below h
    ∧ okay t'
    ∧ tdepth t' = tdepth t
    ∧ (∀ v, tview t' v = reverted (turtles h) (tview t) v)
    ∧ dom (_cache (_screen t')) = dom (_cache (_screen t)).
Proof.
  induction h as [|e h IH]; intros t Hh [Hok Hc].
  { exists t. by splits. }
  cbn [undraw_loop turtles below]. case_decide as Ha.
  2:{ exists t. by splits. }
  rewrite bind_modify.
  destruct (draw_spec (_screen t) (changed e) Hok)
    as (c1 & Hdraw & Hd1 & Hh1 & Hv1 & Hc1 & _).
  { apply Hc. rewrite Hh. left. }
  set (t0 := set_history h t).
  assert (Hdraw' : on_screen (draw (changed e)) t0 = Done tt (set_screen c1 t0)).
  { by apply on_screen_done. }
  rewrite (bind_done _ _ _ _ _ Hdraw').
  destruct (IH (set_screen c1 t0)) as (t' & Hrun & Hs & Hl & Hh' & Hok' & Hd' & Hv' & Hc');
    [done| |].
  { split; [done|]. intros e' He'. simpl in *. rewrite Hc1.
    apply Hc. rewrite Hh. by right. }
  exists t'. split; [done|]. splits; try done.
  - rewrite Hd'. unfold tdepth. simpl. done.
  - intros v. rewrite Hv'. simpl. apply reverted_ext.
    intros u. unfold tview. simpl. apply Hv1.
  - rewrite Hc'. simpl. done.
Qed.

Lemma undraw_turtle_spec t :
  okay t →
  ∃ t',
    _undraw_turtle t = Done tt t'
    ∧ _state t' = _state t
    ∧ _last_position t' = _last_position t
    ∧ _history t' = below (_history t)
    ∧ okay t'
    ∧ tdepth t' = tdepth t
    ∧ (∀ v, tview t' v = reverted (turtles (_history t)) (tview t) v)
    ∧ dom (_cache (_screen t)) ⊆ dom (_cache (_screen t')).
Proof.
  intros Hok.
  destruct (with_blocks_spec (h ← gets _history; undraw_loop h) t
    (fun t1 _ t2 =>
       _state t2 = _state t1
       ∧ _last_position t2 = _last_position t1
       ∧ _history t2 = below (_history t1)
       ∧ (∀ v, tview t2 v = reverted (turtles (_history t1)) (tview t1) v)
       ∧ dom (_cache (_screen t2)) = dom (_cache (_screen t1))) Hok)
    as ([] & t1 & t2 & t3 & Hrun & Hq1 & HR & Hq3 & Hd3 & Hok3).
  { intros t1 Hq Hd Hok1. rewrite bind_gets.
    destruct (undraw_loop_spec _ t1 eq_refl Hok1)
      as (t2 & Hrun & Hs & Hl & Hh & Hok2 & Hd2 & Hv & Hc).
    exists tt, t2. by splits. }
  destruct Hq1 as (Hs1 & Hl1 & Hh1 & Hv1 & Hc1 & _).
  destruct HR as (Hs2 & Hl2 & Hh2 & Hv2 & Hc2).
  destruct Hq3 as (Hs3 & Hl3 & Hh3 & Hv3 & Hc3 & _).
  exists t3. split; [done|]. splits; try congruence.
  - intros v. rewrite Hv3, Hv2, Hh1. by apply reverted_ext.
  - etrans; [exact Hc1|]. rewrite <- Hc2. done.
Qed.


Lemma with_marker_ext V V' s :
  (∀ v, V v = V' v) → ∀ v, with_marker V s v = with_marker V' s v.
Proof. intros HV v. unfold with_marker. by rewrite HV. Qed.

Lemma marker_part_ext V V' s :
  (∀ v, V v = V' v) → marker_part V s = marker_part V' s.
Proof.
  intros HV. unfold marker_part, marker_entry.
  by rewrite (snapshot_ext _ _ _ HV).
Qed.

Lemma base_view_quiet t t' : quiet t t' → ∀ v, base_view t' v = base_view t v.
Proof.
  intros (_ & _ & Hh & Hv & _) v. unfold base_view. rewrite Hh.
  by apply reverted_ext.
Qed.

(** The last step of [_update] and of [undo]: a visible turtle draws its
    marker. *)
Lemma draw_if_visible_spec t :
  okay t →
  ∃ t',
    (if visible (_state t) then _draw_turtle else mret tt) t = Done tt t'
    ∧ _state t' = _state t
    ∧ _last_position t' = _last_position t
    ∧ _history t' = marker_part (tview t) (_state t) ++ _history t
    ∧ okay t'
    ∧ tdepth t' = tdepth t
    ∧ (∀ v, tview t' v = with_marker (tview t) (_state t) v)
    ∧ dom (_cache (_screen t)) ⊆ dom (_cache (_screen t')).
Proof.
  intros Hok. unfold marker_part, with_marker.
  destruct (visible (_state t)).
  - unfold _draw_turtle. rewrite bind_gets.
    destruct (commit_spec t (marker (_state t)) "turtle" Hok)
      as (t' & Hrun & Hs & Hl & Hh & Hok' & Hd & Hv & Hc).
    exists t'. by splits.
  - exists t. by splits.
Qed.

Lemma update_spec t :
  okay t →
  ∃ t',
    _update t = Done tt t'
    ∧ updated t t'
    ∧ okay t'
    ∧ tdepth t' = tdepth t
    ∧ dom (_cache (_screen t)) ⊆ dom (_cache (_screen t')).
Proof.
  intros Hok. unfold _update.
  match goal with |- ∃ t', with_blocks ?body t = _ ∧ _ =>
    destruct (with_blocks_spec body t
      (fun t1 _ t2 => updated t1 t2
                      ∧ dom (_cache (_screen t1)) ⊆ dom (_cache (_screen t2)))
      Hok) as ([] & t1 & t2 & t3 & Hrun & Hq1 & [HR HRc] & Hq3 & Hd3 & Hok3)
  end.
  { intros t1 Hq Hd Hok1.
    destruct (undraw_turtle_spec t1 Hok1)
      as (ta & Hrun_a & Hs_a & Hl_a & Hh_a & Hok_a & Hd_a & Hv_a & Hc_a).
    rewrite (bind_done _ _ _ _ _ Hrun_a), bind_gets. unfold id.
    destruct (commit_spec ta (update_changes t1) (update_action t1) Hok_a)
      as (tb & Hrun_b & Hs_b & Hl_b & Hh_b & Hok_b & Hd_b & Hv_b & Hc_b).
    assert (Hcommit :
      (if decide (pendown (_state ta) = true
                  ∧ position (_state ta) ≠ _last_position ta)
       then _commit (line_changes (_state ta) (_last_position ta)) "line"
       else _commit ∅ "move") ta = Done tt tb).
    { rewrite <- Hrun_b. unfold update_changes, update_action, moves_with_pen.
      rewrite Hs_a, Hl_a. by case_decide. }
    rewrite (bind_done _ _ _ _ _ Hcommit).
    destruct (draw_if_visible_spec tb Hok_b)
      as (tc & Hrun_c & Hs_c & Hl_c & Hh_c & Hok_c & Hd_c & Hv_c & Hc_c).
    assert (Hvis : (if visible (_state ta) then _draw_turtle else mret tt) tb
                   = Done tt tc) by (by rewrite <- Hs_b).
    rewrite (bind_done _ _ _ _ _ Hvis).
    assert (Hbase : ∀ v, tview tb v = moved_view t1 v).
    { intros v. rewrite Hv_b. unfold moved_view, base_view. by rewrite Hv_a. }
    eexists tt, _. split; [done|]. splits.
    - exact Hok_c.
    - unfold tdepth in *. simpl. congruence.
    - unfold updated. splits.
      + simpl. congruence.
      + simpl. congruence.
      + simpl. rewrite Hh_c, Hh_b, Hh_a, Hs_b, Hs_a.
        rewrite (marker_part_ext _ _ _ Hbase). unfold move_entry, base_view.
        by rewrite (snapshot_ext _ _ _ Hv_a).
      + intros v. unfold tview. simpl. fold (tview tc v).
        rewrite Hv_c, Hs_b, Hs_a. by apply with_marker_ext.
    - simpl. etrans; [exact Hc_a|]. etrans; [exact Hc_b|done]. }
  pose proof Hq1 as (Hs1 & Hl1 & Hh1 & Hv1 & Hc1 & _).
  destruct HR as (Hs2 & Hl2 & Hh2 & Hv2).
  pose proof Hq3 as (Hs3 & Hl3 & Hh3 & Hv3 & Hc3 & _).
  assert (Hch : update_changes t1 = update_changes t).
  { unfold update_changes, moves_with_pen. by rewrite Hs1, Hl1. }
  assert (Hact : update_action t1 = update_action t).
  { unfold update_action, moves_with_pen. by rewrite Hs1, Hl1. }
  assert (Hmv : ∀ v, moved_view t1 v = moved_view t v).
  { intros v. unfold moved_view. by rewrite Hch, (base_view_quiet _ _ Hq1). }
  exists t3. split; [done|]. splits; try done.
  - unfold updated. splits; try congruence.
    + rewrite Hh3, Hh2, Hs1, Hh1. rewrite (marker_part_ext _ _ _ Hmv).
      unfold move_entry. rewrite Hch, Hact, Hs1.
      by rewrite (snapshot_ext _ _ _ (base_view_quiet _ _ Hq1)).
    + intros v. rewrite Hv3, Hv2, Hs1. by apply with_marker_ext.
  - etrans; [exact Hc1|]. etrans; [exact HRc|done].
Qed.


Lemma undo_pop_spec t e e2 h2 :
  okay t →
  below (_history t) = e :: e2 :: h2 →
  action e ≠ "home" →
  ∃ t',
    undo t = Done tt t'
    ∧ undone e e2 h2 t t'
    ∧ okay t'
    ∧ tdepth t' = tdepth t
    ∧ dom (_cache (_screen t)) ⊆ dom (_cache (_screen t')).
Proof.
  intros Hok Hbelow Hne. unfold undo.
  match goal with |- ∃ t', with_blocks ?body t = _ ∧ _ =>
    destruct (with_blocks_spec body t
      (fun t1 _ t2 => undone e e2 h2 t1 t2
                      ∧ dom (_cache (_screen t1)) ⊆ dom (_cache (_screen t2)))
      Hok) as ([] & t1 & t2 & t3 & Hrun & Hq1 & [HR HRc] & Hq3 & Hd3 & Hok3)
  end.
  { intros t1 Hq Hd Hok1.
    assert (Hbelow1 : below (_history t1) = e :: e2 :: h2).
    { destruct Hq as (_ & _ & -> & _). done. }
    destruct (undraw_turtle_spec t1 Hok1)
      as (ta & Hrun_a & Hs_a & Hl_a & Hh_a & [Hh_ok Hc_ok] & Hd_a & Hv_a & Hc_a).
    rewrite (bind_done _ _ _ _ _ Hrun_a), bind_gets.
    rewrite Hh_a, Hbelow1. rewrite decide_True by done.
    destruct (draw_spec (_screen ta) (changed e) Hh_ok)
      as (c1 & Hdraw & Hd1 & Hh1 & Hv1 & Hc1 & _).
    { apply Hc_ok. rewrite Hh_a, Hbelow1. left. }
    set (tp := set_history (e2 :: h2) ta).
    assert (Hdraw' : on_screen (draw (changed e)) tp = Done tt (set_screen c1 tp)).
    { by apply on_screen_done. }
    set (tq := set_last_position (position e2)
                 (set_state e2 (set_screen c1 tp))).
    assert (Hok_q : okay tq).
    { split; [done|]. intros e' He'. simpl in *. rewrite Hc1.
      apply Hc_ok. rewrite Hh_a, Hbelow1. by right. }
    destruct (draw_if_visible_spec tq Hok_q)
      as (tc & Hrun_c & Hs_c & Hl_c & Hh_c & Hok_c & Hd_c & Hv_c & Hc_c).
    assert (Hq_view : ∀ v, tview tq v = default (base_view t1 v) (changed e !! v)).
    { intros v. unfold tview. simpl. rewrite Hv1. fold (tview ta v).
      by rewrite Hv_a. }
    exists tt, tc. split.
    { unfold mbind, M_bind, modify, gets. fold tp. rewrite Hdraw'. simpl.
      exact Hrun_c. }
    splits; [done| | |].
    - rewrite Hd_c. unfold tdepth in *. simpl. congruence.
    - unfold undone. splits; try done.
      + rewrite Hh_c. simpl. by rewrite (marker_part_ext _ _ _ Hq_view).
      + intros v. rewrite Hv_c. simpl. by apply with_marker_ext.
    - etrans; [exact Hc_a|]. etrans; [|exact Hc_c]. simpl. by rewrite Hc1. }
  pose proof Hq1 as (Hs1 & Hl1 & Hh1 & Hv1 & Hc1 & _).
  destruct HR as (Hs2 & Hl2 & Hh2 & Hv2).
  pose proof Hq3 as (Hs3 & Hl3 & Hh3 & Hv3 & Hc3 & _).
  assert (Hbv : ∀ v, default (base_view t1 v) (changed e !! v)
                     = default (base_view t v) (changed e !! v)).
  { intros v. by rewrite (base_view_quiet _ _ Hq1). }
  exists t3. split; [done|]. splits; try done.
  - unfold undone. splits; try congruence.
    + rewrite Hh3, Hh2. by rewrite (marker_part_ext _ _ _ Hbv).
    + intros v. rewrite Hv3, Hv2. by apply with_marker_ext.
  - etrans; [exact Hc1|]. etrans; [exact HRc|done].
Qed.

Lemma undo_home_spec t e h' :
  okay t →
  below (_history t) = e :: h' →
  action e = "home" →
  ∃ t',
    undo t = Done tt t'
    ∧ redrawn t t'
    ∧ okay t'
    ∧ tdepth t' = tdepth t
    ∧ dom (_cache (_screen t)) ⊆ dom (_cache (_screen t')).
Proof.
  intros Hok Hbelow Hhome. unfold undo.
  match goal with |- ∃ t', with_blocks ?body t = _ ∧ _ =>
    destruct (with_blocks_spec body t
      (fun t1 _ t2 => redrawn t1 t2
                      ∧ dom (_cache (_screen t1)) ⊆ dom (_cache (_screen t2)))
      Hok) as ([] & t1 & t2 & t3 & Hrun & Hq1 & [HR HRc] & Hq3 & Hd3 & Hok3)
  end.
  { intros t1 Hq Hd Hok1.
    assert (Hbelow1 : below (_history t1) = e :: h').
    { destruct Hq as (_ & _ & -> & _). done. }
    destruct (undraw_turtle_spec t1 Hok1)
      as (ta & Hrun_a & Hs_a & Hl_a & Hh_a & Hok_a & Hd_a & Hv_a & Hc_a).
    rewrite (bind_done _ _ _ _ _ Hrun_a), bind_gets.
    rewrite Hh_a, Hbelow1. rewrite decide_False by (by intros []).
    rewrite bind_ret, bind_gets.
    destruct (draw_if_visible_spec ta Hok_a)
      as (tc & Hrun_c & Hs_c & Hl_c & Hh_c & Hok_c & Hd_c & Hv_c & Hc_c).
    exists tt, tc. split; [done|]. splits; [done|congruence| |by etrans].
    unfold redrawn. splits; try congruence.
    + rewrite Hh_c, Hs_a, Hh_a. by rewrite (marker_part_ext _ _ _ Hv_a).
    + intros v. rewrite Hv_c, Hs_a. by apply with_marker_ext. }
  pose proof Hq1 as (Hs1 & Hl1 & Hh1 & Hv1 & Hc1 & _).
  destruct HR as (Hs2 & Hl2 & Hh2 & Hv2).
  pose proof Hq3 as (Hs3 & Hl3 & Hh3 & Hv3 & Hc3 & _).
  exists t3. split; [done|]. splits; try done.
  - unfold redrawn. splits; try congruence.
    + rewrite Hh3, Hh2, Hs1, Hh1.
      by rewrite (marker_part_ext _ _ _ (base_view_quiet _ _ Hq1)).
    + intros v. rewrite Hv3, Hv2, Hs1.
      apply with_marker_ext. by apply base_view_quiet.
  - etrans; [exact Hc1|]. etrans; [exact HRc|done].
Qed.


(** ** Undo *)

Lemma depth0_unbatched c : healthy c → depth c = 0 → _batch c = None.
Proof.
  intros (_ & _ & _ & Hl). unfold depth. destruct (_batch c); [lia|done].
Qed.

Lemma same_fields_refl s : same_fields s s.
Proof. by splits. Qed.

Lemma same_fields_marker s s' : same_fields s s' → marker s = marker s'.
Proof.
  intros (Hp & Hh & He & _ & Hd & Hb & _).
  unfold marker, _draw_vectors. by rewrite Hp, Hh, He, Hd, Hb.
Qed.

Lemma turtles_marker_part V s e h :
  action e ≠ "turtle" →
  turtles (marker_part V s ++ e :: h) = marker_part V s
  ∧ below (marker_part V s ++ e :: h) = e :: h.
Proof.
  intros Ha. unfold marker_part. destruct (visible s); simpl.
  - by rewrite !decide_False.
  - by rewrite !decide_False.
Qed.

(** Undrawing the marker that was just drawn. *)
Lemma reverted_marker_part V s v :
  reverted (marker_part V s) (with_marker V s) v = V v.
Proof.
  unfold marker_part, with_marker. destruct (visible s); simpl; [|done].
  rewrite lookup_snapshot. case_decide as Hv; [done|].
  apply not_elem_of_dom in Hv. by rewrite Hv.
Qed.

Lemma update_action_cases t :
  update_action t ≠ "turtle" ∧ update_action t ≠ "home".
Proof. unfold update_action. by case_decide. Qed.

Lemma shaped_intro t e h :
  okay t →
  Forall (fun e' => action e' ≠ "turtle") (e :: h) →
  (∃ e0, last (e :: h) = Some e0 ∧ action e0 = "home") →
  same_fields e (_state t) →
  ∀ V, _history t = marker_part V (_state t) ++ e :: h →
       (∀ v, tview t v = with_marker V (_state t) v) →
       shaped t.
Proof.
  intros Hok Hall Hlast Hf V Hh Hv. split; [done|].
  exists e, h. split; [done|]. split; [done|]. split; [done|].
  unfold marker_part, with_marker in *.
  destruct (visible (_state t)); [|done].
  eexists. split; [done|]. simpl. split; [done|].
  split; [apply dom_snapshot|]. intros v b Hm. by rewrite Hv, Hm.
Qed.

(** The blocks under a settled turtle's marker, with the marker drawn
    again, are the blocks the screen reports. *)
Lemma settled_base_view t e h :
  action e ≠ "turtle" →
  (if visible (_state t)
   then ∃ tm, _history t = tm :: e :: h
              ∧ action tm = "turtle"
              ∧ dom (changed tm) = dom (marker (_state t))
              ∧ ∀ v b, marker (_state t) !! v = Some b → tview t v = b
   else _history t = e :: h) →
  below (_history t) = e :: h
  ∧ ∀ v, with_marker (base_view t) (_state t) v = tview t v.
Proof.
  intros Ha Hshape. unfold with_marker, base_view.
  destruct (visible (_state t)).
  - destruct Hshape as (tm & -> & Htm & Hdom & Hview). simpl.
    rewrite !decide_True by done. rewrite !decide_False by done.
    split; [done|]. intros v.
    rewrite decide_True by done. rewrite decide_False by done. simpl.
    destruct (marker (_state t) !! v) as [b|] eqn:Hm; simpl.
    + symmetry. by apply Hview.
    + apply not_elem_of_dom in Hm. rewrite <- Hdom in Hm.
      apply not_elem_of_dom in Hm. by rewrite Hm.
  - rewrite Hshape. simpl. rewrite decide_False by done.
    split; [done|]. intros v. by rewrite decide_False.
Qed.

(** An operation that replaces the snapshot and updates, followed by
    [undo]. *)
Lemma step_then_undo t f :
  settled t →
  ∃ t1 t2,
    step f t = Done tt t1
    ∧ undo t1 = Done tt t2
    ∧ same_fields (_state t2) (_state t)
    ∧ (∀ v, tview t2 v = tview t v)
    ∧ (∀ v, w_blocks (_world (_screen t2)) v = w_blocks (_world (_screen t)) v)
    ∧ settled t1
    ∧ settled t2.
Proof.
  intros (Hb & Hok & e & h & Hall & Hlast & Hf & Hshape).
  assert (Ha : action e ≠ "turtle") by (by inversion Hall).
  destruct (settled_base_view t e h Ha Hshape) as [Hbelow Hbase].
  set (ts := set_state (f (_state t)) t).
  assert (Hok_s : okay ts) by exact Hok.
  destruct (update_spec ts Hok_s) as (t1 & Hrun1 & Hup & Hok1 & Hd1 & Hc1).
  destruct Hup as (Hs1 & Hl1 & Hh1 & Hv1).
  destruct (update_action_cases ts) as [Hnt Hnh].
  assert (Hme : action (move_entry ts) = update_action ts) by done.
  change (_history ts) with (_history t) in Hh1. rewrite Hbelow in Hh1.
  destruct (turtles_marker_part (moved_view ts) (_state ts) (move_entry ts)
              (e :: h)) as [Htur1 Hbel1]; [by rewrite Hme|].
  rewrite <- Hh1 in Htur1, Hbel1.
  destruct (undo_pop_spec t1 (move_entry ts) e h Hok1 Hbel1)
    as (t2 & Hrun2 & Hun & Hok2 & Hd2 & Hc2); [by rewrite Hme|].
  destruct Hun as (Hs2 & Hl2 & Hh2 & Hv2).
  assert (Hdepth : tdepth t = 0) by (unfold tdepth, depth; by rewrite Hb).
  assert (Hb1 : _batch (_screen t1) = None).
  { apply depth0_unbatched; [apply Hok1|]. unfold tdepth in *. simpl in *. lia. }
  assert (Hb2 : _batch (_screen t2) = None).
  { apply depth0_unbatched; [apply Hok2|]. unfold tdepth in *. simpl in *. lia. }
  assert (Hbv1 : ∀ v, base_view t1 v = moved_view ts v).
  { intros v. unfold base_view. rewrite Htur1.
    rewrite (reverted_ext _ _ _ Hv1). apply reverted_marker_part. }
  assert (Hback : ∀ v,
            default (base_view t1 v) (changed (move_entry ts) !! v) = base_view t v).
  { intros v. rewrite Hbv1. unfold moved_view. simpl.
    apply (revert_snapshot (base_view ts)). }
  assert (Hview2 : ∀ v, tview t2 v = tview t v).
  { intros v. rewrite Hv2, (with_marker_ext _ _ _ Hback), <- Hbase.
    unfold with_marker. rewrite (same_fields_marker e (_state t) Hf).
    by destruct Hf as (_ & _ & _ & -> & _). }
  exists t1, t2. split; [exact Hrun1|]. split; [done|].
  split; [by rewrite Hs2|]. split; [done|]. splits.
  - intros v.
    rewrite <- (view_world (_screen t2) v) by (done || apply Hok2).
    rewrite <- (view_world (_screen t) v) by (done || apply Hok).
    apply Hview2.
  - split; [done|].
    apply (shaped_intro t1 (move_entry ts) (e :: h)) with
      (V := moved_view ts); try done.
    + constructor; [by rewrite Hme|done].
    + rewrite Hs1. by splits.
    + by rewrite Hs1.
    + intros v. by rewrite Hs1.
  - split; [done|].
    apply (shaped_intro t2 e h) with
      (V := fun v => default (base_view t1 v) (changed (move_entry ts) !! v));
      try done.
    + rewrite Hs2. apply same_fields_refl.
    + by rewrite Hs2.
    + intros v. by rewrite Hs2.
Qed.

Lemma healthy_init w : w_online w = true → healthy (TurtleCache_init w).
Proof.
  intros Hon. unfold healthy, coherent, overlay. simpl.
  split; [done|]. split; [by intros v b; rewrite lookup_empty|].
  split; [|done]. rewrite dom_empty. apply empty_subseteq.
Qed.

(** A turtle constructed on a fresh cache of a reachable world is in
    working order. *)
Lemma settled_init w pos :
  w_online w = true →
  ∃ t, Turtle_init (TurtleCache_init w) pos = Done tt t ∧ settled t.
Proof.
  intros Hon. unfold Turtle_init.
  set (s := mkState pos vZ (num 0) true true stone stone ∅ "home").
  set (t0 := mkTurtle (TurtleCache_init w) s pos [s]).
  assert (Hok : okay t0).
  { split; [by apply healthy_init|].
    intros e ->%list_elem_of_singleton. simpl. rewrite dom_empty.
    apply empty_subseteq. }
  unfold _draw_turtle. rewrite bind_gets.
  destruct (commit_spec t0 (marker (_state t0)) "turtle" Hok)
    as (t & Hrun & Hs & Hl & Hh & Hok' & Hd & Hv & Hc).
  exists t. split; [done|]. split.
  { apply depth0_unbatched; [apply Hok'|]. unfold tdepth in Hd. by rewrite Hd. }
  apply (shaped_intro t s []) with (V := tview t0).
  - done.
  - by repeat constructor.
  - by exists s.
  - rewrite Hs. apply same_fields_refl.
  - by rewrite Hh, Hs.
  - intros v. by rewrite Hv, Hs.
Qed.

(** The history a constructor call leaves: the "home" entry, which is
    the snapshot, under one marker. *)
Lemma spawn_history w pos :
  w_online w = true →
  ∃ t tm,
    Turtle_init (TurtleCache_init w) pos = Done tt t
    ∧ _history t = [tm; _state t]
    ∧ action tm = "turtle"
    ∧ action (_state t) = "home".
Proof.
  intros Hon. unfold Turtle_init.
  set (s := mkState pos vZ (num 0) true true stone stone ∅ "home").
  set (t0 := mkTurtle (TurtleCache_init w) s pos [s]).
  assert (Hok : okay t0).
  { split; [by apply healthy_init|].
    intros e ->%list_elem_of_singleton. simpl. rewrite dom_empty.
    apply empty_subseteq. }
  unfold _draw_turtle. rewrite bind_gets.
  destruct (commit_spec t0 (marker (_state t0)) "turtle" Hok)
    as (t & Hrun & Hs & Hl & Hh & _).
  exists t. eexists. split; [done|]. rewrite Hh, Hs. by splits.
Qed.

Lemma point_of_cases {S} x y z (st : S) :
  (∃ other, point_of x y z st = Done other st)
  ∨ (∃ err : Exn, point_of x y z st = Raised err st).
Proof.
  unfold point_of. destruct x; try (left; by eexists);
    destruct (try_unpack _ _ _) as [[x' y'] z'];
    destruct (Vector_new _ _ _); (left; by eexists) || (right; by eexists).
Qed.

(** C1.  In a settled turtle, which is what every working turtle is
    ([working_settled]), every state-changing operation followed by [undo]
    returns, and restores the position, heading, elevation, the pen-down
    and visible flags and the pen and fill blocks, and every cell: the
    screen reports, and the world holds, the blocks it held before the
    operation.  The only operation that can raise is [goto] with an
    argument that names no point, and it changes nothing. *)
Theorem undo_after_op t o :
  settled t →
  match run_op o t with
  | Done _ t1 =>
      ∃ t2,
        undo t1 = Done tt t2
        ∧ same_fields (_state t2) (_state t)
        ∧ (∀ v, tview t2 v = tview t v)
        ∧ (∀ v, w_blocks (_world (_screen t2)) v
                = w_blocks (_world (_screen t)) v)
        ∧ settled t2
  | Raised _ t1 => t1 = t ∧ ∃ x y z, o = OGoto x y z
  end.
Proof.
  intros Hset.
  assert (Hstep : ∀ f,
    match step f t with
    | Done _ t1 =>
        ∃ t2,
          undo t1 = Done tt t2
          ∧ same_fields (_state t2) (_state t)
          ∧ (∀ v, tview t2 v = tview t v)
          ∧ (∀ v, w_blocks (_world (_screen t2)) v
                  = w_blocks (_world (_screen t)) v)
          ∧ settled t2
    | Raised _ t1 => False
    end).
  { intros f.
    destruct (step_then_undo t f Hset)
      as (t1 & t2 & -> & Hundo & Hf & Hv & Hw & _ & Hset2).
    exists t2. by splits. }
  destruct o; simpl;
    try (match goal with |- context [?m t] =>
           let H := fresh in
           pose proof (Hstep _ : match m t with Done _ _ => _ | Raised _ _ => _ end) as H;
           destruct (m t); [exact H|destruct H]
         end).
  unfold goto.
  destruct (point_of_cases x y z t) as [[other Hp]|[err Hp]].
  - rewrite (bind_done _ _ _ _ _ Hp).
    specialize (Hstep (replace_position other)).
    match goal with |- match ?m with Done _ _ => _ | Raised _ _ => _ end =>
      change m with (step (replace_position other) t)
    end.
    destruct (step _ t); [exact Hstep|destruct Hstep].
  - rewrite (bind_raised _ _ _ _ _ Hp). split; [done|]. by exists x, y, z.
Qed.

(** C7.  With only "turtle" entries above the "home" sentinel, [undo] on a
    turtle whose screen is healthy and whose history has been read through
    the cache (as it is for every working turtle) returns without an error
    and leaves the snapshot, the last position, the sentinel and the number
    of entries that are not tagged "turtle" as they were. *)
Theorem undo_underflow t ts e0 :
  okay t →
  _history t = ts ++ [e0] →
  Forall (fun e => action e = "turtle") ts →
  action e0 = "home" →
  ∃ t',
    undo t = Done tt t'
    ∧ _state t' = _state t
    ∧ _last_position t' = _last_position t
    ∧ last (_history t') = Some e0
    ∧ length (filter (fun e => action e ≠ "turtle") (_history t'))
      = length (filter (fun e => action e ≠ "turtle") (_history t)).
Proof.
  intros Hok Hh Hts Hhome.
  assert (Hbelow : below (_history t) = [e0]).
  { rewrite Hh. clear Hh. induction Hts as [|e ts He _ IH]; simpl.
    - rewrite decide_False; [done|]. by rewrite Hhome.
    - by rewrite decide_True. }
  assert (Hcount : ∀ l : list TurtleState,
            Forall (fun e => action e = "turtle") l →
            filter (fun e => action e ≠ "turtle") (l ++ [e0]) = [e0]).
  { induction 1 as [|e l He _ IH]; simpl.
    - rewrite filter_cons_True; [done|]. by rewrite Hhome.
    - rewrite filter_cons_False; [done|]. intros Hne. by apply Hne. }
  destruct (undo_home_spec t e0 [] Hok Hbelow Hhome)
    as (t' & Hrun & (Hs & Hl & Hh' & Hv) & _).
  exists t'. split; [done|]. split; [done|]. split; [done|].
  rewrite Hh', Hbelow. split; [by rewrite last_snoc|].
  rewrite Hh, !Hcount; [done..|].
  unfold marker_part. destruct (visible _); by repeat constructor.
Qed.


(** ** Every call leaves the turtle in working order *)

Lemma shaped_quiet t t' : quiet t t' → shaped t → shaped t'.
Proof.
  intros Hq (Hok & e & h & Hall & Hlast & Hf & Hshape).
  pose proof Hq as (Hs & _ & Hh & Hv & _).
  split; [by eapply quiet_okay|]. exists e, h. rewrite Hs, Hh.
  do 3 (split; [done|]).
  destruct (visible (_state t)); [|done].
  destruct Hshape as (tm & ? & ? & ? & Hview). exists tm. splits; try done.
  intros v b Hm. rewrite Hv. by apply Hview.
Qed.

Lemma shaped_below t :
  shaped t →
  ∃ e h,
    below (_history t) = e :: h
    ∧ Forall (fun e' => action e' ≠ "turtle") (e :: h)
    ∧ (∃ e0, last (e :: h) = Some e0 ∧ action e0 = "home")
    ∧ same_fields e (_state t)
    ∧ (∀ v, with_marker (base_view t) (_state t) v = tview t v)
    ∧ last (_history t) = last (e :: h).
Proof.
  intros (Hok & e & h & Hall & Hlast & Hf & Hshape).
  assert (Ha : action e ≠ "turtle") by (by inversion Hall).
  destruct (settled_base_view t e h Ha Hshape) as [Hbelow Hbase].
  exists e, h. splits; try done.
  destruct (visible (_state t)).
  - destruct Hshape as (tm & -> & _). by rewrite last_cons_cons.
  - by rewrite Hshape.
Qed.

Lemma update_shaped t e h :
  okay t →
  below (_history t) = e :: h →
  Forall (fun e' => action e' ≠ "turtle") (e :: h) →
  (∃ e0, last (e :: h) = Some e0 ∧ action e0 = "home") →
  ∃ t',
    _update t = Done tt t'
    ∧ shaped t'
    ∧ tdepth t' = tdepth t
    ∧ _state t' = _state t
    ∧ _last_position t' = position (_state t).
Proof.
  intros Hok Hbel Hall [e0 [Hlast Hhome]].
  destruct (update_spec t Hok)
    as (t' & Hrun & (Hs & Hl & Hh & Hv) & Hok' & Hd & _).
  exists t'. splits; try done.
  apply (shaped_intro t' (move_entry t) (e :: h)) with (V := moved_view t).
  - done.
  - constructor; [apply update_action_cases|done].
  - exists e0. by rewrite last_cons_cons.
  - rewrite Hs. by splits.
  - by rewrite Hh, Hbel, Hs.
  - intros v. by rewrite Hv, Hs.
Qed.

Lemma step_shaped t f :
  shaped t →
  ∃ t', step f t = Done tt t' ∧ shaped t' ∧ tdepth t' = tdepth t.
Proof.
  intros Hsh. pose proof Hsh as [Hok _].
  destruct (shaped_below t Hsh) as (e & h & Hbel & Hall & Hlast & _).
  destruct (update_shaped (set_state (f (_state t)) t) e h Hok Hbel Hall Hlast)
    as (t' & Hrun & Hsh' & Hd & _).
  exists t'. by splits.
Qed.

Lemma undo_shaped t :
  shaped t →
  ∃ t', undo t = Done tt t' ∧ shaped t' ∧ tdepth t' = tdepth t.
Proof.
  intros Hsh. pose proof Hsh as [Hok _].
  destruct (shaped_below t Hsh)
    as (e & h & Hbel & Hall & [e0 [Hlast Hhome]] & Hf & Hbase & _).
  destruct (decide (action e = "home")) as [Ha|Ha].
  - destruct (undo_home_spec t e h Hok Hbel Ha)
      as (t' & Hrun & (Hs & Hl & Hh & Hv) & Hok' & Hd & _).
    exists t'. splits; try done.
    apply (shaped_intro t' e h) with (V := base_view t); try done.
    + by exists e0.
    + by rewrite Hs.
    + by rewrite Hh, Hbel, Hs.
    + intros v. by rewrite Hv, Hs.
  - destruct h as [|e2 h2].
    { simpl in Hlast. congruence. }
    destruct (undo_pop_spec t e e2 h2 Hok Hbel Ha)
      as (t' & Hrun & (Hs & Hl & Hh & Hv) & Hok' & Hd & _).
    exists t'. splits; try done.
    apply (shaped_intro t' e2 h2) with
      (V := fun v => default (base_view t v) (changed e !! v)); try done.
    + by inversion Hall.
    + exists e0. by rewrite last_cons_cons in Hlast.
    + rewrite Hs. apply same_fields_refl.
    + by rewrite Hh, Hs.
    + intros v. by rewrite Hv, Hs.
Qed.

Lemma home_shaped t :
  shaped t →
  ∃ t', home t = Done tt t' ∧ shaped t' ∧ tdepth t' = tdepth t.
Proof.
  intros Hsh. pose proof Hsh as [Hok _].
  destruct (shaped_below t Hsh)
    as (e & h & Hbel & Hall & [e0 [Hlast Hhome]] & _ & _ & Hl).
  unfold home. rewrite bind_gets, Hl, Hlast, bind_modify.
  match goal with |- ∃ t', _update ?ts = _ ∧ _ =>
    destruct (update_shaped ts e h Hok Hbel Hall) as (t' & Hrun & Hsh' & Hd & _)
  end.
  { by exists e0. }
  exists t'. by splits.
Qed.

Lemma home_suffix_Forall (P : TurtleState → Prop) h :
  Forall P h → Forall P (home_suffix h).
Proof.
  induction 1 as [|e h He Hh IH]; simpl; [done|].
  case_decide; [done|]. by constructor.
Qed.

Lemma home_suffix_last h e0 :
  last h = Some e0 → action e0 = "home" →
  ∃ e h', home_suffix h = e :: h'
          ∧ action e = "home" ∧ last (e :: h') = Some e0.
Proof.
  intros Hlast Hhome. induction h as [|e h IH]; [done|]. simpl.
  case_decide as Ha.
  - destruct h as [|e' h]; [simpl in Hlast; congruence|].
    rewrite last_cons_cons in Hlast. by apply IH.
  - exists e, h. by splits.
Qed.

Lemma home_suffix_below h : home_suffix h = home_suffix (below h).
Proof.
  induction h as [|e h IH]; simpl; [done|].
  destruct (decide (action e = "turtle")) as [Ha|Ha]; [|done].
  rewrite decide_True; [done|]. by rewrite Ha.
Qed.

Lemma clear_loop_spec h : ∀ t,
  _history t = h → okay t →
  (∃ e0, last h = Some e0 ∧ action e0 = "home") →
  ∃ t',
    clear_loop h t = Done tt t'
    ∧ _state t' = _state t
    ∧ _last_position t' = _last_position t
    ∧ _history t' = home_suffix h
    ∧ okay t'
    ∧ tdepth t' = tdepth t.
Proof.
  induction h as [|e h IH]; intros t Hh [Hok Hc] [e0 [Hlast Hhome]]; [done|].
  cbn [clear_loop home_suffix]. case_decide as Ha.
  2:{ exists t. by splits. }
  rewrite bind_modify.
  destruct (draw_spec (_screen t) (changed e) Hok)
    as (c1 & Hdraw & Hd1 & Hh1 & Hv1 & Hc1 & _).
  { apply Hc. rewrite Hh. left. }
  set (t0 := set_history h t).
  assert (Hdraw' : on_screen (draw (changed e)) t0 = Done tt (set_screen c1 t0)).
  { by apply on_screen_done. }
  rewrite (bind_done _ _ _ _ _ Hdraw').
  destruct (IH (set_screen c1 t0)) as (t' & Hrun & Hs & Hl & Hh' & Hok' & Hd');
    [done| | |].
  { split; [done|]. intros e' He'. simpl in *. rewrite Hc1.
    apply Hc. rewrite Hh. by right. }
  { exists e0. split; [|done]. destruct h as [|e' h]; [simpl in Hlast; congruence|].
    by rewrite last_cons_cons in Hlast. }
  exists t'. split; [done|]. splits; try done.
  rewrite Hd'. unfold tdepth. simpl. done.
Qed.

Lemma clear_shaped t :
  shaped t →
  ∃ t', clear t = Done tt t' ∧ shaped t' ∧ tdepth t' = tdepth t.
Proof.
  intros Hsh. pose proof Hsh as [Hok _]. unfold clear.
  match goal with |- ∃ t', with_blocks ?body t = _ ∧ _ =>
    destruct (with_blocks_spec body t (fun _ _ t2 => shaped t2) Hok)
      as ([] & t1 & t2 & t3 & Hrun & Hq1 & HR & Hq3 & Hd3 & Hok3)
  end.
  { intros t1 Hq Hd Hok1.
    pose proof (shaped_quiet _ _ Hq Hsh) as Hsh1.
    destruct (shaped_below t1 Hsh1)
      as (e & h & Hbel & Hall & [e0 [Hlast Hhome]] & _ & _ & Hl).
    destruct (clear_loop_spec (_history t1) t1 eq_refl Hok1)
      as (ta & Hrun_a & Hs_a & Hl_a & Hh_a & Hok_a & Hd_a).
    { exists e0. by rewrite Hl. }
    destruct (home_suffix_last (_history t1) e0) as (e' & h' & Hsuf & Ha' & Hlast');
      [by rewrite Hl|done|].
    assert (Hall' : Forall (fun e' => action e' ≠ "turtle") (e' :: h')).
    { rewrite <- Hsuf, home_suffix_below, Hbel. by apply home_suffix_Forall. }
    destruct (update_shaped ta e' h' Hok_a) as (tb & Hrun_b & Hsh_b & Hd_b & _);
      [|done|by exists e0|].
    { rewrite Hh_a, Hsuf. simpl. rewrite decide_False; [done|]. by rewrite Ha'. }
    assert (Hinner : (h0 ← gets _history; clear_loop h0) t1 = Done tt ta).
    { by rewrite bind_gets. }
    exists tt, tb. split.
    { by rewrite (bind_done _ _ _ _ _ Hinner). }
    splits; try done; [apply Hsh_b|congruence]. }
  exists t3. split; [done|]. split; [by eapply shaped_quiet|done].
Qed.


Lemma reset_shaped t :
  shaped t →
  ∃ t', reset t = Done tt t' ∧ shaped t' ∧ tdepth t' = tdepth t.
Proof.
  intros Hsh. pose proof Hsh as [Hok _]. unfold reset.
  match goal with |- ∃ t', with_blocks ?body t = _ ∧ _ =>
    destruct (with_blocks_spec body t (fun _ _ t2 => shaped t2) Hok)
      as ([] & t1 & t2 & t3 & Hrun & Hq1 & HR & Hq3 & Hd3 & Hok3)
  end.
  { intros t1 Hq Hd Hok1.
    pose proof (shaped_quiet _ _ Hq Hsh) as Hsh1.
    destruct (clear_shaped t1 Hsh1) as (ta & Hrun_a & Hsh_a & Hd_a).
    destruct (shaped_below ta Hsh_a)
      as (e & h & _ & _ & [e0 [Hlast Hhome]] & _ & _ & Hl).
    set (tb := set_last_position (position e0) ta).
    assert (Hsh_b : shaped tb) by exact Hsh_a.
    destruct (home_shaped tb Hsh_b) as (tc & Hrun_c & Hsh_c & Hd_c).
    exists tt, tc. split.
    { rewrite (bind_done _ _ _ _ _ Hrun_a), bind_gets, Hl, Hlast.
      by rewrite bind_modify. }
    splits; [apply Hsh_c| |done].
    rewrite Hd_c. unfold tdepth in *. simpl. done. }
  exists t3. split; [done|]. split; [by eapply shaped_quiet|done].
Qed.

(** A call on a turtle in working order returns and leaves it in working
    order, unless it is [goto] with arguments that name no point, which
    raises and changes nothing. *)
Lemma run_call_shaped t (call : Call) :
  shaped t →
  match run_call call t with
  | Done _ t' => shaped t' ∧ tdepth t' = tdepth t
  | Raised _ t' => t' = t ∧ ∃ x y z, call = CStep (OGoto x y z)
  end.
Proof.
  intros Hsh.
  assert (Hstep : ∀ f,
    match step f t with
    | Done _ t' => shaped t' ∧ tdepth t' = tdepth t
    | Raised _ _ => False
    end).
  { intros f. by destruct (step_shaped t f Hsh) as (t' & -> & ? & ?). }
  destruct call as [o| | | |]; simpl.
  - destruct o; simpl;
      try (match goal with |- context [?m t] =>
             let H := fresh in
             pose proof (Hstep _ : match m t with
                                   | Done _ _ => _ | Raised _ _ => _ end) as H;
             destruct (m t); [exact H|destruct H]
           end).
    unfold goto.
    destruct (point_of_cases x y z t) as [[other Hp]|[err Hp]].
    + rewrite (bind_done _ _ _ _ _ Hp).
      specialize (Hstep (replace_position other)).
      match goal with |- match ?m with Done _ _ => _ | Raised _ _ => _ end =>
        change m with (step (replace_position other) t)
      end.
      destruct (step _ t); [exact Hstep|destruct Hstep].
    + rewrite (bind_raised _ _ _ _ _ Hp). split; [done|]. by exists x, y, z.
  - by destruct (undo_shaped t Hsh) as (t' & -> & ? & ?).
  - by destruct (home_shaped t Hsh) as (t' & -> & ? & ?).
  - by destruct (clear_shaped t Hsh) as (t' & -> & ? & ?).
  - by destruct (reset_shaped t Hsh) as (t' & -> & ? & ?).
Qed.

(** Every turtle a program reaches on a world whose connection is up is
    settled. *)
Lemma working_settled t : working t → settled t.
Proof.
  induction 1 as [w pos t Hon Hinit|t call t' _ IH Hrun].
  - destruct (settled_init w pos Hon) as (t0 & Hrun & Hset). congruence.
  - destruct IH as [Hb Hsh].
    pose proof (run_call_shaped t call Hsh) as Hcall. rewrite Hrun in Hcall.
    destruct Hcall as [Hsh' Hd]. split; [|done].
    apply depth0_unbatched; [apply Hsh'|].
    unfold tdepth in Hd. rewrite Hd. unfold depth. by rewrite Hb.
Qed.

(** ** The sentinel of the history *)

Lemma sentinel_history e0 t t' :
  _history t' = _history t → sentinel e0 t → sentinel e0 t'.
Proof. unfold sentinel. by intros ->. Qed.

Lemma sentinel_push e0 e t :
  sentinel e0 t → sentinel e0 (set_history (e :: _history t) t).
Proof.
  unfold sentinel. simpl. intros [Hl Ha]. split; [|done].
  destruct (_history t); [done|]. by rewrite last_cons, Hl.
Qed.

(** An entry that is not tagged "home" is not the only entry. *)
Lemma sentinel_pop e0 e h t :
  _history t = e :: h → action e ≠ "home" →
  sentinel e0 t → sentinel e0 (set_history h t).
Proof.
  unfold sentinel. simpl. intros -> Hne [Hl Ha]. split; [|done].
  destruct h as [|e' h]; [|by rewrite last_cons_cons in Hl].
  simpl in Hl. congruence.
Qed.

Lemma always_on_screen {A} (P : Turtle → Prop) (m : M TurtleCache A) :
  (∀ c t, P t → P (set_screen c t)) → always P (on_screen m).
Proof.
  intros HP t Ht. unfold on_screen. destruct (m (_screen t)); simpl; auto.
Qed.

Lemma always_with_blocks {A} (P : Turtle → Prop) (body : M Turtle A) :
  (∀ c t, P t → P (set_screen c t)) →
  always P body → always P (with_blocks body).
Proof.
  intros HP Hbody t Ht. unfold with_blocks.
  pose proof (always_on_screen P __enter__ HP t Ht) as H1.
  destruct (on_screen __enter__ t) as [[] t1|e t1]; simpl in *; [|done].
  pose proof (Hbody t1 H1) as H2.
  destruct (body t1) as [a t2|e t2]; simpl in *.
  - pose proof (always_on_screen P (__exit__ false) HP t2 H2) as H3.
    by destruct (on_screen (__exit__ false) t2).
  - pose proof (always_on_screen P (__exit__ true) HP t2 H2) as H3.
    by destruct (on_screen (__exit__ true) t2).
Qed.

Lemma sentinel_screen e0 c t : sentinel e0 t → sentinel e0 (set_screen c t).
Proof. by apply sentinel_history. Qed.

Lemma always_commit e0 ch act : always (sentinel e0) (_commit ch act).
Proof.
  unfold _commit. apply always_bind.
  { apply always_on_screen, sentinel_screen. }
  intros rd. apply always_bind.
  { apply always_modify. intros t. apply sentinel_push. }
  intros _. case_decide; [apply always_ret|].
  apply always_on_screen, sentinel_screen.
Qed.

Lemma always_draw_turtle e0 : always (sentinel e0) _draw_turtle.
Proof.
  unfold _draw_turtle. apply always_bind; [apply always_gets|].
  intros s. apply always_commit.
Qed.

Lemma sentinel_undraw_loop e0 h : ∀ t,
  _history t = h → sentinel e0 t → sentinel e0 (final (undraw_loop h t)).
Proof.
  induction h as [|e h IH]; intros t Hh Ht; [done|].
  cbn [undraw_loop]. case_decide as Ha; [|done].
  assert (Hpop : sentinel e0 (set_history h t)).
  { eapply sentinel_pop; [done| |done]. by rewrite Ha. }
  unfold mbind, M_bind, modify.
  pose proof (always_on_screen (sentinel e0) (draw (changed e))
                (sentinel_screen e0) _ Hpop) as Hd.
  assert (Hh' : _history (final (on_screen (draw (changed e)) (set_history h t))) = h).
  { unfold on_screen. simpl. by destruct (draw _ _). }
  destruct (on_screen (draw (changed e)) (set_history h t)) as [[] t1|]; [|done].
  by apply IH.
Qed.

Lemma always_undraw_turtle e0 : always (sentinel e0) _undraw_turtle.
Proof.
  apply always_with_blocks; [apply sentinel_screen|].
  intros t Ht. unfold mbind, M_bind, gets. by apply sentinel_undraw_loop.
Qed.

Lemma always_update e0 : always (sentinel e0) _update.
Proof.
  apply always_with_blocks; [apply sentinel_screen|].
  apply always_bind; [apply always_undraw_turtle|]. intros _.
  apply always_bind; [apply always_gets|]. intros t.
  apply always_bind; [case_decide; apply always_commit|]. intros _.
  apply always_bind.
  { destruct (visible _); [apply always_draw_turtle|apply always_ret]. }
  intros _. apply always_modify. intros t'. by apply sentinel_history.
Qed.

Lemma final_bind {S A B} (P : S → Prop) (m : M S A) (k : A → M S B) (x : S) :
  P (final (m x)) → (∀ a, always P (k a)) → P (final ((m ≫= k) x)).
Proof.
  intros Hm Hk. unfold mbind, M_bind.
  destruct (m x) as [a x'|e x']; simpl in *; [by apply Hk|done].
Qed.

Lemma always_undo e0 : always (sentinel e0) undo.
Proof.
  apply always_with_blocks; [apply sentinel_screen|].
  apply always_bind; [apply always_undraw_turtle|]. intros _.
  intros t Ht. rewrite (bind_done (gets _history) _ t (_history t) t eq_refl).
  apply final_bind.
  - destruct (_history t) as [|e h] eqn:Hh; [done|].
    case_decide as Ha; [|done].
    assert (Hpop : sentinel e0 (set_history h t)) by by eapply sentinel_pop.
    unfold mbind, M_bind, modify.
    pose proof (always_on_screen (sentinel e0) (draw (changed e))
                  (sentinel_screen e0) _ Hpop) as Hd.
    destruct (on_screen (draw (changed e)) (set_history h t)) as [[] t1|]; [|done].
    simpl in Hd. destruct h as [|e' h']; [done|]. simpl.
    by eapply sentinel_history; [|exact Hd].
  - intros _. apply always_bind; [apply always_gets|]. intros s.
    destruct (visible s); [apply always_draw_turtle|apply always_ret].
Qed.

Lemma always_home e0 : always (sentinel e0) home.
Proof.
  unfold home. apply always_bind; [apply always_gets|]. intros h.
  destruct (last h) as [e|]; [|apply always_raise].
  apply always_bind; [|intros _; apply always_update].
  apply always_modify. intros t. by apply sentinel_history.
Qed.

Lemma sentinel_clear_loop e0 h : ∀ t,
  _history t = h → sentinel e0 t → sentinel e0 (final (clear_loop h t)).
Proof.
  induction h as [|e h IH]; intros t Hh Ht; [done|].
  cbn [clear_loop]. case_decide as Ha; [|done].
  assert (Hpop : sentinel e0 (set_history h t)) by by eapply sentinel_pop.
  unfold mbind, M_bind, modify.
  pose proof (always_on_screen (sentinel e0) (draw (changed e))
                (sentinel_screen e0) _ Hpop) as Hd.
  assert (Hh' : _history (final (on_screen (draw (changed e)) (set_history h t))) = h).
  { unfold on_screen. simpl. by destruct (draw _ _). }
  destruct (on_screen (draw (changed e)) (set_history h t)) as [[] t1|]; [|done].
  by apply IH.
Qed.

Lemma always_clear e0 : always (sentinel e0) clear.
Proof.
  apply always_with_blocks; [apply sentinel_screen|].
  apply always_bind; [|intros _; apply always_update].
  intros t Ht. unfold mbind, M_bind, gets. by apply sentinel_clear_loop.
Qed.

Lemma always_reset e0 : always (sentinel e0) reset.
Proof.
  apply always_with_blocks; [apply sentinel_screen|].
  apply always_bind; [apply always_clear|]. intros _.
  apply always_bind; [apply always_gets|]. intros h.
  apply always_bind; [|intros _; apply always_home].
  destruct (last h) as [e|]; [|apply always_raise].
  apply always_modify. intros t. by apply sentinel_history.
Qed.

Lemma always_step e0 f : always (sentinel e0) (step f).
Proof.
  apply always_bind; [|intros _; apply always_update].
  apply always_modify. intros t. by apply sentinel_history.
Qed.

Lemma always_point_of {S} (P : S → Prop) x y z : always P (point_of x y z).
Proof.
  unfold point_of. destruct x; try apply always_ret;
    destruct (try_unpack _ _ _) as [[x' y'] z'];
    destruct (Vector_new _ _ _); apply always_raise || apply always_ret.
Qed.

Lemma always_run_op e0 o : always (sentinel e0) (run_op o).
Proof.
  destruct o; try apply always_step.
  apply always_bind; [apply always_point_of|]. intros other.
  apply always_bind; [|intros _; apply always_update].
  apply always_modify. intros t. by apply sentinel_history.
Qed.

Lemma sentinel_init screen pos :
  ∃ e0, sentinel e0 (final (Turtle_init screen pos)).
Proof.
  eexists. unfold Turtle_init. apply always_draw_turtle. by split.
Qed.

(** C6.  The constructor leaves a history whose first entry is tagged
    "home"; every public call, returning or raising, keeps that very
    entry as the first one, so it is never popped; hence the history of
    every reachable turtle is non-empty and starts with a "home" entry. *)
Theorem history_sentinel :
  (∀ screen pos, ∃ e0, sentinel e0 (final (Turtle_init screen pos)))
  ∧ (∀ e0 call t, sentinel e0 t → sentinel e0 (final (run_call call t)))
  ∧ (∀ t, reachable t →
       _history t ≠ [] ∧ ∃ e0, last (_history t) = Some e0 ∧ action e0 = "home").
Proof.
  assert (Hcall : ∀ e0 call t,
            sentinel e0 t → sentinel e0 (final (run_call call t))).
  { intros e0 [o| | | |] t Ht; simpl.
    - by apply always_run_op.
    - by apply always_undo.
    - by apply always_home.
    - by apply always_clear.
    - by apply always_reset. }
  split; [apply sentinel_init|]. split; [exact Hcall|].
  assert (Hreach : ∀ t, reachable t → ∃ e0, sentinel e0 t).
  { induction 1 as [screen pos|t call _ [e0 IH]].
    - apply sentinel_init.
    - exists e0. by apply Hcall. }
  intros t Ht. destruct (Hreach t Ht) as [e0 [Hl Ha]].
  split; [|by exists e0]. intros Hnil. by rewrite Hnil in Hl.
Qed.


(** ** Points given as arguments *)

Lemma try_unpack_malformed (l : list Num) y z :
  length l ≠ 3%nat → try_unpack (PySeq l) y z = (PySeq l, y, z).
Proof.
  intros Hl. unfold try_unpack, unpack3.
  destruct l as [|a [|b [|c [|d l]]]]; simpl in *; done.
Qed.

(** A hidden turtle with the pen up: [_update] records the move and draws
    nothing.  It calls none of the operations of the vector collaborator:
    [line] is called with the pen down only, and the marker is computed
    for a visible turtle only. *)
Lemma step_hidden_penup t f :
  okay t →
  visible (f (_state t)) = false → pendown (f (_state t)) = false →
  ∃ t',
    step f t = Done tt t'
    ∧ _state t' = f (_state t)
    ∧ _last_position t' = position (f (_state t))
    ∧ _history t'
      = replace_changed_action ∅ "move" (f (_state t)) :: below (_history t).
Proof.
  intros Hok Hvis Hpen.
  set (ts := set_state (f (_state t)) t).
  destruct (update_spec ts Hok) as (t' & Hrun & (Hs & Hl & Hh & _) & _).
  exists t'. split; [done|]. split; [done|]. split; [done|].
  assert (Hstill : ¬ moves_with_pen ts).
  { unfold moves_with_pen, ts. simpl. rewrite Hpen. by intros [? _]. }
  rewrite Hh. unfold marker_part, move_entry, update_changes, update_action.
  rewrite !decide_False by done. unfold ts at 1. simpl. rewrite Hvis. simpl.
  assert (Hnone : snapshot (base_view ts) ∅ = ∅).
  { apply map_eq. intros v.
    by rewrite lookup_snapshot, dom_empty_L, lookup_empty. }
  by rewrite Hnone.
Qed.

(** C9, as the code has it.  A sequence that is not a triple is not
    rejected where [goto], [towards], [distance] and [teleport] take their
    argument: the error of the unpacking is caught and dropped, and the
    arguments go to the [Vector] constructor as they were given.  If the
    constructor raises, the call raises its error and nothing has
    changed.  If it returns, [goto] replaces the position by what it
    returned and runs [_update]; on a hidden turtle with the pen up, where
    [_update] calls no operation of the vector collaborator, the call
    returns, with a "move" entry on the history.  [towards] and [distance]
    go on to the arithmetic of the collaborator and raise what it raises;
    raising or returning, they leave the turtle and the cache as they
    were. *)
Theorem malformed_point_reaches_constructor (l : list Num) y z :
  length l ≠ 3%nat →
  (∀ t, goto (PySeq l) y z t =
        match Vector_new (PySeq l) y z with
        | inl err => Raised err t
        | inr other => step (replace_position other) t
        end)
  ∧ (∀ t other,
       Vector_new (PySeq l) y z = inr other →
       okay t → visible (_state t) = false → pendown (_state t) = false →
       ∃ t',
         goto (PySeq l) y z t = Done tt t'
         ∧ _state t' = replace_position other (_state t)
         ∧ _last_position t' = other
         ∧ _history t'
           = replace_changed_action ∅ "move" (replace_position other (_state t))
             :: below (_history t))
  ∧ (∀ t, towards (PySeq l) y z t =
          match Vector_new (PySeq l) y z with
          | inl err => Raised err t
          | inr other =>
              match towards_angle (position (_state t)) other with
              | inl err => Raised err t
              | inr angle => Done angle t
              end
          end)
  ∧ (∀ t, distance (PySeq l) y z t =
          match Vector_new (PySeq l) y z with
          | inl err => Raised err t
          | inr other =>
              match distance_to (position (_state t)) other with
              | inl err => Raised err t
              | inr d => Done d t
              end
          end)
  ∧ (∀ p err, Vector_new (PySeq l) y z = inl err →
       teleport (PySeq l) y z p = Raised err p).
Proof.
  intros Hl.
  assert (Hp : ∀ S (st : S),
            point_of (PySeq l) y z st =
            match Vector_new (PySeq l) y z with
            | inl err => Raised err st
            | inr other => Done other st
            end).
  { intros S st. unfold point_of. rewrite (try_unpack_malformed _ _ _ Hl).
    by destruct (Vector_new _ _ _). }
  assert (Hgoto : ∀ t, goto (PySeq l) y z t =
            match Vector_new (PySeq l) y z with
            | inl err => Raised err t
            | inr other => step (replace_position other) t
            end).
  { intros t. unfold goto, step, mbind at 1, M_bind at 1. rewrite Hp.
    by destruct (Vector_new _ _ _). }
  splits.
  - exact Hgoto.
  - intros t other Hnew Hok Hvis Hpen. rewrite Hgoto, Hnew.
    by apply step_hidden_penup.
  - intros t. unfold towards, mbind at 1, M_bind at 1. rewrite Hp.
    destruct (Vector_new _ _ _) as [err|other]; [done|].
    rewrite bind_gets. by destruct (towards_angle _ _).
  - intros t. unfold distance, mbind at 1, M_bind at 1. rewrite Hp.
    destruct (Vector_new _ _ _) as [err|other]; [done|].
    rewrite bind_gets. by destruct (distance_to _ _).
  - intros p err Hnew. unfold teleport, mbind at 1, M_bind at 1.
    by rewrite Hp, Hnew.
Qed.

End TurtleProperties.

(** * More on the cache *)

Section CacheBehaviour.
Context `{G : Geometry}.
Implicit Types (c : TurtleCache) (w : World) (v : Vector) (b : Block).
Implicit Types (m d acc cache : gmap Vector Block).

Lemma set_cache_same c : set_cache (_cache c) c = c.
Proof. by destruct c. Qed.

Lemma read_all_cached cache batch ps acc m :
  read_all cache batch ps acc = inr m →
  ∀ v, v ∈ ps → is_Some (cache !! v).
Proof.
  revert acc. induction ps as [|u ps IH]; intros acc Hr v Hv.
  - by apply elem_of_nil in Hv.
  - cbn [read_all] in Hr. destruct (cache !! u) as [b|] eqn:Hu; [|done].
    apply elem_of_cons in Hv as [->|Hv]; [by rewrite Hu|].
    by eapply IH.
Qed.

Lemma unknown_cached c ps :
  (∀ v, v ∈ ps → is_Some (_cache c !! v)) → unknown c ps = ∅.
Proof.
  intros Hc. apply set_eq. intros v. rewrite unknown_spec.
  split; [|set_solver]. intros (Hv & Hn & _).
  destruct (Hc v Hv) as [b Hb]. congruence.
Qed.

Lemma getitem_hit c ps :
  (∀ v, v ∈ ps → is_Some (_cache c !! v)) →
  ∃ m, __getitem__ ps c = Done m c
       ∧ read_all (_cache c) (overlay c) ps ∅ = inr m
       ∧ ∀ v, m !! v = if decide (v ∈ ps) then Some (view c v) else None.
Proof.
  intros Hc. rewrite getitem_unfold.
  rewrite decide_True by by apply unknown_cached.
  rewrite (left_id_L ∅ (∪)).
  destruct (read_all_returns (_cache c) (overlay c) ps ∅ Hc) as (m & Hm & Hmv).
  rewrite Hm, set_cache_same. exists m. split; [done|]. split; [done|].
  intros v. rewrite Hmv. case_decide as Hv; [|done].
  unfold view. destruct (Hc v Hv) as [b ->]. done.
Qed.

(** X1.  A read of positions that are all in the shared cache returns
    without a request to the world and changes nothing, whether the
    connection is up or not; for each position it reports the block the
    open batch holds for it, if it holds one, and the cached block
    otherwise, and it reports nothing else. *)
Theorem getitem_cached_no_request c ps :
  (∀ v, v ∈ ps → is_Some (_cache c !! v)) →
  ∃ m, __getitem__ ps c = Done m c
       ∧ ∀ v, m !! v = if decide (v ∈ ps) then Some (view c v) else None.
Proof.
  intros Hc. destruct (getitem_hit c ps Hc) as (m & Hrun & _ & Hm). by exists m.
Qed.

(** X2.  Once a read has returned, every position read is in the shared
    cache, and the same read again returns the same dictionary and changes
    nothing: nothing is fetched twice. *)
Theorem getitem_again c ps m c1 :
  __getitem__ ps c = Done m c1 →
  (∀ v, v ∈ ps → is_Some (_cache c1 !! v))
  ∧ __getitem__ ps c1 = Done m c1.
Proof.
  intros Hrun.
  assert (Hshape : overlay c1 = overlay c ∧
                   read_all (_cache c1) (overlay c) ps ∅ = inr m).
  { rewrite getitem_unfold in Hrun.
    destruct (if decide (unknown c ps = ∅) then _ else _) as [f c0|e c0] eqn:Hf;
      [|done].
    assert (Hb0 : _batch c0 = _batch c).
    { case_decide; [by injection Hf as <- <-|].
      unfold on_world in Hf. destruct (world_get _ _); by simplify_eq. }
    destruct (read_all _ _ _ _) as [e|m'] eqn:Hr; [done|].
    injection Hrun as <- <-. split; [|done].
    unfold overlay. simpl. by rewrite Hb0. }
  destruct Hshape as [Hov Hr].
  assert (Hc : ∀ v, v ∈ ps → is_Some (_cache c1 !! v)).
  { by eapply read_all_cached. }
  split; [done|].
  destruct (getitem_hit c1 ps Hc) as (m' & Hrun' & Hr' & _).
  rewrite Hov in Hr'. congruence.
Qed.

Lemma zip_dict_nodup ps bs :
  NoDup ps → length ps = length bs →
  zip_dict ps bs = list_to_map (zip ps bs).
Proof.
  intros Hnd Hlen. unfold zip_dict. rewrite foldl_insert_pairs.
  rewrite (right_id_L ∅ (∪)).
  apply list_to_map_proper; [|apply reverse_Permutation].
  rewrite fmap_reverse, reverse_Permutation.
  rewrite fst_zip by lia. done.
Qed.

(** What a returning write outside a batch makes of the cache and of the
    world, for distinct positions. *)
Lemma setitem_unbatched_nodup c ps bs c' :
  _batch c = None → NoDup ps → length ps = length bs →
  __setitem__ ps bs c = Done tt c' →
  _batch c' = None
  ∧ (∀ v, _cache c' !! v =
          match zip_dict ps bs !! v with
          | Some b => Some b
          | None => _cache c !! v
          end)
  ∧ (∀ v, w_blocks (_world c') v =
          match zip_dict ps bs !! v with
          | Some b => if decide (_cache c !! v = Some b)
                      then w_blocks (_world c) v else b
          | None => w_blocks (_world c) v
          end).
Proof.
  intros Hb Hnd Hlen. rewrite setitem_unbatched by done.
  destruct (diff_pairs _ _ _) as [e|d] eqn:Hd; [done|].
  destruct (w_online _); [|done]. intros [= <-]. simpl.
  assert (Hdv := diff_pairs_nodup _ _ _ _
            (eq_ind_r (NoDup) Hnd (fst_zip ps bs ltac:(lia)))
            (fun v _ => lookup_empty v) Hd).
  rewrite zip_dict_nodup by done.
  split; [done|]. split.
  - intros v. rewrite lookup_union_match, Hdv, lookup_empty.
    destruct (list_to_map (zip ps bs) !! v) as [b|]; [|done].
    by case_decide.
  - intros v. rewrite Hdv, lookup_empty.
    destruct (list_to_map (zip ps bs) !! v) as [b|]; [|done].
    by case_decide.
Qed.

Lemma elem_of_zip_dict ps bs v :
  length ps = length bs → (v ∈ ps ↔ is_Some (zip_dict ps bs !! v)).
Proof.
  intros Hlen. unfold zip_dict. rewrite foldl_insert_pairs.
  rewrite (right_id_L ∅ (∪)).
  rewrite <- elem_of_dom, dom_list_to_map_L, elem_of_list_to_set.
  rewrite fmap_reverse, elem_of_reverse, fst_zip by lia. done.
Qed.

(** X3.  Outside a batch, after a write of distinct positions, with as
    many blocks as positions, has returned, reading those positions
    returns exactly the blocks written, and changes nothing. *)
Theorem setitem_then_getitem c ps bs c' :
  _batch c = None → NoDup ps → length ps = length bs →
  __setitem__ ps bs c = Done tt c' →
  __getitem__ ps c' = Done (zip_dict ps bs) c'.
Proof.
  intros Hb Hnd Hlen Hrun.
  destruct (setitem_unbatched_nodup c ps bs c' Hb Hnd Hlen Hrun)
    as (Hb' & Hc' & _).
  assert (Hcached : ∀ v, v ∈ ps → is_Some (_cache c' !! v)).
  { intros v Hv. rewrite Hc'.
    apply (elem_of_zip_dict ps bs v Hlen) in Hv as [b ->]. eauto. }
  destruct (getitem_hit c' ps Hcached) as (m & -> & _ & Hm).
  f_equal. apply map_eq. intros v. rewrite Hm.
  case_decide as Hv.
  - rewrite view_unbatched, Hc' by done.
    apply (elem_of_zip_dict ps bs v Hlen) in Hv as [b ->]. done.
  - rewrite (elem_of_zip_dict ps bs v Hlen) in Hv.
    by destruct (zip_dict ps bs !! v); [destruct Hv; eauto|].
Qed.

(** X4.  Outside a batch and with a cache that holds what the world
    holds, a write of distinct positions that returns reaches the world:
    every written position holds the block written, every other position
    holds what it held, and the cache still holds what the world holds. *)
Theorem setitem_reaches_world c ps bs c' :
  _batch c = None → coherent c → NoDup ps → length ps = length bs →
  __setitem__ ps bs c = Done tt c' →
  (∀ v b, zip_dict ps bs !! v = Some b → w_blocks (_world c') v = b)
  ∧ (∀ v, v ∉ ps → w_blocks (_world c') v = w_blocks (_world c) v)
  ∧ coherent c'.
Proof.
  intros Hb Hcoh Hnd Hlen Hrun.
  destruct (setitem_unbatched_nodup c ps bs c' Hb Hnd Hlen Hrun)
    as (Hb' & Hc' & Hw').
  assert (Hin : ∀ v b, zip_dict ps bs !! v = Some b → w_blocks (_world c') v = b).
  { intros v b Hz. rewrite Hw', Hz. case_decide as Hd; [|done]. by apply Hcoh. }
  split; [done|]. split.
  - intros v Hv. rewrite Hw'.
    rewrite (elem_of_zip_dict ps bs v Hlen) in Hv.
    by destruct (zip_dict ps bs !! v); [destruct Hv; eauto|].
  - intros v b. rewrite Hc'.
    destruct (zip_dict ps bs !! v) as [b'|] eqn:Hz.
    + intros [= <-]. by apply Hin.
    + intros Hv. rewrite Hw', Hz. by apply Hcoh.
Qed.

(** X5.  A position written twice in one call, first with a block that
    differs from the cached one and then with the cached block.  Outside a
    batch the comprehension of [__setitem__] drops the pair that equals the
    cache and keeps the other, so the first block is sent and cached;
    inside a batch the last write wins, and the flush changes nothing. *)
Theorem setitem_duplicate_position c v b1 b2 :
  _batch c = None → w_online (_world c) = true →
  _cache c !! v = Some b2 → b1 ≠ b2 →
  (∃ c', __setitem__ [v; v] [b1; b2] c = Done tt c'
         ∧ _cache c' !! v = Some b1
         ∧ w_blocks (_world c') v = b1)
  ∧ (∃ c', (__enter__;; __setitem__ [v; v] [b1; b2];; __exit__ false) c
           = Done tt c'
         ∧ _cache c' !! v = Some b2
         ∧ w_blocks (_world c') v = w_blocks (_world c) v).
Proof.
  intros Hb Hon Hc Hne. split.
  - rewrite setitem_unbatched by done. simpl. rewrite Hc.
    destruct (decide (b2 = b2)) as [_|]; [|done].
    destruct (decide (b1 = b2)) as [|_]; [done|].
    rewrite Hon. eexists. split; [done|]. simpl.
    rewrite lookup_union_match, !lookup_insert_eq. done.
  - unfold mbind, M_bind, __enter__. rewrite Hb. simpl.
    unfold __exit__. simpl.
    assert (Hz : zip_dict [v; v] [b1; b2] ∪ ∅ = ({[ v := b2 ]} : gmap Vector Block)).
    { rewrite (right_id_L ∅ (∪)). unfold zip_dict. simpl.
      by rewrite insert_insert_eq. }
    rewrite Hz, map_to_list_singleton. simpl.
    rewrite setitem_unbatched by (by destruct c).
    simpl. replace (_cache (set_batch None c) !! v) with (Some b2)
      by (by destruct c).
    destruct (decide (b2 = b2)) as [_|]; [|done].
    rewrite Hon. eexists. split; [done|]. simpl.
    by rewrite (left_id_L ∅ (∪)), lookup_empty.
Qed.

(** X7.  An exception that leaves an inner batch scope rolls nothing
    back: entering twice, writing, leaving the inner scope with an
    exception and the outer one without is the same as entering once,
    writing and leaving; the write is flushed. *)
Theorem inner_failure_keeps_writes c ps bs :
  _batch c = None →
  (__enter__;; __enter__;; __setitem__ ps bs;; __exit__ true;; __exit__ false) c
  = (__enter__;; __setitem__ ps bs;; __exit__ false) c.
Proof.
  intros Hb. unfold mbind, M_bind, __enter__. rewrite Hb. simpl.
  unfold __exit__. simpl. done.
Qed.

(** X8.  Leaving the outermost scope of a healthy cache without an
    exception returns, closes the batch, and makes the world hold at every
    position the block that reads reported inside the batch. *)
Theorem exit_publishes_view c :
  healthy c → depth c = 1 →
  ∃ c', __exit__ false c = Done tt c'
        ∧ _batch c' = None
        ∧ (∀ v, w_blocks (_world c') v = view c v)
        ∧ healthy c'.
Proof.
  intros Hh Hd.
  destruct (exit_spec c Hh) as (c' & Hrun & Hd' & Hh' & Hv & _); [lia|].
  assert (Hb' : _batch c' = None) by (apply depth0_unbatched; [done|lia]).
  exists c'. splits; try done.
  intros v. rewrite <- Hv. symmetry. by apply view_world.
Qed.

(** X6.  Inside a batch, a write to positions that are in the shared
    cache touches neither the cache nor the world, and reading the same
    positions returns the blocks just written, the last one for a position
    written twice. *)
Theorem batch_reads_own_writes c (bt : Batch) ps bs :
  _batch c = Some bt → length ps = length bs →
  (∀ v, v ∈ ps → is_Some (_cache c !! v)) →
  ∃ c', __setitem__ ps bs c = Done tt c'
        ∧ _cache c' = _cache c
        ∧ _world c' = _world c
        ∧ __getitem__ ps c' = Done (zip_dict ps bs) c'.
Proof.
  intros Hb Hlen Hc. rewrite (setitem_batched _ _ _ _ Hb).
  eexists. split; [done|]. split; [done|]. split; [done|].
  set (c' := set_batch _ c).
  destruct (getitem_hit c' ps Hc) as (m & -> & _ & Hm).
  f_equal. apply map_eq. intros v. rewrite Hm.
  case_decide as Hv.
  - pose proof Hv as [b Hz]%(elem_of_zip_dict ps bs v Hlen).
    rewrite Hz. unfold view, overlay. simpl.
    by rewrite (lookup_union_Some_l _ _ _ _ Hz).
  - rewrite (elem_of_zip_dict ps bs v Hlen) in Hv.
    by destruct (zip_dict ps bs !! v); [destruct Hv; eauto|].
Qed.

End CacheBehaviour.

(** * Invariants of the history *)

(** A property of turtles that the screen and the last position do not
    affect, that pushing an entry not tagged "home" and popping such an
    entry keep, holds wherever the methods below end. *)
Section Invariants.
Context `{G : Geometry}.
Variable P : Turtle → Prop.
Hypothesis P_screen : ∀ c t, P t → P (set_screen c t).
Hypothesis P_last : ∀ v t, P t → P (set_last_position v t).
Hypothesis P_push : ∀ rd act t,
  act ≠ "home" →
  P t → P (set_history (replace_changed_action rd act (_state t) :: _history t) t).
Hypothesis P_pop : ∀ e h t,
  _history t = e :: h → action e ≠ "home" → P t → P (set_history h t).

Lemma inv_commit ch act : act ≠ "home" → always P (_commit ch act).
Proof.
  intros Hact. unfold _commit. apply always_bind.
  { by apply always_on_screen. }
  intros rd. apply always_bind.
  { apply always_modify. intros t. by apply P_push. }
  intros _. case_decide; [apply always_ret|].
  by apply always_on_screen.
Qed.

Lemma inv_draw_turtle : always P _draw_turtle.
Proof.
  unfold _draw_turtle. apply always_bind; [apply always_gets|].
  intros s. by apply inv_commit.
Qed.

Lemma inv_pop_draw e h t :
  _history t = e :: h → action e ≠ "home" → P t →
  P (final (on_screen (draw (changed e)) (set_history h t)))
  ∧ _history (final (on_screen (draw (changed e)) (set_history h t))) = h.
Proof.
  intros Hh Ha Ht. split.
  - apply always_on_screen; [done|]. by eapply P_pop.
  - unfold on_screen. simpl. by destruct (draw _ _).
Qed.

Lemma inv_undraw_loop h : ∀ t,
  _history t = h → P t → P (final (undraw_loop h t)).
Proof.
  induction h as [|e h IH]; intros t Hh Ht; [done|].
  cbn [undraw_loop]. case_decide as Ha; [|done].
  destruct (inv_pop_draw e h t Hh) as [Hd Hh']; [by rewrite Ha|done|].
  unfold mbind, M_bind, modify.
  destruct (on_screen (draw (changed e)) (set_history h t)) as [[] t1|]; [|done].
  by apply IH.
Qed.

Lemma inv_undraw_turtle : always P _undraw_turtle.
Proof.
  apply always_with_blocks; [done|].
  intros t Ht. unfold mbind, M_bind, gets. by apply inv_undraw_loop.
Qed.

Lemma inv_update : always P _update.
Proof.
  apply always_with_blocks; [done|].
  apply always_bind; [apply inv_undraw_turtle|]. intros _.
  apply always_bind; [apply always_gets|]. intros t.
  apply always_bind; [case_decide; by apply inv_commit|]. intros _.
  apply always_bind.
  { destruct (visible _); [apply inv_draw_turtle|apply always_ret]. }
  intros _. apply always_modify. intros t'. by apply P_last.
Qed.

Lemma inv_step f :
  (∀ t, P t → P (set_state (f (_state t)) t)) → always P (step f).
Proof.
  intros Hf. apply always_bind; [|intros _; apply inv_update].
  by apply always_modify.
Qed.

Lemma inv_home :
  (∀ e0 t, P t → P (set_state (replace_elevation (num 0)
                      (replace_heading vZ
                         (replace_position (position e0) (_state t)))) t)) →
  always P home.
Proof.
  intros Hf. unfold home. apply always_bind; [apply always_gets|]. intros h.
  destruct (last h) as [e|]; [|apply always_raise].
  apply always_bind; [|intros _; apply inv_update].
  apply always_modify. intros t. by apply Hf.
Qed.

Hypothesis P_restore : ∀ e h t,
  _history t = e :: h → P t → P (set_state e t).

Lemma inv_undo : always P undo.
Proof.
  apply always_with_blocks; [done|].
  apply always_bind; [apply inv_undraw_turtle|]. intros _.
  intros t Ht. rewrite (bind_done (gets _history) _ t (_history t) t eq_refl).
  apply final_bind.
  - destruct (_history t) as [|e h] eqn:Hh; [done|].
    case_decide as Ha; [|done].
    destruct (inv_pop_draw e h t Hh Ha Ht) as [Hd Hh'].
    unfold mbind, M_bind, modify.
    destruct (on_screen (draw (changed e)) (set_history h t)) as [[] t1|]; [|done].
    simpl in Hd, Hh'. destruct h as [|e' h']; [done|]. simpl.
    apply P_last. by eapply P_restore.
  - intros _. apply always_bind; [apply always_gets|]. intros s.
    destruct (visible s); [apply inv_draw_turtle|apply always_ret].
Qed.

Lemma inv_clear_loop h : ∀ t,
  _history t = h → P t → P (final (clear_loop h t)).
Proof.
  induction h as [|e h IH]; intros t Hh Ht; [done|].
  cbn [clear_loop]. case_decide as Ha; [|done].
  destruct (inv_pop_draw e h t Hh Ha Ht) as [Hd Hh'].
  unfold mbind, M_bind, modify.
  destruct (on_screen (draw (changed e)) (set_history h t)) as [[] t1|]; [|done].
  by apply IH.
Qed.

Lemma inv_clear : always P clear.
Proof.
  apply always_with_blocks; [done|].
  apply always_bind; [|intros _; apply inv_update].
  intros t Ht. unfold mbind, M_bind, gets. by apply inv_clear_loop.
Qed.

Lemma inv_reset :
  (∀ e0 t, P t → P (set_state (replace_elevation (num 0)
                      (replace_heading vZ
                         (replace_position (position e0) (_state t)))) t)) →
  always P reset.
Proof.
  intros Hf. apply always_with_blocks; [done|].
  apply always_bind; [apply inv_clear|]. intros _.
  apply always_bind; [apply always_gets|]. intros h.
  apply always_bind; [|intros _; by apply inv_home].
  destruct (last h) as [e|]; [|apply always_raise].
  apply always_modify. intros t. by apply P_last.
Qed.

End Invariants.

Section HistoryInvariants.
Context `{G : Geometry}.
Implicit Types (t : Turtle) (v : Vector) (e : TurtleState).

(** X9.  [_update] never touches the snapshot: after an operation that
    replaces the snapshot and calls [_update], the snapshot is the replaced
    one, whether the drawing returned or raised, on any turtle and any
    world. *)
Theorem step_replaces_snapshot f t :
  _state (final (step f t)) = f (_state t).
Proof.
  unfold step. rewrite bind_modify.
  apply (inv_update (fun t' => _state t' = f (_state t))); done.
Qed.

Lemma grounded_always_call e0 (call : Call) : always (grounded e0) (run_call call).
Proof.
  assert (Hscreen : ∀ c t, grounded e0 t → grounded e0 (set_screen c t)) by done.
  assert (Hlast : ∀ v t, grounded e0 t → grounded e0 (set_last_position v t)) by done.
  assert (Hstate : ∀ s t, grounded e0 t → grounded e0 (set_state s t)) by done.
  assert (Hpush : ∀ rd act t, act ≠ "home" → grounded e0 t →
            grounded e0 (set_history
              (replace_changed_action rd act (_state t) :: _history t) t)).
  { intros rd act t Ha (ms & Hh & Hms & He0). eexists (_ :: ms). simpl.
    rewrite Hh. split; [done|]. split; [|done]. by constructor. }
  assert (Hpop : ∀ e h t, _history t = e :: h → action e ≠ "home" →
            grounded e0 t → grounded e0 (set_history h t)).
  { intros e h t Hh Ha (ms & Hh' & Hms & He0). rewrite Hh in Hh'.
    destruct ms as [|e' ms]; simplify_eq/=; try done.
    exists ms. split; [done|]. split; [by inversion Hms|done]. }
  assert (Hstep : ∀ f, always (grounded e0) (step f)).
  { intros f. apply inv_step; auto. }
  destruct call as [o| | | |]; simpl.
  - destruct o; try apply Hstep.
    apply always_bind; [apply always_point_of|]. intros other. apply Hstep.
  - apply inv_undo; auto.
  - apply inv_home; auto.
  - apply inv_clear; auto.
  - apply inv_reset; auto.
Qed.

Lemma grounded_init screen pos :
  ∃ e0, grounded e0 (final (Turtle_init screen pos))
        ∧ changed e0 = ∅ ∧ position e0 = pos.
Proof.
  exists (mkState pos vZ (num 0) true true stone stone ∅ "home").
  split; [|done]. unfold Turtle_init.
  apply (inv_draw_turtle (grounded _)).
  - done.
  - intros rd act t Ha (ms & Hh & Hms & He0). eexists (_ :: ms). simpl.
    rewrite Hh. split; [done|]. split; [|done]. by constructor.
  - by exists [].
Qed.

(** X10.  The history of every reachable turtle has exactly one entry
    tagged "home", its first, and that entry has no reverse diff: no call,
    [home] and [reset] included, pushes a second one, and none pops it. *)
Theorem history_single_home t :
  reachable t →
  ∃ ms e0, _history t = ms ++ [e0]
           ∧ Forall (fun e => action e ≠ "home") ms
           ∧ action e0 = "home" ∧ changed e0 = ∅.
Proof.
  intros Ht.
  assert (H : ∃ e0, grounded e0 t ∧ changed e0 = ∅).
  { induction Ht as [screen pos|t call _ (e0 & IH & Hch)].
    - destruct (grounded_init screen pos) as (e0 & ? & ? & _). by exists e0.
    - exists e0. split; [|done]. by apply grounded_always_call. }
  destruct H as (e0 & (ms & ? & ? & ?) & ?). by exists ms, e0.
Qed.

End HistoryInvariants.

(** X11.  With whole numbers for angles, the elevation of every
    reachable turtle lies between -90 and 90: [setelevation], [up] and
    [down] clamp it, [home] and [reset] set it to 0, and [undo] restores a
    snapshot that was in range. *)
Theorem elevation_in_range (t : @Turtle Grid) :
  reachable t → -90 ≤ elevation (_state t) ≤ 90.
Proof.
  intros Ht. cut (throughout in_range t); [by intros [? _]|].
  assert (Hclamp : ∀ a : Z, -90 ≤ clamp a (-90) 90 ≤ 90).
  { intros a. unfold clamp. simpl. lia. }
  assert (Hscreen : ∀ c t, throughout in_range t → throughout in_range (set_screen c t))
    by done.
  assert (Hlast : ∀ v t, throughout in_range t →
            throughout in_range (set_last_position v t)) by done.
  assert (Hpush : ∀ rd act t, act ≠ "home" → throughout in_range t →
            throughout in_range (set_history
              (replace_changed_action rd act (_state t) :: _history t) t)).
  { intros rd act t' _ [Hs Hh]. split; [done|]. by constructor. }
  assert (Hpop : ∀ e h t, _history t = e :: h → action e ≠ "home" →
            throughout in_range t → throughout in_range (set_history h t)).
  { intros e h t' Hh _ [Hs Hall]. split; [done|]. simpl.
    rewrite Hh in Hall. by inversion Hall. }
  assert (Hrestore : ∀ e h t, _history t = e :: h →
            throughout in_range t → throughout in_range (set_state e t)).
  { intros e h t' Hh [Hs Hall]. split; [|done]. simpl.
    rewrite Hh in Hall. by inversion Hall. }
  assert (Hhome : ∀ (e0 : @TurtleState Grid) t, throughout in_range t →
            throughout in_range (set_state (replace_elevation (num 0)
              (replace_heading vZ (replace_position (position e0) (_state t)))) t)).
  { intros e0 t' [Hs Hall]. split; [|done]. unfold in_range. simpl. lia. }
  assert (Hstep : ∀ f, (∀ s, in_range s → in_range (f s)) →
            always (throughout in_range) (step f)).
  { intros f Hf. apply inv_step; auto. intros t' [Hs Hall]. split; [|done].
    by apply Hf. }
  induction Ht as [screen pos|t call _ IH].
  - unfold Turtle_init. apply (inv_draw_turtle (throughout in_range)); auto.
    split; [|constructor; [|done]]; unfold in_range; simpl; lia.
  - revert IH. generalize t. change (always (throughout in_range) (run_call call)).
    destruct call as [o| | | |]; simpl.
    + destruct o; try (apply Hstep; intros s Hs; first [exact Hs | apply Hclamp]).
      apply always_bind; [apply always_point_of|]. intros other.
      by apply Hstep.
    + apply inv_undo; auto.
    + apply inv_home; auto.
    + apply inv_clear; auto.
    + apply inv_reset; auto.
Qed.

(** * Programs *)

Section ProgramProperties.
Context `{G : Geometry}.
Implicit Types (t : Turtle) (v : Vector) (e : TurtleState).

Lemma reverted_app ts1 ts2 : ∀ V,
  reverted (ts1 ++ ts2) V = reverted ts2 (reverted ts1 V).
Proof. induction ts1 as [|e ts1 IH]; intros V; simpl; [done|apply IH]. Qed.

Lemma turtles_below (h : list TurtleState) : turtles h ++ below h = h.
Proof.
  induction h as [|e h IH]; simpl; [done|].
  case_decide; simpl; [by rewrite IH|done].
Qed.

Lemma origin_base t v : reverted (below (_history t)) (base_view t) v = origin t v.
Proof.
  unfold origin, base_view. rewrite <- reverted_app. by rewrite turtles_below.
Qed.

Lemma origin_marker_part V s rest t' :
  _history t' = marker_part V s ++ rest →
  (∀ v, tview t' v = with_marker V s v) →
  ∀ v, origin t' v = reverted rest V v.
Proof.
  intros Hh Hv v. unfold origin. rewrite Hh, reverted_app.
  apply reverted_ext. intros u. rewrite (reverted_ext _ _ _ Hv).
  apply reverted_marker_part.
Qed.

Lemma origin_quiet t t' : quiet t t' → ∀ v, origin t' v = origin t v.
Proof.
  intros (_ & _ & Hh & Hv & _) v. unfold origin. rewrite Hh.
  by apply reverted_ext.
Qed.

(** [_update] leaves the origin alone. *)
Lemma update_origin t :
  okay t →
  ∃ t',
    _update t = Done tt t'
    ∧ (∀ v, origin t' v = origin t v)
    ∧ _state t' = _state t
    ∧ _last_position t' = position (_state t')
    ∧ okay t'
    ∧ tdepth t' = tdepth t.
Proof.
  intros Hok.
  destruct (update_spec t Hok) as (t' & Hrun & (Hs & Hl & Hh & Hv) & Hok' & Hd & _).
  exists t'. splits; try done; [|by rewrite Hs].
  intros v. rewrite (origin_marker_part _ _ _ _ Hh Hv). simpl.
  rewrite <- origin_base. apply reverted_ext. intros u.
  apply (revert_snapshot (base_view t)).
Qed.

Lemma below_sentinel (h : list TurtleState) e0 :
  last h = Some e0 → action e0 = "home" →
  ∃ e rest, below h = e :: rest ∧ last (e :: rest) = Some e0.
Proof.
  intros Hl Ha. induction h as [|e h IH]; [done|]. simpl.
  case_decide as He.
  - destruct h as [|e' h]; [simpl in Hl; congruence|].
    rewrite last_cons_cons in Hl. by apply IH.
  - by exists e, h.
Qed.

Lemma undo_origin t e0 :
  okay t → sentinel e0 t →
  ∃ t',
    undo t = Done tt t'
    ∧ (∀ v, origin t' v = origin t v)
    ∧ (_last_position t = position (_state t) →
       _last_position t' = position (_state t'))
    ∧ okay t'
    ∧ tdepth t' = tdepth t.
Proof.
  intros Hok [Hlast Hhome].
  destruct (below_sentinel _ e0 Hlast Hhome) as (e & rest & Hbel & Hl).
  destruct (decide (action e = "home")) as [Ha|Ha].
  - destruct (undo_home_spec t e rest Hok Hbel Ha)
      as (t' & Hrun & (Hs & Hl' & Hh & Hv) & Hok' & Hd & _).
    exists t'. splits; try done; [|congruence].
    intros v. rewrite (origin_marker_part _ _ _ _ Hh Hv).
    apply origin_base.
  - destruct rest as [|e2 h2]; [simpl in Hl; congruence|].
    destruct (undo_pop_spec t e e2 h2 Hok Hbel Ha)
      as (t' & Hrun & (Hs & Hl' & Hh & Hv) & Hok' & Hd & _).
    exists t'. splits; try done; [|by rewrite Hs].
    intros v. rewrite (origin_marker_part _ _ _ _ Hh Hv).
    rewrite <- origin_base, Hbel. done.
Qed.

Lemma clear_loop_origin h : ∀ t,
  _history t = h → okay t →
  (∃ e0, last h = Some e0 ∧ action e0 = "home") →
  ∃ t',
    clear_loop h t = Done tt t'
    ∧ ∀ v, origin t' v = origin t v.
Proof.
  induction h as [|e h IH]; intros t Hh [Hok Hc] [e0 [Hlast Hhome]]; [done|].
  cbn [clear_loop]. case_decide as Ha.
  2:{ by exists t. }
  rewrite bind_modify.
  destruct (draw_spec (_screen t) (changed e) Hok)
    as (c1 & Hdraw & Hd1 & Hh1 & Hv1 & Hc1 & _).
  { apply Hc. rewrite Hh. left. }
  set (t0 := set_history h t).
  assert (Hdraw' : on_screen (draw (changed e)) t0 = Done tt (set_screen c1 t0)).
  { by apply on_screen_done. }
  rewrite (bind_done _ _ _ _ _ Hdraw').
  destruct (IH (set_screen c1 t0)) as (t' & Hrun & Ho); [done| | |].
  { split; [done|]. intros e' He'. simpl in *. rewrite Hc1.
    apply Hc. rewrite Hh. by right. }
  { exists e0. split; [|done]. destruct h as [|e' h]; [simpl in Hlast; congruence|].
    by rewrite last_cons_cons in Hlast. }
  exists t'. split; [done|]. intros v. rewrite Ho.
  unfold origin. rewrite Hh. simpl. apply reverted_ext. intros u.
  unfold tview. simpl. apply Hv1.
Qed.

Lemma grounded_sentinel e0 t : grounded e0 t → sentinel e0 t.
Proof. intros (ms & Hh & _ & Ha). split; [|done]. by rewrite Hh, last_snoc. Qed.

Lemma grounded_history e0 t t' :
  _history t' = _history t → grounded e0 t → grounded e0 t'.
Proof. unfold grounded. by intros ->. Qed.

Lemma home_suffix_grounded (ms : list TurtleState) e0 :
  Forall (fun e => action e ≠ "home") ms → action e0 = "home" →
  home_suffix (ms ++ [e0]) = [e0].
Proof.
  intros Hms Ha. induction Hms as [|e ms He _ IH]; simpl.
  - rewrite decide_False; [done|]. intros Hne. by apply Hne.
  - by rewrite decide_True.
Qed.

Lemma below_grounded (ms : list TurtleState) e0 :
  Forall (fun e => action e ≠ "home") ms → action e0 = "home" →
  ∃ ms', below (ms ++ [e0]) = ms' ++ [e0]
         ∧ Forall (fun e => action e ≠ "home") ms'.
Proof.
  intros Hms Ha. induction Hms as [|e ms He Hms IH]; simpl.
  - exists []. rewrite decide_False; [done|]. by rewrite Ha.
  - case_decide; [exact IH|]. exists (e :: ms). split; [done|]. by constructor.
Qed.

Lemma traced_quiet V0 e0 t t' : quiet t t' → traced V0 e0 t → traced V0 e0 t'.
Proof.
  intros Hq (Hsh & Hg & Hch & Hl & Ho).
  pose proof Hq as (Hs & Hl' & Hh & _).
  unfold traced. splits.
  - by eapply shaped_quiet.
  - by eapply grounded_history.
  - done.
  - by rewrite Hs, Hl'.
  - intros v. rewrite (origin_quiet _ _ Hq). apply Ho.
Qed.

(** The constructor. *)
Lemma traced_init w pos :
  w_online w = true →
  ∃ t, Turtle_init (TurtleCache_init w) pos = Done tt t
       ∧ _batch (_screen t) = None
       ∧ traced (w_blocks w) (_state t) t
       ∧ _state t = mkState pos vZ (num 0) true true stone stone ∅ "home"
       ∧ _history t = [marker_entry (w_blocks w) (_state t); _state t]
       ∧ ∀ v, tview t v = with_marker (w_blocks w) (_state t) v.
Proof.
  intros Hon.
  destruct (settled_init w pos Hon) as (t & Hrun & Hb & Hsh).
  exists t. split; [done|]. split; [done|].
  revert Hrun. unfold Turtle_init.
  set (s := mkState pos vZ (num 0) true true stone stone ∅ "home").
  set (t0 := mkTurtle (TurtleCache_init w) s pos [s]).
  assert (Hok : okay t0).
  { split; [by apply healthy_init|].
    intros e ->%list_elem_of_singleton. simpl. rewrite dom_empty.
    apply empty_subseteq. }
  unfold _draw_turtle. rewrite bind_gets.
  destruct (commit_spec t0 (marker (_state t0)) "turtle" Hok)
    as (t' & Hrun & Hs & Hl & Hh & Hok' & Hd & Hv & Hc).
  rewrite Hrun. intros [= <-].
  assert (Hview0 : ∀ v, tview t0 v = w_blocks w v).
  { intros v. unfold tview, view, overlay. simpl. by rewrite lookup_empty. }
  assert (Hh' : _history t' = marker_part (w_blocks w) s ++ [s]).
  { rewrite Hh. unfold marker_part, marker_entry. simpl.
    by rewrite (snapshot_ext _ _ _ Hview0). }
  assert (Hv' : ∀ v, tview t' v = with_marker (w_blocks w) s v).
  { intros v. rewrite Hv. unfold with_marker. simpl. by rewrite Hview0. }
  rewrite Hs. simpl. split; [|by splits].
  unfold traced. splits; try done.
  - exists [marker_entry (w_blocks w) s]. split; [done|]. split; [|done].
    by repeat constructor.
  - by rewrite Hl, Hs.
  - intros v. by rewrite (origin_marker_part _ _ _ _ Hh' Hv').
Qed.

(** An operation that replaces the snapshot and updates. *)
Lemma step_traced V0 e0 t f :
  traced V0 e0 t →
  ∃ t', step f t = Done tt t' ∧ traced V0 e0 t' ∧ tdepth t' = tdepth t
        ∧ _state t' = f (_state t).
Proof.
  intros (Hsh & Hg & Hch & Hl & Ho).
  destruct (step_shaped t f Hsh) as (t' & Hrun & Hsh' & Hd).
  exists t'. split; [done|].
  assert (Hg' : grounded e0 (final (step f t))).
  { apply inv_step; try done.
    - intros rd act t1 Ha (ms & Hh & Hms & He0). eexists (_ :: ms). simpl.
      rewrite Hh. split; [done|]. split; [|done]. by constructor.
    - intros e h t1 Hh Ha (ms & Hh' & Hms & He0). rewrite Hh in Hh'.
      destruct ms as [|e' ms]; simplify_eq/=; try done.
      exists ms. split; [done|]. split; [by inversion Hms|done]. }
  rewrite Hrun in Hg'. simpl in Hg'.
  destruct (update_origin (set_state (f (_state t)) t)) as
    (t'' & Hrun' & Ho' & Hs' & Hl' & _); [apply Hsh|].
  assert (t'' = t') as -> by (unfold step in Hrun; rewrite bind_modify in Hrun; congruence).
  unfold traced. splits; try done.
  intros v. rewrite Ho'. apply Ho.
Qed.

(** [undo] pops the entry under the marker, if it is not the "home"
    entry. *)
Lemma undo_traced V0 e0 t :
  traced V0 e0 t →
  ∃ t', undo t = Done tt t' ∧ traced V0 e0 t' ∧ tdepth t' = tdepth t
        ∧ below (_history t') =
            match below (_history t) with
            | e :: e2 :: h2 => e2 :: h2
            | h => h
            end.
Proof.
  intros (Hsh & Hg & Hch & Hl & Ho).
  destruct (undo_shaped t Hsh) as (t' & Hrun & Hsh' & Hd).
  exists t'. split; [done|].
  pose proof (grounded_always_call e0 CUndo t Hg) as Hg'.
  simpl in Hg'. rewrite Hrun in Hg'. simpl in Hg'.
  destruct (undo_origin t e0) as (t'' & Hrun' & Ho' & Hl' & _);
    [apply Hsh|by apply grounded_sentinel|].
  assert (t'' = t') as -> by congruence.
  split; [|split; [done|]].
  { unfold traced. splits; try done; [by apply Hl'|].
    intros v. rewrite Ho'. apply Ho. }
  pose proof Hsh as [Hok _].
  destruct Hg as (ms & Hh & Hms & Ha).
  destruct (below_grounded ms e0 Hms Ha) as (ms' & Hbel & Hms').
  rewrite <- Hh in Hbel.
  destruct (shaped_below t Hsh) as (e & h & Hbel' & Hall & _).
  assert (Hnt : action e ≠ "turtle") by (by inversion Hall).
  destruct ms' as [|e1 [|e2 ms']]; simpl in Hbel; rewrite Hbel.
  - destruct (undo_home_spec t e0 [] Hok Hbel Ha)
      as (t'' & Hrun'' & (_ & _ & Hh'' & _) & _).
    assert (t'' = t') as -> by congruence.
    rewrite Hh'', Hbel.
    apply (turtles_marker_part _ _ e0 []). by rewrite Ha.
  - assert (Ha1 : action e1 ≠ "home") by (by inversion Hms').
    destruct (undo_pop_spec t e1 e0 [] Hok Hbel Ha1)
      as (t'' & Hrun'' & (_ & _ & Hh'' & _) & _).
    assert (t'' = t') as -> by congruence.
    rewrite Hh''. apply (turtles_marker_part _ _ e0 []). by rewrite Ha.
  - assert (Ha1 : action e1 ≠ "home") by (by inversion Hms').
    destruct (undo_pop_spec t e1 e2 (ms' ++ [e0]) Hok Hbel Ha1)
      as (t'' & Hrun'' & (_ & _ & Hh'' & _) & _).
    assert (t'' = t') as -> by congruence.
    rewrite Hh''. apply (turtles_marker_part _ _ e2 (ms' ++ [e0])).
    rewrite Hbel' in Hbel. injection Hbel as -> ->.
    inversion Hall as [|? ? _ Hall']. by inversion Hall'.
Qed.

Lemma home_traced V0 e0 t :
  traced V0 e0 t →
  ∃ t', home t = Done tt t' ∧ traced V0 e0 t' ∧ tdepth t' = tdepth t
        ∧ _state t' = home_pose e0 (_state t).
Proof.
  intros Htr. pose proof Htr as (Hsh & Hg & _).
  destruct (grounded_sentinel e0 t Hg) as [Hlast _].
  destruct (step_traced V0 e0 t (home_pose e0) Htr) as (t' & Hrun & Htr' & Hd & Hs).
  exists t'. split; [|done].
  unfold home. by rewrite bind_gets, Hlast.
Qed.

(** [clear] unwinds the history to the "home" entry and records the
    turtle where it stands. *)
Lemma clear_traced V0 e0 t :
  traced V0 e0 t →
  ∃ t' mv,
    clear t = Done tt t'
    ∧ traced V0 e0 t'
    ∧ tdepth t' = tdepth t
    ∧ _state t' = _state t
    ∧ _history t' = marker_part V0 (_state t) ++ [mv; e0]
    ∧ action mv = "move"
    ∧ changed mv = ∅
    ∧ ∀ v, tview t' v = with_marker V0 (_state t) v.
Proof.
  intros Htr. pose proof Htr as (Hsh & Hg & Hch & Hl & Ho).
  pose proof Hsh as [Hok _]. unfold clear.
  match goal with |- ∃ t' mv, with_blocks ?body t = _ ∧ _ =>
    destruct (with_blocks_spec body t
      (fun t1 _ t2 =>
         traced V0 e0 t2
         ∧ _state t2 = _state t1
         ∧ (∃ mv, _history t2 = marker_part V0 (_state t1) ++ [mv; e0]
                  ∧ action mv = "move" ∧ changed mv = ∅)
         ∧ ∀ v, tview t2 v = with_marker V0 (_state t1) v) Hok)
      as ([] & t1 & t2 & t3 & Hrun & Hq1 & HR & Hq3 & Hd3 & Hok3)
  end.
  { intros t1 Hq Hd Hok1.
    pose proof (traced_quiet V0 e0 _ _ Hq Htr) as (Hsh1 & Hg1 & _ & Hl1 & Ho1).
    pose proof Hg1 as (ms & Hh1 & Hms & Ha0).
    destruct (grounded_sentinel e0 t1 Hg1) as [Hlast1 _].
    destruct (clear_loop_spec (_history t1) t1 eq_refl Hok1)
      as (ta & Hrun_a & Hs_a & Hl_a & Hh_a & Hok_a & Hd_a); [by exists e0|].
    destruct (clear_loop_origin (_history t1) t1 eq_refl Hok1)
      as (ta' & Hrun_a' & Ho_a); [by exists e0|].
    assert (ta' = ta) as -> by congruence.
    rewrite Hh1, (home_suffix_grounded ms e0 Hms Ha0) in Hh_a.
    assert (Hview_a : ∀ v, tview ta v = V0 v).
    { intros v. rewrite <- Ho1, <- Ho_a. unfold origin. rewrite Hh_a. simpl.
      by rewrite Hch, lookup_empty. }
    assert (Hbase_a : ∀ v, base_view ta v = V0 v).
    { intros v. unfold base_view. rewrite Hh_a. simpl.
      rewrite decide_False by (by rewrite Ha0). apply Hview_a. }
    assert (Hnomove : update_changes ta = ∅).
    { unfold update_changes. rewrite decide_False; [done|].
      unfold moves_with_pen. rewrite Hl_a, Hs_a, Hl1. tauto. }
    assert (Hmoved_a : ∀ v, moved_view ta v = V0 v).
    { intros v. unfold moved_view. rewrite Hnomove, lookup_empty. apply Hbase_a. }
    assert (Hbel_a : below (_history ta) = [e0]).
    { rewrite Hh_a. simpl. rewrite decide_False; [done|]. by rewrite Ha0. }
    destruct (update_spec ta Hok_a)
      as (tb & Hrun_b & (Hs_b & Hl_b & Hh_b & Hv_b) & Hok_b & Hd_b & _).
    destruct (update_shaped ta e0 [] Hok_a Hbel_a)
      as (tb' & Hrun_b' & Hsh_b & _); [|by exists e0|].
    { constructor; [by rewrite Ha0|done]. }
    assert (tb' = tb) as -> by congruence.
    destruct (update_origin ta Hok_a) as (tb' & Hrun_b'' & Ho_b & _).
    assert (tb' = tb) as -> by congruence.
    assert (Hact : update_action ta = "move").
    { unfold update_action. rewrite decide_False; [done|].
      unfold moves_with_pen. rewrite Hl_a, Hs_a, Hl1. tauto. }
    assert (Hhist_b : _history tb =
              marker_part V0 (_state t1) ++ [move_entry ta; e0]).
    { rewrite Hh_b, Hbel_a, Hs_a. f_equal. by apply marker_part_ext. }
    assert (Hinner : (h0 ← gets _history; clear_loop h0) t1 = Done tt ta).
    { by rewrite bind_gets. }
    exists tt, tb. split.
    { by rewrite (bind_done _ _ _ _ _ Hinner). }
    split; [apply Hsh_b|]. split; [congruence|].
    split; [|split; [congruence|]]; [|split].
    - unfold traced. splits; try done.
      + eexists (_ ++ [_]). rewrite Hhist_b, <- app_assoc. split; [done|].
        split; [|done]. apply Forall_app. split.
        * unfold marker_part. destruct (visible _); by repeat constructor.
        * constructor; [|done]. simpl. by rewrite Hact.
      + by rewrite Hl_b, Hs_b.
      + intros v. rewrite Ho_b, Ho_a. apply Ho1.
    - exists (move_entry ta). split; [done|]. split; [done|].
      simpl. rewrite Hnomove. apply map_eq. intros v.
      by rewrite lookup_snapshot, dom_empty_L, lookup_empty.
    - intros v. rewrite Hv_b, Hs_a. by apply with_marker_ext. }
  destruct HR as (Htr2 & Hs2 & (mv & Hh2 & Hmv & Hmc) & Hv2).
  pose proof Hq1 as (Hs1 & _).
  pose proof Hq3 as (Hs3 & _ & Hh3 & Hv3 & _).
  exists t3, mv. split; [done|]. split; [by eapply traced_quiet|].
  split; [done|]. split; [congruence|]. split; [by rewrite Hh3, Hh2, Hs1|].
  split; [done|]. split; [done|].
  intros v. by rewrite Hv3, Hv2, Hs1.
Qed.

(** [reset] clears and goes home without drawing a line. *)
Lemma reset_traced V0 e0 t :
  traced V0 e0 t →
  ∃ t', reset t = Done tt t' ∧ traced V0 e0 t' ∧ tdepth t' = tdepth t
        ∧ _state t' = home_pose e0 (_state t)
        ∧ ∀ v, tview t' v = with_marker V0 (home_pose e0 (_state t)) v.
Proof.
  intros Htr. pose proof Htr as (Hsh & Hg & Hch & Hl & Ho).
  pose proof Hsh as [Hok _]. unfold reset.
  match goal with |- ∃ t', with_blocks ?body t = _ ∧ _ =>
    destruct (with_blocks_spec body t
      (fun t1 _ t2 =>
         traced V0 e0 t2
         ∧ _state t2 = home_pose e0 (_state t1)
         ∧ ∀ v, tview t2 v = with_marker V0 (home_pose e0 (_state t1)) v) Hok)
      as ([] & t1 & t2 & t3 & Hrun & Hq1 & HR & Hq3 & Hd3 & Hok3)
  end.
  { intros t1 Hq Hd Hok1.
    pose proof (traced_quiet V0 e0 _ _ Hq Htr) as Htr1.
    destruct (clear_traced V0 e0 t1 Htr1)
      as (ta & mv & Hrun_a & Htr_a & Hd_a & Hs_a & Hh_a & Hmv & Hmc & Hv_a).
    pose proof Htr_a as (Hsh_a & Hg_a & _ & Hl_a & Ho_a).
    pose proof Hg_a as (_ & _ & _ & Ha0).
    destruct (grounded_sentinel e0 ta Hg_a) as [Hlast_a _].
    set (ts := set_state (home_pose e0 (_state ta))
                 (set_last_position (position e0) ta)).
    assert (Hok_s : okay ts) by apply Hsh_a.
    assert (Hnt : action mv ≠ "turtle") by (by rewrite Hmv).
    destruct (turtles_marker_part V0 (_state t1) mv [e0] Hnt) as [Htur Hbel].
    rewrite <- Hh_a in Htur, Hbel.
    assert (Hbase_s : ∀ v, base_view ts v = V0 v).
    { intros v. unfold base_view. change (_history ts) with (_history ta).
      rewrite Htur. change (tview ts) with (tview ta).
      rewrite (reverted_ext _ _ _ Hv_a). apply reverted_marker_part. }
    assert (Hstill : ¬ moves_with_pen ts).
    { unfold moves_with_pen. simpl. tauto. }
    assert (Hmoved_s : ∀ v, moved_view ts v = V0 v).
    { intros v. unfold moved_view, update_changes.
      rewrite decide_False, lookup_empty by done. apply Hbase_s. }
    destruct (update_spec ts Hok_s)
      as (tc & Hrun_c & (Hs_c & Hl_c & Hh_c & Hv_c) & Hok_c & Hd_c & _).
    destruct (update_shaped ts mv [e0] Hok_s Hbel)
      as (tc' & Hrun_c' & Hsh_c & _); [|by exists e0|].
    { constructor; [done|]. constructor; [by rewrite Ha0|done]. }
    assert (tc' = tc) as -> by congruence.
    destruct (update_origin ts Hok_s) as (tc' & Hrun_c'' & Ho_c & _).
    assert (tc' = tc) as -> by congruence.
    exists tt, tc. split.
    { rewrite (bind_done _ _ _ _ _ Hrun_a), bind_gets, Hlast_a, bind_modify.
      unfold home. rewrite bind_gets. cbn [_history set_last_position].
      by rewrite Hlast_a, bind_modify. }
    split; [apply Hsh_c|]. split; [rewrite Hd_c; exact Hd_a|].
    split; [|split].
    - unfold traced. splits; try done.
      + change (_history ts) with (_history ta) in Hh_c. rewrite Hbel in Hh_c.
        eexists (_ ++ [_; _]). rewrite Hh_c. split.
        { rewrite <- app_assoc. done. }
        split; [|done]. apply Forall_app. split.
        * unfold marker_part. destruct (visible _); by repeat constructor.
        * constructor; [apply update_action_cases|].
          constructor; [by rewrite Hmv|done].
      + by rewrite Hl_c, Hs_c.
      + intros v. rewrite Ho_c. apply Ho_a.
    - rewrite Hs_c. simpl. by rewrite Hs_a.
    - intros v. rewrite Hv_c. simpl. rewrite Hs_a. by apply with_marker_ext. }
  destruct HR as (Htr2 & Hs2 & Hv2).
  pose proof Hq1 as (Hs1 & _).
  pose proof Hq3 as (Hs3 & _ & Hh3 & Hv3 & _).
  exists t3. split; [done|]. split; [by eapply traced_quiet|].
  split; [done|]. split; [congruence|].
  intros v. by rewrite Hv3, Hv2, Hs1.
Qed.

(** Every call that returns keeps the turtle traced. *)
Lemma run_call_traced V0 e0 t (call : Call) t' :
  traced V0 e0 t → run_call call t = Done tt t' →
  traced V0 e0 t' ∧ tdepth t' = tdepth t.
Proof.
  intros Htr.
  assert (Hstep : ∀ f, step f t = Done tt t' →
            traced V0 e0 t' ∧ tdepth t' = tdepth t).
  { intros f Hrun.
    destruct (step_traced V0 e0 t f Htr) as (t'' & Hrun' & ? & ? & _).
    by assert (t'' = t') as -> by congruence. }
  destruct call as [o| | | |]; simpl.
  - destruct o; simpl; try apply Hstep.
    unfold goto.
    destruct (point_of_cases x y z t) as [[other Hp]|[err Hp]].
    + rewrite (bind_done _ _ _ _ _ Hp). apply (Hstep (replace_position other)).
    + by rewrite (bind_raised _ _ _ _ _ Hp).
  - intros Hrun. destruct (undo_traced V0 e0 t Htr) as (t'' & Hrun' & ? & ? & _).
    by assert (t'' = t') as -> by congruence.
  - intros Hrun. destruct (home_traced V0 e0 t Htr) as (t'' & Hrun' & ? & ? & _).
    by assert (t'' = t') as -> by congruence.
  - intros Hrun.
    destruct (clear_traced V0 e0 t Htr) as (t'' & mv & Hrun' & ? & ? & _).
    by assert (t'' = t') as -> by congruence.
  - intros Hrun. destruct (reset_traced V0 e0 t Htr) as (t'' & Hrun' & ? & ? & _).
    by assert (t'' = t') as -> by congruence.
Qed.

Lemma run_calls_traced V0 e0 cs : ∀ t t',
  traced V0 e0 t → run_calls cs t = Done tt t' →
  traced V0 e0 t' ∧ tdepth t' = tdepth t.
Proof.
  induction cs as [|call cs IH]; intros t t' Htr; simpl.
  - by intros [= <-].
  - unfold mbind, M_bind.
    destruct (run_call call t) as [[] t1|] eqn:Hcall; [|done].
    destruct (run_call_traced V0 e0 t call t1 Htr Hcall) as [Htr1 Hd1].
    intros Hrun. destruct (IH t1 t' Htr1 Hrun) as [? ?]. split; [done|congruence].
Qed.

(** The turtles of a program are traced to the world they were created in. *)
Lemma program_traced w pos cs t0 t :
  w_online w = true →
  Turtle_init (TurtleCache_init w) pos = Done tt t0 →
  run_calls cs t0 = Done tt t →
  traced (w_blocks w) (_state t0) t
  ∧ _batch (_screen t) = None
  ∧ _state t0 = mkState pos vZ (num 0) true true stone stone ∅ "home"
  ∧ (∀ v, tview t0 v = with_marker (w_blocks w) (_state t0) v)
  ∧ _batch (_screen t0) = None
  ∧ traced (w_blocks w) (_state t0) t0.
Proof.
  intros Hon Hinit Hrun.
  destruct (traced_init w pos Hon) as (t0' & Hinit' & Hb0 & Htr0 & Hs0 & _ & Hv0).
  assert (t0' = t0) as -> by congruence.
  destruct (run_calls_traced _ _ cs t0 t Htr0 Hrun) as [Htr Hd].
  splits; try done.
  apply depth0_unbatched; [apply Htr|].
  unfold tdepth in Hd. rewrite Hd. unfold depth. by rewrite Hb0.
Qed.

Lemma traced_world V0 e0 t v :
  traced V0 e0 t → _batch (_screen t) = None →
  w_blocks (_world (_screen t)) v = tview t v.
Proof.
  intros (Hsh & _) Hb. symmetry. apply view_world; [apply Hsh|done].
Qed.

(** X13.  At the end of every program (a constructor call followed by
    calls that return), drawing back the reverse diffs of the whole
    history, the most recent first, onto the world gives the world as it
    was before the turtle was constructed. *)
Theorem history_leads_back w pos cs t0 t :
  w_online w = true →
  Turtle_init (TurtleCache_init w) pos = Done tt t0 →
  run_calls cs t0 = Done tt t →
  ∀ v, reverted (_history t) (w_blocks (_world (_screen t))) v = w_blocks w v.
Proof.
  intros Hon Hinit Hrun v.
  destruct (program_traced w pos cs t0 t Hon Hinit Hrun)
    as (Htr & Hb & _).
  pose proof Htr as (_ & _ & _ & _ & Ho). rewrite <- Ho. unfold origin.
  apply reverted_ext. intros u. by eapply traced_world.
Qed.

(** X14.  At the end of every program [clear] returns, leaves the
    snapshot as it is, the position included, and leaves the world as it
    was before the turtle was constructed, with only the marker of the
    turtle, if it is visible, drawn on it. *)
Theorem clear_restores_world w pos cs t0 t :
  w_online w = true →
  Turtle_init (TurtleCache_init w) pos = Done tt t0 →
  run_calls cs t0 = Done tt t →
  ∃ t', clear t = Done tt t'
        ∧ _state t' = _state t
        ∧ ∀ v, w_blocks (_world (_screen t')) v
               = with_marker (w_blocks w) (_state t) v.
Proof.
  intros Hon Hinit Hrun.
  destruct (program_traced w pos cs t0 t Hon Hinit Hrun)
    as (Htr & Hb & _).
  destruct (clear_traced _ _ t Htr)
    as (t' & mv & Hclear & Htr' & Hd & Hs & _ & _ & _ & Hv).
  exists t'. split; [done|]. split; [done|]. intros v.
  rewrite <- Hv. eapply traced_world; [done|].
  apply depth0_unbatched; [apply Htr'|].
  unfold tdepth in Hd. rewrite Hd. unfold depth. by rewrite Hb.
Qed.

(** X15.  At the end of every program [reset] returns; the snapshot is
    the one before with the position of the constructor call, the start
    heading and no elevation, and the world is as it was before the turtle
    was constructed, with only the marker of that snapshot, if visible,
    drawn on it: no line is drawn on the way home. *)
Theorem reset_restores_world w pos cs t0 t :
  w_online w = true →
  Turtle_init (TurtleCache_init w) pos = Done tt t0 →
  run_calls cs t0 = Done tt t →
  ∃ t', reset t = Done tt t'
        ∧ _state t' = replace_elevation (num 0)
                        (replace_heading vZ (replace_position pos (_state t)))
        ∧ ∀ v, w_blocks (_world (_screen t')) v
               = with_marker (w_blocks w) (_state t') v.
Proof.
  intros Hon Hinit Hrun.
  destruct (program_traced w pos cs t0 t Hon Hinit Hrun)
    as (Htr & Hb & Hs0 & _).
  destruct (reset_traced _ _ t Htr) as (t' & Hreset & Htr' & Hd & Hs & Hv).
  assert (Hpose : home_pose (_state t0) (_state t)
                  = replace_elevation (num 0)
                      (replace_heading vZ (replace_position pos (_state t)))).
  { unfold home_pose. by rewrite Hs0. }
  exists t'. split; [done|]. split; [by rewrite Hs|]. intros v.
  rewrite Hs, <- Hv. eapply traced_world; [done|].
  apply depth0_unbatched; [apply Htr'|].
  unfold tdepth in Hd. rewrite Hd. unfold depth. by rewrite Hb.
Qed.

Lemma undo_times_traced V0 e0 n : ∀ t,
  traced V0 e0 t →
  (length (below (_history t)) ≤ S n)%nat →
  ∃ t', undo_times n t = Done tt t' ∧ traced V0 e0 t' ∧ tdepth t' = tdepth t
        ∧ below (_history t') = [e0].
Proof.
  induction n as [|n IH]; intros t Htr Hlen.
  - exists t. split; [done|]. split; [done|]. split; [done|].
    pose proof Htr as (_ & (ms & Hh & Hms & Ha) & _).
    destruct (below_grounded ms e0 Hms Ha) as (ms' & Hbel & _).
    rewrite <- Hh in Hbel. rewrite Hbel in Hlen |- *.
    destruct ms' as [|e ms']; [done|]. rewrite length_app in Hlen. simpl in Hlen. lia.
  - destruct (undo_traced V0 e0 t Htr) as (t1 & Hrun1 & Htr1 & Hd1 & Hbel1).
    destruct (IH t1 Htr1) as (t' & Hrun' & Htr' & Hd' & Hbel').
    { rewrite Hbel1. destruct (below (_history t)) as [|e [|e2 h2]]; simpl in *; lia. }
    exists t'. split; [|split; [done|split; [congruence|done]]].
    simpl. by rewrite (bind_done _ _ _ _ _ Hrun1).
Qed.

Lemma length_below (h : list TurtleState) : (length (below h) ≤ length h)%nat.
Proof.
  induction h as [|e h IH]; simpl; [done|]. case_decide; simpl; lia.
Qed.

(** X16.  At the end of every program, calling [undo] as many times as
    the history has entries returns each time, and leaves the position,
    heading, elevation, flags and blocks of the snapshot, and every cell
    of the world, as they were right after the constructor call. *)
Theorem undo_everything w pos cs t0 t :
  w_online w = true →
  Turtle_init (TurtleCache_init w) pos = Done tt t0 →
  run_calls cs t0 = Done tt t →
  ∃ t', undo_times (length (_history t)) t = Done tt t'
        ∧ same_fields (_state t') (_state t0)
        ∧ ∀ v, w_blocks (_world (_screen t')) v
               = w_blocks (_world (_screen t0)) v.
Proof.
  intros Hon Hinit Hrun.
  destruct (program_traced w pos cs t0 t Hon Hinit Hrun)
    as (Htr & Hb & Hs0 & Hv0 & Hb0 & Htr0).
  destruct (undo_times_traced _ _ (length (_history t)) t Htr)
    as (t' & Hundo & Htr' & Hd & Hbel).
  { pose proof (length_below (_history t)). lia. }
  exists t'. split; [done|].
  pose proof Htr' as (Hsh' & _ & Hch & _ & Ho').
  destruct (shaped_below t' Hsh') as (e & h & Hbel' & _ & _ & Hf & Hbase & _).
  rewrite Hbel in Hbel'. injection Hbel' as <- <-.
  assert (Hf' : same_fields (_state t') (_state t0)).
  { destruct Hf as (? & ? & ? & ? & ? & ? & ?). by splits. }
  split; [done|]. intros v.
  assert (Hb' : _batch (_screen t') = None).
  { apply depth0_unbatched; [apply Hsh'|].
    unfold tdepth in Hd. rewrite Hd. unfold depth. by rewrite Hb. }
  rewrite (traced_world _ _ t' v Htr' Hb'), (traced_world _ _ t0 v Htr0 Hb0).
  rewrite Hv0, <- Hbase.
  assert (Hbv : ∀ u, base_view t' u = w_blocks w u).
  { intros u. rewrite <- Ho', <- origin_base, Hbel. simpl.
    by rewrite Hch, lookup_empty. }
  rewrite (with_marker_ext _ _ _ Hbv). unfold with_marker.
  rewrite (same_fields_marker _ _ Hf').
  by destruct Hf' as (_ & _ & _ & -> & _).
Qed.

Lemma lookup_line_changes s last v :
  line_changes s last !! v =
  if decide (v ∈ line last (position s)) then Some (penblock s) else None.
Proof.
  unfold line_changes. generalize (line last (position s)) as l.
  induction l as [|u l IH].
  { rewrite fmap_nil. cbn [list_to_map foldr]. rewrite lookup_empty.
    by rewrite decide_False by apply not_elem_of_nil. }
  rewrite fmap_cons. cbn [list_to_map foldr fst snd].
  destruct (decide (u = v)) as [->|Hne].
  - rewrite lookup_insert_eq. by rewrite decide_True by left.
  - rewrite lookup_insert_ne, IH by done.
    case_decide as Hv.
    + by rewrite decide_True by by right.
    + rewrite decide_False; [done|]. by intros [->|?]%elem_of_cons.
Qed.

Lemma with_marker_off V s v : off_marker s v → with_marker V s v = V v.
Proof.
  unfold off_marker, with_marker. destruct (visible s); [|done].
  intros H. by rewrite H.
Qed.

Lemma step_exact V0 e0 t f :
  traced V0 e0 t →
  ∃ t', step f t = Done tt t' ∧ traced V0 e0 t' ∧ tdepth t' = tdepth t
        ∧ _state t' = f (_state t)
        ∧ below (_history t')
          = move_entry (set_state (f (_state t)) t) :: below (_history t)
        ∧ ∀ v, tview t' v
               = with_marker (moved_view (set_state (f (_state t)) t))
                             (f (_state t)) v.
Proof.
  intros Htr.
  destruct (step_traced V0 e0 t f Htr) as (t' & Hrun & Htr' & Hd & Hs).
  exists t'. do 4 (split; [done|]).
  pose proof Htr as (Hsh & _). pose proof Hsh as [Hok _].
  destruct (shaped_below t Hsh) as (e & h & Hbel & Hall & _).
  destruct (update_spec (set_state (f (_state t)) t) Hok)
    as (t'' & Hrun' & (_ & _ & Hh & Hv) & _).
  assert (t'' = t') as ->.
  { unfold step in Hrun. rewrite bind_modify in Hrun. congruence. }
  split; [|done]. rewrite Hh. simpl. rewrite Hbel.
  apply turtles_marker_part. apply update_action_cases.
Qed.

(** What the screen shows under the marker and with it. *)
Lemma traced_view V0 e0 t v :
  traced V0 e0 t → tview t v = with_marker (base_view t) (_state t) v.
Proof.
  intros (Hsh & _). destruct (shaped_below t Hsh) as (e & h & _ & _ & _ & _ & Hb & _).
  by rewrite Hb.
Qed.

Lemma step_world V0 e0 t f t' v :
  traced V0 e0 t → _batch (_screen t) = None → step f t = Done tt t' →
  w_blocks (_world (_screen t')) v
  = with_marker (moved_view (set_state (f (_state t)) t)) (f (_state t)) v
  ∧ w_blocks (_world (_screen t)) v = with_marker (base_view t) (_state t) v.
Proof.
  intros Htr Hb Hrun.
  destruct (step_exact V0 e0 t f Htr) as (t'' & Hrun' & Htr' & Hd & _ & _ & Hv).
  assert (t'' = t') as -> by congruence.
  rewrite (traced_world _ _ t' v Htr'), (traced_world _ _ t v Htr Hb).
  - rewrite Hv. split; [done|]. by eapply traced_view.
  - apply depth0_unbatched; [apply Htr'|].
    unfold tdepth in Hd. rewrite Hd. unfold depth. by rewrite Hb.
Qed.

(** X17.  At the end of every program, an operation whose new snapshot
    has the pen up returns and only moves the marker: the world is then
    what lay under the old marker with the new marker, if visible, on it;
    a cell that is in neither marker holds what it held. *)
Theorem pen_up_move w pos cs t0 t f :
  w_online w = true →
  Turtle_init (TurtleCache_init w) pos = Done tt t0 →
  run_calls cs t0 = Done tt t →
  pendown (f (_state t)) = false →
  ∃ t', step f t = Done tt t'
        ∧ (∀ v, w_blocks (_world (_screen t')) v
                = with_marker (base_view t) (f (_state t)) v)
        ∧ (∀ v, off_marker (_state t) v → off_marker (f (_state t)) v →
                w_blocks (_world (_screen t')) v
                = w_blocks (_world (_screen t)) v).
Proof.
  intros Hon Hinit Hrun Hpen.
  destruct (program_traced w pos cs t0 t Hon Hinit Hrun) as (Htr & Hb & _).
  destruct (step_traced _ _ t f Htr) as (t' & Hstep & _).
  exists t'. split; [done|].
  assert (Hmv : ∀ v, moved_view (set_state (f (_state t)) t) v = base_view t v).
  { intros v. unfold moved_view, update_changes, moves_with_pen. simpl.
    rewrite decide_False, lookup_empty by (rewrite Hpen; intros [? _]; done).
    done. }
  assert (Hw : ∀ v, w_blocks (_world (_screen t')) v
                    = with_marker (base_view t) (f (_state t)) v).
  { intros v. destruct (step_world _ _ t f t' v Htr Hb Hstep) as [-> _].
    by apply with_marker_ext. }
  split; [done|]. intros v Hold Hnew.
  destruct (step_world _ _ t f t' v Htr Hb Hstep) as [_ ->].
  by rewrite Hw, !with_marker_off.
Qed.

(** X18.  At the end of every program, an operation whose new snapshot
    has the pen down at another position returns and draws the line: every
    cell of [line] from the old position to the new one holds the pen
    block, unless the new marker covers it; a cell off the line and off
    both markers holds what it held; and the entry pushed is tagged "line"
    and records exactly the cells of the line. *)
Theorem pen_down_line w pos cs t0 t f :
  w_online w = true →
  Turtle_init (TurtleCache_init w) pos = Done tt t0 →
  run_calls cs t0 = Done tt t →
  pendown (f (_state t)) = true →
  position (f (_state t)) ≠ position (_state t) →
  ∃ t', step f t = Done tt t'
        ∧ (∀ v, v ∈ line (position (_state t)) (position (f (_state t))) →
                w_blocks (_world (_screen t')) v
                = with_marker (fun _ => penblock (f (_state t))) (f (_state t)) v)
        ∧ (∀ v, v ∉ line (position (_state t)) (position (f (_state t))) →
                off_marker (_state t) v → off_marker (f (_state t)) v →
                w_blocks (_world (_screen t')) v
                = w_blocks (_world (_screen t)) v)
        ∧ (∃ e h, below (_history t') = e :: h ∧ action e = "line"
                  ∧ dom (changed e)
                    = list_to_set (line (position (_state t))
                                        (position (f (_state t))))).
Proof.
  intros Hon Hinit Hrun Hpen Hpos.
  destruct (program_traced w pos cs t0 t Hon Hinit Hrun) as (Htr & Hb & _).
  pose proof Htr as (_ & _ & _ & Hl & _).
  destruct (step_exact _ _ t f Htr) as (t' & Hstep & _ & _ & _ & Hbel & _).
  exists t'. split; [done|].
  set (ts := set_state (f (_state t)) t) in *.
  assert (Hmoves : moves_with_pen ts).
  { unfold moves_with_pen. simpl. by rewrite Hl. }
  assert (Hch : update_changes ts
                = line_changes (f (_state t)) (position (_state t))).
  { unfold update_changes. rewrite decide_True by done. simpl. by rewrite Hl. }
  assert (Hmv : ∀ v, moved_view ts v =
            if decide (v ∈ line (position (_state t)) (position (f (_state t))))
            then penblock (f (_state t)) else base_view t v).
  { intros v. unfold moved_view. rewrite Hch, lookup_line_changes.
    by case_decide. }
  splits.
  - intros v Hv.
    destruct (step_world _ _ t f t' v Htr Hb Hstep) as [-> _].
    unfold with_marker. fold ts. rewrite Hmv. by rewrite decide_True.
  - intros v Hv Hold Hnew.
    destruct (step_world _ _ t f t' v Htr Hb Hstep) as [-> ->].
    rewrite !with_marker_off by done. fold ts. rewrite Hmv.
    by rewrite decide_False.
  - eexists _, _. split; [exact Hbel|]. split.
    + unfold move_entry, update_action. simpl. by rewrite decide_True.
    + unfold move_entry. simpl. rewrite dom_snapshot, Hch.
      apply set_eq. intros v. rewrite elem_of_dom, lookup_line_changes.
      rewrite elem_of_list_to_set. case_decide; [|split; [intros []|]]; try done.
Qed.

Lemma traced_unbatched V0 e0 t t' :
  traced V0 e0 t' → tdepth t' = tdepth t → _batch (_screen t) = None →
  _batch (_screen t') = None.
Proof.
  intros (Hsh & _) Hd Hb. apply depth0_unbatched; [apply Hsh|].
  unfold tdepth in Hd. rewrite Hd. unfold depth. by rewrite Hb.
Qed.

(** The snapshot of a traced turtle carries the fields of the entry under
    the marker. *)
Lemma traced_fields V0 e0 t e h :
  traced V0 e0 t → below (_history t) = e :: h → same_fields e (_state t).
Proof.
  intros (Hsh & _) Hbel.
  destruct (shaped_below t Hsh) as (e' & h' & Hbel' & _ & _ & Hf & _).
  congruence.
Qed.

(** X20.  [block(b)] sets the pen block and then the fill block, each
    with its own history entry: at the end of every program it returns
    with both blocks equal to [b]; one [undo] restores the fill block only
    and leaves the pen block [b]; a second [undo] restores the fields of
    the snapshot. *)
Theorem block_takes_two_undos w pos cs t0 t b :
  w_online w = true →
  Turtle_init (TurtleCache_init w) pos = Done tt t0 →
  run_calls cs t0 = Done tt t →
  ∃ t1 t2 t3,
    set_block b t = Done tt t1
    ∧ penblock (_state t1) = b ∧ fillblock (_state t1) = b
    ∧ undo t1 = Done tt t2
    ∧ penblock (_state t2) = b
    ∧ fillblock (_state t2) = fillblock (_state t)
    ∧ undo t2 = Done tt t3
    ∧ same_fields (_state t3) (_state t).
Proof.
  intros Hon Hinit Hrun.
  destruct (program_traced w pos cs t0 t Hon Hinit Hrun) as (Htr & Hb & _).
  destruct (step_exact _ _ t (replace_penblock b) Htr)
    as (ta & Hrun_a & Htr_a & _ & Hs_a & Hbel_a & _).
  destruct (step_exact _ _ ta (replace_fillblock b) Htr_a)
    as (t1 & Hrun_1 & Htr_1 & _ & Hs_1 & Hbel_1 & _).
  destruct (undo_traced _ _ t1 Htr_1) as (t2 & Hrun_2 & Htr_2 & _ & Hbel_2).
  destruct (undo_traced _ _ t2 Htr_2) as (t3 & Hrun_3 & Htr_3 & _ & Hbel_3).
  rewrite Hbel_1, Hbel_a in Hbel_2.
  rewrite Hbel_2 in Hbel_3.
  pose proof Htr as (Hsh & _).
  destruct (shaped_below t Hsh) as (e & h & Hbel & _ & _ & Hf & _).
  rewrite Hbel in Hbel_3, Hbel_2.
  pose proof (traced_fields _ _ t2 _ _ Htr_2 Hbel_2) as Hf2.
  pose proof (traced_fields _ _ t3 _ _ Htr_3 Hbel_3) as Hf3.
  exists t1, t2, t3. splits.
  - unfold set_block, set_penblock, set_fillblock.
    by rewrite (bind_done _ _ _ _ _ Hrun_a).
  - by rewrite Hs_1, Hs_a.
  - by rewrite Hs_1.
  - done.
  - by destruct Hf2 as (_ & _ & _ & _ & _ & <- & _).
  - by destruct Hf2 as (_ & _ & _ & _ & _ & _ & <-).
  - done.
  - destruct Hf as (? & ? & ? & ? & ? & ? & ?).
    destruct Hf3 as (? & ? & ? & ? & ? & ? & ?).
    unfold same_fields. splits; congruence.
Qed.

(** X21.  [home] can be undone.  At the end of every program [home]
    returns with the position of the constructor call, the start heading
    and no elevation, the other fields as they were; [undo] after it
    returns and restores the fields of the snapshot and every cell of the
    world. *)
Theorem undo_after_home w pos cs t0 t :
  w_online w = true →
  Turtle_init (TurtleCache_init w) pos = Done tt t0 →
  run_calls cs t0 = Done tt t →
  ∃ t1 t2,
    home t = Done tt t1
    ∧ _state t1 = replace_elevation (num 0)
                    (replace_heading vZ (replace_position pos (_state t)))
    ∧ undo t1 = Done tt t2
    ∧ same_fields (_state t2) (_state t)
    ∧ ∀ v, w_blocks (_world (_screen t2)) v = w_blocks (_world (_screen t)) v.
Proof.
  intros Hon Hinit Hrun.
  destruct (program_traced w pos cs t0 t Hon Hinit Hrun) as (Htr & Hb & Hs0 & _).
  pose proof Htr as (Hsh & Hg & _).
  destruct (grounded_sentinel _ t Hg) as [Hlast _].
  destruct (step_then_undo t (home_pose (_state t0)) (conj Hb Hsh))
    as (t1 & t2 & Hrun1 & Hrun2 & Hf & _ & Hw & _).
  destruct (step_traced _ _ t (home_pose (_state t0)) Htr) as (t1' & Hrun1' & _ & _ & Hs1).
  assert (t1' = t1) as -> by congruence.
  exists t1, t2. splits; try done.
  - unfold home. by rewrite bind_gets, Hlast.
  - rewrite Hs1. unfold home_pose. by rewrite Hs0.
Qed.

(** X22.  At the end of every program that leaves the turtle visible,
    [hideturtle] returns and leaves the world as it lies under the marker,
    and [showturtle] after it returns and restores the fields of the
    snapshot and every cell of the world. *)
Theorem hide_then_show w pos cs t0 t :
  w_online w = true →
  Turtle_init (TurtleCache_init w) pos = Done tt t0 →
  run_calls cs t0 = Done tt t →
  visible (_state t) = true →
  ∃ t1 t2,
    hideturtle t = Done tt t1
    ∧ (∀ v, w_blocks (_world (_screen t1)) v = base_view t v)
    ∧ showturtle t1 = Done tt t2
    ∧ same_fields (_state t2) (_state t)
    ∧ ∀ v, w_blocks (_world (_screen t2)) v = w_blocks (_world (_screen t)) v.
Proof.
  intros Hon Hinit Hrun Hvis.
  destruct (program_traced w pos cs t0 t Hon Hinit Hrun) as (Htr & Hb & _).
  pose proof Htr as (_ & _ & _ & Hl & _).
  destruct (step_exact _ _ t (replace_visible false) Htr)
    as (t1 & Hrun1 & Htr1 & Hd1 & Hs1 & Hbel1 & Hv1).
  pose proof (traced_unbatched _ _ t t1 Htr1 Hd1 Hb) as Hb1.
  pose proof Htr1 as (_ & _ & _ & Hl1 & _).
  destruct (step_exact _ _ t1 (replace_visible true) Htr1)
    as (t2 & Hrun2 & Htr2 & Hd2 & Hs2 & Hbel2 & Hv2).
  pose proof (traced_unbatched _ _ t1 t2 Htr2 Hd2 Hb1) as Hb2.
  assert (Hstill : ∀ t' f, _last_position t' = position (_state t') →
            position (f (_state t')) = position (_state t') →
            ∀ v, moved_view (set_state (f (_state t')) t') v = base_view t' v).
  { intros t' f Hl' Hp v. unfold moved_view, update_changes, moves_with_pen.
    simpl. rewrite decide_False, lookup_empty; [done|].
    rewrite Hl', Hp. tauto. }
  assert (Hview1 : ∀ v, tview t1 v = base_view t v).
  { intros v. rewrite Hv1. unfold with_marker. simpl. by apply Hstill. }
  assert (Hbase1 : ∀ v, base_view t1 v = base_view t v).
  { intros v. rewrite <- Hview1. rewrite (traced_view _ _ t1 v Htr1).
    unfold with_marker. by rewrite Hs1. }
  exists t1, t2. splits; try done.
  - intros v. rewrite (traced_world _ _ t1 v Htr1 Hb1). apply Hview1.
  - rewrite Hs2, Hs1. destruct (_state t); simpl in *. by splits.
  - intros v.
    rewrite (traced_world _ _ t2 v Htr2 Hb2), (traced_world _ _ t v Htr Hb).
    rewrite Hv2, (traced_view _ _ t v Htr).
    rewrite (with_marker_ext _ _ _ (Hstill t1 (replace_visible true) Hl1 eq_refl)).
    rewrite (with_marker_ext _ _ _ Hbase1).
    unfold with_marker. rewrite Hs1, Hvis. simpl.
    assert (Hm : marker (replace_visible true (replace_visible false (_state t)))
                 = marker (_state t)) by done.
    by rewrite Hm.
Qed.

(** X12.  On a live connection the constructor returns; the snapshot is
    the start snapshot at the given position, the history is the "home"
    entry under one "turtle" entry, and the world has changed in the cells
    of the marker only, which hold the marker's blocks. *)
Theorem init_draws_marker w pos :
  w_online w = true →
  ∃ t, Turtle_init (TurtleCache_init w) pos = Done tt t
       ∧ _state t = mkState pos vZ (num 0) true true stone stone ∅ "home"
       ∧ _last_position t = pos
       ∧ (action <$> _history t) = ["turtle"; "home"]
       ∧ ∀ v, w_blocks (_world (_screen t)) v
              = default (w_blocks w v) (marker (_state t) !! v).
Proof.
  intros Hon.
  destruct (traced_init w pos Hon) as (t & Hinit & Hb & Htr & Hs & Hh & Hv).
  exists t. split; [done|]. split; [done|].
  pose proof Htr as (_ & _ & _ & Hl & _).
  split; [by rewrite Hl, Hs|]. split; [by rewrite Hh, Hs|].
  intros v. rewrite (traced_world _ _ t v Htr Hb), Hv.
  unfold with_marker. by rewrite Hs.
Qed.

(** X19.  At the end of every program, an operation that leaves every
    field of the snapshot as it is (such as [pendown()] with the pen
    down) still returns with a new "move" entry without cells on top of
    the history, so it takes an [undo] of its own; the world is as it
    was. *)
Theorem idle_call_is_recorded w pos cs t0 t f :
  w_online w = true →
  Turtle_init (TurtleCache_init w) pos = Done tt t0 →
  run_calls cs t0 = Done tt t →
  same_fields (f (_state t)) (_state t) →
  ∃ t' e,
    step f t = Done tt t'
    ∧ below (_history t') = e :: below (_history t)
    ∧ action e = "move"
    ∧ changed e = ∅
    ∧ ∀ v, w_blocks (_world (_screen t')) v = w_blocks (_world (_screen t)) v.
Proof.
  intros Hon Hinit Hrun Hf.
  destruct (program_traced w pos cs t0 t Hon Hinit Hrun) as (Htr & Hb & _).
  pose proof Htr as (_ & _ & _ & Hl & _).
  destruct (step_exact _ _ t f Htr) as (t' & Hstep & _ & _ & _ & Hbel & _).
  set (ts := set_state (f (_state t)) t) in *.
  assert (Hstill : ¬ moves_with_pen ts).
  { unfold moves_with_pen. simpl. rewrite Hl.
    destruct Hf as (-> & _). tauto. }
  exists t', (move_entry ts). split; [done|]. split; [done|]. splits.
  - unfold move_entry, update_action. simpl. by rewrite decide_False.
  - unfold move_entry, update_changes. simpl. rewrite decide_False by done.
    apply map_eq. intros v.
    by rewrite lookup_snapshot, dom_empty_L, lookup_empty.
  - intros v.
    destruct (step_world _ _ t f t' v Htr Hb Hstep) as [-> ->]. fold ts.
    assert (Hmv : ∀ u, moved_view ts u = base_view t u).
    { intros u. unfold moved_view, update_changes.
      by rewrite decide_False, lookup_empty. }
    rewrite (with_marker_ext _ _ _ Hmv). unfold with_marker.
    rewrite (same_fields_marker _ _ Hf).
    by destruct Hf as (_ & _ & _ & -> & _).
Qed.

End ProgramProperties.

(** * The chat console *)









(** * Scenarios on the grid *)

(** C2.  A coordinate that only the open batch knows: the batch holds a
    block for the origin, the shared cache does not, and reading the
    origin raises [KeyError] instead of returning the batch's block. *)
Theorem getitem_overlay_only_raises :
  overlay overlay_only !! (0, 0, 0) = Some stone
  ∧ _cache overlay_only !! (0, 0, 0) = None
  ∧ ∃ c', __getitem__ [(0, 0, 0)] overlay_only = Raised KeyError c'.
Proof.
  split; [vm_compute; reflexivity|]. split; [vm_compute; reflexivity|].
  apply (getitem_overlay_uncached overlay_only [(0, 0, 0)] (0, 0, 0)).
  - apply list_elem_of_here.
  - exists stone. vm_compute. reflexivity.
  - vm_compute. reflexivity.
  - reflexivity.
Qed.

(** The scenario of the spec: [forward(5)] with the pen down moves the
    turtle to (0,0,5) and leaves the pen block in the six cells from
    (0,0,0) to (0,0,5); [undo()] moves it back and leaves the pen block
    only under the turtle, where it was. *)
Example forward_five_cells :
  position (_state forward_five) = (0, 0, 5)
  ∧ dom (filter (fun vb => vb.2 = stone) (_cache (_screen forward_five)))
    = {[ (0, 0, 0); (0, 0, 1); (0, 0, 2); (0, 0, 3); (0, 0, 4); (0, 0, 5) ]}
  ∧ position (_state forward_five_undone) = (0, 0, 0)
  ∧ dom (filter (fun vb => vb.2 = stone) (_cache (_screen forward_five_undone)))
    = {[ (0, 0, 0) ]}
  ∧ dom (filter (fun vb => vb.2 = stone) (_cache (_screen spawn)))
    = {[ (0, 0, 0) ]}.
Proof.
  repeat split; apply bool_decide_unpack; vm_compute; exact I.
Qed.

(** C8, as the claim states it, fails: the entry that the last
    [forward(2)] pushes is a "line" entry of three cells, not two. *)
Lemma pen_scenario_line_is_not_two_cells :
  action <$> head (below (_history pen_scenario)) = Some "line"
  ∧ ¬ (size ∘ changed <$> head (below (_history pen_scenario)) = Some 2%nat).
Proof.
  split; [vm_compute; reflexivity|].
  vm_compute. discriminate.
Qed.

(** C8, as the code has it.  Of the entries below the marker, the three
    pushed by [penup()], [forward(3)] and [pendown()] are "move" entries
    without cells, and the one pushed by [forward(2)] is a "line" entry of
    the three cells of the path from (0,0,3) to (0,0,5), both ends
    included.  Afterwards exactly these three cells hold the pen block
    among the cells the turtle has touched; the first of them held it
    already, under the turtle, so the last batch sends the pen block for
    the other two. *)
Theorem pen_scenario_cells :
  (fun e => (action e, dom (changed e))) <$> below (_history pen_scenario)
  = [("line", {[ (0, 0, 3); (0, 0, 4); (0, 0, 5) ]});
     ("move", ∅); ("move", ∅); ("move", ∅); ("home", ∅)]
  ∧ (fun e => (action e, position e)) <$> below (_history pen_scenario)
    = [("line", (0, 0, 5)); ("move", (0, 0, 3)); ("move", (0, 0, 3));
       ("move", (0, 0, 0)); ("home", (0, 0, 0))]
  ∧ dom (filter (fun vb => vb.2 = stone) (_cache (_screen pen_scenario)))
    = {[ (0, 0, 3); (0, 0, 4); (0, 0, 5) ]}
  ∧ dom (filter (fun vb => vb.2 = stone) (_cache (_screen pen_scenario_before)))
    = {[ (0, 0, 3) ]}
  ∧ (dom ∘ filter (fun vb => vb.2 = stone))
      <$> last (sends (w_log (_world (_screen pen_scenario))))
    = Some {[ (0, 0, 4); (0, 0, 5) ]}.
Proof.
  repeat split; apply bool_decide_unpack; vm_compute; exact I.
Qed.

(** C9, as the claim states it, fails: with a [Vector] constructor that
    stores what it is given, [goto((1, 2))] of a hidden turtle with the
    pen up raises nothing; it returns, having pushed a "move" entry and
    sent a batch to the world. *)
Lemma goto_malformed_returns :
  let o := @goto Loose (PySeq [1; 2]) PyNone PyNone hidden_turtle in
  error o = None
  ∧ (action <$> _history (final o)) = "move" :: (action <$> _history hidden_turtle)
  ∧ length (w_log (_world (_screen (final o))))
    = S (length (w_log (_world (_screen hidden_turtle)))).
Proof. vm_compute. repeat split; reflexivity. Qed.

(** ** The theorems at concrete inputs *)

Lemma settled_spawn : settled spawn.
Proof.
  destruct (settled_init air_world (0, 0, 0) eq_refl) as (t & Hrun & Ht).
  unfold spawn, fresh_cache. rewrite Hrun. exact Ht.
Defined.

(** [forward(5)] then [undo()] from the spawn. *)
Lemma undo_after_op_witness :
  settled spawn
  ∧ match run_op (OForward 5) spawn with
    | Done _ t1 =>
        ∃ t2,
          undo t1 = Done tt t2
          ∧ same_fields (_state t2) (_state spawn)
          ∧ (∀ v, tview t2 v = tview spawn v)
          ∧ (∀ v, w_blocks (_world (_screen t2)) v
                  = w_blocks (_world (_screen spawn)) v)
          ∧ settled t2
    | Raised _ t1 => t1 = spawn ∧ ∃ x y z, OForward 5 = OGoto x y z
    end.
Proof.
  split; [exact settled_spawn|].
  exact (undo_after_op spawn (OForward 5) settled_spawn).
Defined.

(** [undo()] right after the spawn. *)
Lemma undo_underflow_witness :
  ∃ t',
    undo spawn = Done tt t'
    ∧ _state t' = _state spawn
    ∧ _last_position t' = _last_position spawn.
Proof.
  destruct (spawn_history air_world (0, 0, 0) eq_refl)
    as (t & tm & Hrun & Hh & Htm & Hhome).
  assert (Ht : spawn = t) by (unfold spawn, fresh_cache; by rewrite Hrun).
  destruct (undo_underflow spawn [tm] (_state spawn)) as (t' & Hundo & H1 & H2 & _).
  - exact (proj1 (proj2 settled_spawn)).
  - rewrite Ht. exact Hh.
  - constructor; [exact Htm|constructor].
  - rewrite Ht. exact Hhome.
  - exists t'. split; [exact Hundo|]. split; assumption.
Defined.

(** A scope entered twice around three writes of the origin. *)
Lemma nested_batch_witness :
  let c1 := final (run_events (EEnter :: nested_body) fresh_cache) in
  _batch c1 = Some (mkBatch 1 (net_effect ∅ (written nested_body)))
  ∧ sends (w_log (_world c1)) = sends (w_log (_world fresh_cache)).
Proof.
  intros c1.
  assert (Hrun : run_events (EEnter :: nested_body) fresh_cache = Done tt c1).
  { apply done_final. vm_compute. reflexivity. }
  destruct (nested_batch_flushes_once fresh_cache nested_body c1
              eq_refl eq_refl Hrun) as (H1 & H2 & _).
  split; assumption.
Defined.

(** A set on a dead connection. *)
Lemma cache_error_atomicity_witness :
  __setitem__ [(0, 0, 0)] [stone] offline_cache
  = Raised ConnectionError offline_cache.
Proof.
  assert (Hrun : __setitem__ [(0, 0, 0)] [stone] offline_cache
                 = Raised ConnectionError
                     (final (__setitem__ [(0, 0, 0)] [stone] offline_cache))).
  { apply raised_final. vm_compute. reflexivity. }
  pose proof (proj1 (proj2 (cache_error_atomicity offline_cache))
                _ _ _ _ eq_refl Hrun) as Hsame.
  rewrite Hsame in Hrun. exact Hrun.
Defined.


(** Writing the origin, which the fresh cache has never read. *)
Lemma setitem_requires_cached_witness :
  __setitem__ [(0, 0, 0)] [stone] fresh_cache = Raised KeyError fresh_cache.
Proof.
  apply (proj1 (setitem_requires_cached fresh_cache [(0, 0, 0)] [stone] eq_refl)).
  exists (0, 0, 0). split; [|reflexivity]. simpl. apply list_elem_of_here.
Defined.

(** The hidden turtle with the pen up is in working order. *)
Lemma okay_hidden_turtle : okay hidden_turtle.
Proof.
  destruct (@settled_init Loose (@mkWorld Loose (fun _ => air) true [])
              (Some (0, 0, 0)) eq_refl) as (t0 & H0 & _ & Hs0).
  destruct (@step_shaped Loose t0 (replace_pendown false) Hs0)
    as (t1 & H1 & Hs1 & _).
  destruct (@step_shaped Loose t1 (replace_visible false) Hs1)
    as (t2 & H2 & Hs2 & _).
  assert (Ht : hidden_turtle = t2).
  { unfold hidden_turtle, loose_cache. rewrite H0. cbn [final].
    unfold penup, hideturtle. by rewrite (bind_done _ _ _ _ _ H1), H2. }
  rewrite Ht. apply Hs2.
Qed.

(** [goto((1, 2))], [towards((1, 2))] and [distance((1, 2))] on the hidden
    turtle with the pen up, with the constructor that stores what it is
    given: [goto] returns, and the other two raise the [TypeError] of the
    arithmetic and change nothing. *)
Lemma malformed_point_witness :
  (∃ t', @goto Loose (PySeq [1; 2]) PyNone PyNone hidden_turtle = Done tt t'
         ∧ _last_position t' = None)
  ∧ @towards Loose (PySeq [1; 2]) PyNone PyNone hidden_turtle
    = Raised TypeError hidden_turtle
  ∧ @distance Loose (PySeq [1; 2]) PyNone PyNone hidden_turtle
    = Raised TypeError hidden_turtle.
Proof.
  assert (Hl : length ([1; 2] : list (@Num Loose)) ≠ 3%nat) by discriminate.
  destruct (@malformed_point_reaches_constructor Loose [1; 2] PyNone PyNone Hl)
    as (_ & Hhidden & Htowards & Hdistance & _).
  split; [|split].
  - destruct (Hhidden hidden_turtle None eq_refl okay_hidden_turtle)
      as (t' & Hrun & _ & Hlast & _).
    + vm_compute. reflexivity.
    + vm_compute. reflexivity.
    + exists t'. split; assumption.
  - rewrite Htowards. reflexivity.
  - rewrite Hdistance. reflexivity.
Defined.

(** ** The further theorems at concrete inputs *)

Lemma spawn_init :
  Turtle_init (TurtleCache_init air_world) (0, 0, 0) = Done tt spawn.
Proof.
  unfold spawn, fresh_cache.
  refine (done_final (Turtle_init (TurtleCache_init air_world) (0, 0, 0)) _).
  vm_compute. reflexivity.
Defined.

Lemma sketch_runs : run_calls sketch spawn = Done tt sketched.
Proof.
  unfold sketched. refine (done_final (run_calls sketch spawn) _).
  vm_compute. reflexivity.
Defined.

Lemma warm_cached v :
  v ∈ [(0, 0, 0)] → is_Some (_cache warm_cache !! v).
Proof.
  intros Hv. apply list_elem_of_singleton in Hv. subst v.
  exists air. vm_compute. reflexivity.
Defined.

Lemma getitem_cached_no_request_witness :
  ∃ m, __getitem__ [(0, 0, 0)] warm_cache = Done m warm_cache
       ∧ m !! (0, 0, 0) = Some (view warm_cache (0, 0, 0)).
Proof.
  destruct (getitem_cached_no_request warm_cache [(0, 0, 0)] warm_cached)
    as (m & Hrun & Hm).
  exists m. split; [exact Hrun|]. rewrite Hm. reflexivity.
Defined.

Lemma getitem_again_witness :
  ∃ m c1, __getitem__ [(0, 0, 0)] fresh_cache = Done m c1
          ∧ __getitem__ [(0, 0, 0)] c1 = Done m c1.
Proof.
  destruct (getitem_spec fresh_cache [(0, 0, 0)] (healthy_init air_world eq_refl))
    as (m & c1 & Hrun & _).
  exists m, c1. split; [exact Hrun|].
  exact (proj2 (getitem_again fresh_cache [(0, 0, 0)] m c1 Hrun)).
Defined.

Lemma nodup_origin : NoDup [((0, 0, 0) : V3)].
Proof. apply NoDup_singleton. Defined.

Lemma setitem_warm :
  __setitem__ [(0, 0, 0)] [stone] warm_cache
  = Done tt (final (__setitem__ [(0, 0, 0)] [stone] warm_cache)).
Proof. apply done_final. vm_compute. reflexivity. Defined.

Lemma setitem_then_getitem_witness :
  let c' := final (__setitem__ [(0, 0, 0)] [stone] warm_cache) in
  __getitem__ [(0, 0, 0)] c' = Done (zip_dict [(0, 0, 0)] [stone]) c'.
Proof.
  intros c'.
  exact (setitem_then_getitem warm_cache [(0, 0, 0)] [stone] c'
           eq_refl nodup_origin eq_refl setitem_warm).
Defined.

Lemma coherent_warm : coherent warm_cache.
Proof.
  destruct (getitem_spec fresh_cache [(0, 0, 0)] (healthy_init air_world eq_refl))
    as (m & c1 & Hrun & _ & Hh & _).
  assert (c1 = warm_cache) as <-.
  { unfold warm_cache. by rewrite Hrun. }
  apply Hh.
Defined.

Lemma setitem_reaches_world_witness :
  let c' := final (__setitem__ [(0, 0, 0)] [stone] warm_cache) in
  w_blocks (_world c') (0, 0, 0) = stone.
Proof.
  intros c'.
  apply (proj1 (setitem_reaches_world warm_cache [(0, 0, 0)] [stone] c'
                  eq_refl coherent_warm nodup_origin eq_refl setitem_warm)).
  vm_compute. reflexivity.
Defined.

Lemma setitem_duplicate_position_witness :
  ∃ c', __setitem__ [(0, 0, 0); (0, 0, 0)] [stone; air] warm_cache = Done tt c'
        ∧ _cache c' !! (0, 0, 0) = Some stone.
Proof.
  assert (Hc : _cache warm_cache !! (0, 0, 0) = Some air).
  { vm_compute. reflexivity. }
  assert (Hne : stone ≠ air) by discriminate.
  destruct (setitem_duplicate_position warm_cache (0, 0, 0) stone air
              eq_refl eq_refl Hc Hne) as [(c' & Hrun & Hc' & _) _].
  exists c'. split; assumption.
Defined.

Lemma inner_failure_keeps_writes_witness :
  (__enter__;; __enter__;; __setitem__ [(0, 0, 0)] [stone];;
   __exit__ true;; __exit__ false) warm_cache
  = (__enter__;; __setitem__ [(0, 0, 0)] [stone];; __exit__ false) warm_cache.
Proof.
  exact (inner_failure_keeps_writes warm_cache [(0, 0, 0)] [stone] eq_refl).
Defined.

Lemma healthy_warm : healthy warm_cache.
Proof.
  destruct (getitem_spec fresh_cache [(0, 0, 0)] (healthy_init air_world eq_refl))
    as (m & c1 & Hrun & _ & Hh & _).
  assert (c1 = warm_cache) as <-.
  { unfold warm_cache. by rewrite Hrun. }
  exact Hh.
Defined.

Lemma healthy_open_batch : healthy open_batch ∧ depth open_batch = 1.
Proof.
  destruct (enter_spec warm_cache healthy_warm) as (c' & Hrun & Hd & Hh & _).
  assert (c' = open_batch) as <-.
  { unfold open_batch. by rewrite Hrun. }
  split; [exact Hh|]. rewrite Hd. reflexivity.
Defined.

Lemma exit_publishes_view_witness :
  ∃ c', __exit__ false open_batch = Done tt c' ∧ _batch c' = None.
Proof.
  destruct (exit_publishes_view open_batch (proj1 healthy_open_batch)
              (proj2 healthy_open_batch)) as (c' & Hrun & Hb & _).
  exists c'. split; assumption.
Defined.

Lemma batch_reads_own_writes_witness :
  ∃ c', __setitem__ [(0, 0, 0)] [stone] open_batch = Done tt c'
        ∧ __getitem__ [(0, 0, 0)] c' = Done (zip_dict [(0, 0, 0)] [stone]) c'.
Proof.
  destruct (batch_reads_own_writes open_batch (mkBatch 1 ∅)
              [(0, 0, 0)] [stone] eq_refl eq_refl) as (c' & Hrun & _ & _ & Hget).
  - intros v Hv. apply list_elem_of_singleton in Hv. subst v.
    exists air. vm_compute. reflexivity.
  - exists c'. split; assumption.
Defined.

Lemma reachable_sketched : reachable (final (up 120 spawn)).
Proof.
  apply (reachable_call spawn (@CStep Grid (@OUp Grid 120))).
  apply (reachable_init fresh_cache (0, 0, 0)).
Defined.

Lemma history_single_home_witness :
  ∃ ms e0, _history (final (up 120 spawn)) = ms ++ [e0] ∧ action e0 = "home".
Proof.
  destruct (history_single_home _ reachable_sketched)
    as (ms & e0 & Hh & _ & Ha & _).
  exists ms, e0. split; assumption.
Defined.

Lemma elevation_in_range_witness :
  -90 ≤ elevation (_state (final (up 120 spawn))) ≤ 90.
Proof. exact (elevation_in_range _ reachable_sketched). Defined.

Lemma history_leads_back_witness :
  reverted (_history sketched) (w_blocks (_world (_screen sketched))) (0, 0, 1)
  = air.
Proof.
  exact (history_leads_back air_world (0, 0, 0) sketch spawn sketched
           eq_refl spawn_init sketch_runs (0, 0, 1)).
Defined.

Lemma clear_restores_world_witness :
  ∃ t', clear sketched = Done tt t' ∧ _state t' = _state sketched.
Proof.
  destruct (clear_restores_world air_world (0, 0, 0) sketch spawn sketched
              eq_refl spawn_init sketch_runs) as (t' & Hrun & Hs & _).
  exists t'. split; assumption.
Defined.

Lemma reset_restores_world_witness :
  ∃ t', reset sketched = Done tt t'
        ∧ ∀ v, w_blocks (_world (_screen t')) v
               = with_marker (w_blocks air_world) (_state t') v.
Proof.
  destruct (reset_restores_world air_world (0, 0, 0) sketch spawn sketched
              eq_refl spawn_init sketch_runs) as (t' & Hrun & _ & Hw).
  exists t'. split; assumption.
Defined.

Lemma undo_everything_witness :
  ∃ t', undo_times (length (_history sketched)) sketched = Done tt t'
        ∧ same_fields (_state t') (_state spawn).
Proof.
  destruct (undo_everything air_world (0, 0, 0) sketch spawn sketched
              eq_refl spawn_init sketch_runs) as (t' & Hrun & Hf & _).
  exists t'. split; assumption.
Defined.

Lemma pen_up_move_witness :
  ∃ t', step (@replace_position Grid (5, 0, 5)) sketched = Done tt t'
        ∧ ∀ v, w_blocks (_world (_screen t')) v
               = with_marker (base_view sketched)
                   (@replace_position Grid (5, 0, 5) (_state sketched)) v.
Proof.
  destruct (pen_up_move air_world (0, 0, 0) sketch spawn sketched
              (@replace_position Grid (5, 0, 5)) eq_refl spawn_init sketch_runs)
    as (t' & Hrun & Hw & _).
  - vm_compute. reflexivity.
  - exists t'. split; assumption.
Defined.

Lemma pen_down_line_witness :
  ∃ t', step (@replace_position Grid (0, 0, 3)) spawn = Done tt t'
        ∧ ∃ e h, below (_history t') = e :: h ∧ action e = "line".
Proof.
  destruct (pen_down_line air_world (0, 0, 0) [] spawn spawn
              (@replace_position Grid (0, 0, 3)) eq_refl spawn_init eq_refl)
    as (t' & Hrun & _ & _ & e & h & Hbel & Ha & _).
  - vm_compute. reflexivity.
  - intros H. vm_compute in H. discriminate H.
  - exists t'. split; [exact Hrun|]. exists e, h. split; assumption.
Defined.

Lemma block_takes_two_undos_witness :
  ∃ t1 t2,
    set_block wool15 sketched = Done tt t1
    ∧ undo t1 = Done tt t2
    ∧ penblock (_state t2) = wool15.
Proof.
  destruct (block_takes_two_undos air_world (0, 0, 0) sketch spawn sketched
              wool15 eq_refl spawn_init sketch_runs)
    as (t1 & t2 & t3 & Hrun & _ & _ & Hundo & Hp & _).
  exists t1, t2. split; [exact Hrun|]. split; assumption.
Defined.

Lemma undo_after_home_witness :
  ∃ t1 t2, home sketched = Done tt t1 ∧ undo t1 = Done tt t2
           ∧ same_fields (_state t2) (_state sketched).
Proof.
  destruct (undo_after_home air_world (0, 0, 0) sketch spawn sketched
              eq_refl spawn_init sketch_runs)
    as (t1 & t2 & Hrun & _ & Hundo & Hf & _).
  exists t1, t2. split; [exact Hrun|]. split; assumption.
Defined.

Lemma hide_then_show_witness :
  ∃ t1 t2, hideturtle sketched = Done tt t1 ∧ showturtle t1 = Done tt t2
           ∧ same_fields (_state t2) (_state sketched).
Proof.
  destruct (hide_then_show air_world (0, 0, 0) sketch spawn sketched
              eq_refl spawn_init sketch_runs)
    as (t1 & t2 & Hrun & _ & Hshow & Hf & _).
  - vm_compute. reflexivity.
  - exists t1, t2. split; [exact Hrun|]. split; assumption.
Defined.

Lemma init_draws_marker_witness :
  ∃ t, Turtle_init (TurtleCache_init air_world) (0, 0, 0) = Done tt t
       ∧ (action <$> _history t) = ["turtle"; "home"].
Proof.
  destruct (init_draws_marker air_world (0, 0, 0) eq_refl)
    as (t & Hrun & _ & _ & Hh & _).
  exists t. split; assumption.
Defined.


Lemma idle_call_is_recorded_witness :
  ∃ t' e, step (@replace_pendown Grid true) spawn = Done tt t'
          ∧ below (_history t') = e :: below (_history spawn)
          ∧ action e = "move".
Proof.
  destruct (idle_call_is_recorded air_world (0, 0, 0) [] spawn spawn
              (@replace_pendown Grid true) eq_refl
              spawn_init eq_refl)
    as (t' & e & Hrun & Hbel & Ha & _).
  - unfold same_fields. repeat split; vm_compute; reflexivity.
  - exists t', e. split; [exact Hrun|]. split; assumption.
Defined.
